(** * ATS Resume Tracker: DOCX patching, fit scoring, storage and cloud sync

    A shallow embedding of the parts of the browser extension that carry
    logic of their own, and the properties checked against them:

    - [Docx]: [distributeAcrossNodes], [patchDocxWithParagraphs] and
      [extractParagraphsFromDocxBase64] (the DOCX utilities that follow the
      background worker in src/src/background/background.ts);
    - [Num], [Score]: numbers, [tokenize], [computeHeuristicScore] and the
      arithmetic of [analyzeMatch] (src/src/popup/utils/download.ts);
    - [Effect], [Storage]: [StorageManager] (src/unnamed/part_001), the job
      handler of the background worker, the cloud operations of
      src/src/firebase/sync.ts, and [saveGeneratedContent];
    - [Generate]: [mergeParagraphsJson] and the request and repair flow of
      [generateOptimizedResume];
    - [Analyze]: [analyzeMatch] from the reply of the model on, with the
      conversion of the reported score to a number;
    - [DocxLaws], [DocxFile], [ScoreLaws], [GenerateLaws], [TextLaws]:
      further properties of the DOCX utilities, of the scoring and of the
      generation;
    - [Manager], [SyncLaws]: the storage manager and the cloud operations;
    - [Handlers], [Upload], [Popup], [Download], [WordDoc],
      [CoverLetterFlow], [Typewriter], [Base64]: the handlers of the popup
      (src/src/popup), the downloads and the byte conversions.

    JavaScript strings are sequences of UTF-16 code units; [length] and
    [slice] count code units, so a string is a [list N]. *)

From stdpp Require Import base list gmap strings pretty.
From Stdlib Require Import ZArith NArith Lia Ascii.
From Stdlib Require Import Floats.SpecFloat.

Local Open Scope Z_scope.

(** ** JavaScript strings *)

Abbreviation jsstring := (list N).

(** One code unit per Latin-1 character of a literal. *)
Fixpoint js (s : string) : jsstring :=
  match s with
  | EmptyString => []
  | String a r => N_of_ascii a :: js r
  end.

(** [String.prototype.slice(from, to)]: negative positions count from the
    end, positions are clamped to the string. *)
Definition slice (s : jsstring) (from to : Z) : jsstring :=
  let len := Z.of_nat (length s) in
  let k := if from <? 0 then Z.max (len + from) 0 else Z.min from len in
  let final := if to <? 0 then Z.max (len + to) 0 else Z.min to len in
  take (Z.to_nat (Z.max (final - k) 0)) (drop (Z.to_nat k) s).

Lemma slice_take_drop (s : jsstring) (a n : Z) :
  0 <= a -> 0 <= n -> a + n <= Z.of_nat (length s) ->
  slice s a (a + n) = take (Z.to_nat n) (drop (Z.to_nat a) s).
Proof.
  intros Ha Hn Hlen. unfold slice.
  destruct (Z.ltb_spec a 0); [lia|].
  destruct (Z.ltb_spec (a + n) 0); [lia|].
  rewrite (Z.min_l a) by lia. rewrite (Z.min_l (a + n)) by lia.
  do 2 f_equal. lia.
Qed.

Module Docx.

(** *** distributeAcrossNodes

    The nodes are the [w:t] elements of one paragraph; the function reads
    their text contents and overwrites each of them. The embedding takes
    the list of their contents and returns the list of the new contents,
    node by node. *)

Definition clear (rest : list Z) : list jsstring := map (fun _ => []) rest.

(** The [for] loop: [offset] is the loop variable, [originalLens] what is
    left of the array from index [i] on. The last node
    ([i === nodes.length - 1]) takes all that is left of the text. *)
Fixpoint distribute_loop (text : jsstring) (offset : Z) (originalLens : list Z)
  : list jsstring :=
  match originalLens with
  | [] => []
  | l :: rest =>
      let len := Z.of_nat (length text) in
      let take_ := match rest with
                   | [] => len - offset
                   | _ => Z.min l (len - offset)
                   end in
      let part := if 0 <? take_ then slice text offset (offset + take_) else [] in
      let offset' := offset + Z.max 0 take_ in
      if len <=? offset' then part :: clear rest
      else part :: distribute_loop text offset' rest
  end.

Definition distributeAcrossNodes (text : jsstring) (nodes : list jsstring)
  : list jsstring :=
  match nodes with
  | [] => []
  | _ :: others =>
      let originalLens := map (fun n => Z.of_nat (length n)) nodes in
      let totalOriginal := foldl Z.add 0 originalLens in
      if totalOriginal =? 0 then text :: map (fun _ => []) others
      else distribute_loop text 0 originalLens
  end.

Example distribute_three :
  distributeAcrossNodes (js "Senior engineer") [js "Jun"; js "ior "; js "dev"]
  = [js "Sen"; js "ior "; js "engineer"].
Proof. reflexivity. Qed.

Example distribute_short :
  distributeAcrossNodes (js "Hi") [js "Jun"; js "ior "; js "dev"]
  = [js "Hi"; []; []].
Proof. reflexivity. Qed.

Example distribute_blank :
  distributeAcrossNodes (js "Hi") [[]; []] = [js "Hi"; []].
Proof. reflexivity. Qed.

(** The text is cut by UTF-16 code units: the two halves of a surrogate
    pair (here U+1F600) can land in two nodes. *)
Example distribute_cuts_a_pair :
  distributeAcrossNodes (js "a" ++ [55357; 56832]%N) [js "Hi"; js "there"]
  = [js "a" ++ [55357]%N; [56832]%N].
Proof. reflexivity. Qed.

(** *** The DOM of word/document.xml

    Only [w:p] and [w:t] elements are looked up by the code
    ([getElementsByTagName]), and only the [textContent] of [w:t] elements
    is read or assigned. A [w:t] element holds character data only; every
    other element is an [E]. Attributes and character data outside [w:t]
    are never touched and are left out. *)
#[local] Unset Elimination Schemes.
Inductive node :=
  | T (text : jsstring)
  | P (kids : list node)
  | E (kids : list node).
#[local] Set Elimination Schemes.

(** [getElementsByTagName('w:t')] below a node, in document order, as the
    list of the text contents. *)
Fixpoint tTexts (n : node) : list jsstring :=
  let tTexts_list := fix go (ns : list node) : list jsstring :=
    match ns with
    | [] => []
    | c :: r => tTexts c ++ go r
    end in
  match n with
  | T s => [s]
  | P kids => tTexts_list kids
  | E kids => tTexts_list kids
  end.

Fixpoint tTexts_list (ns : list node) : list jsstring :=
  match ns with
  | [] => []
  | c :: r => tTexts c ++ tTexts_list r
  end.

(** [getElementsByTagName('w:p')], in document order (an outer paragraph
    comes before the paragraphs nested in it), as the elements themselves. *)
Fixpoint pElements (n : node) : list node :=
  let pElements_list := fix go (ns : list node) : list node :=
    match ns with
    | [] => []
    | c :: r => pElements c ++ go r
    end in
  match n with
  | T _ => []
  | P kids => P kids :: pElements_list kids
  | E kids => pElements_list kids
  end.

Fixpoint pElements_list (ns : list node) : list node :=
  match ns with
  | [] => []
  | c :: r => pElements c ++ pElements_list r
  end.

(** The loop of [patchDocxWithParagraphs] assigns [textContent] in place,
    and an element can be reached through more than one paragraph (a
    paragraph inside a text box of another one). The text contents
    therefore live in a store, one cell per [w:t] element in document order,
    and a paragraph is known by the cells of its [w:t] descendants: first
    cell and number of cells. [k] is the cell of the first [w:t] at or after
    the node. *)
Fixpoint pNodes (k : nat) (n : node) : list (nat * nat) :=
  let pNodes_list := fix go (k : nat) (ns : list node) : list (nat * nat) :=
    match ns with
    | [] => []
    | c :: r => pNodes k c ++ go (k + length (tTexts c))%nat r
    end in
  match n with
  | T _ => []
  | P kids => (k, length (tTexts_list kids)) :: pNodes_list k kids
  | E kids => pNodes_list k kids
  end.

Fixpoint pNodes_list (k : nat) (ns : list node) : list (nat * nat) :=
  match ns with
  | [] => []
  | c :: r => pNodes k c ++ pNodes_list (k + length (tTexts c))%nat r
  end.

(** The document whose [w:t] elements hold the cells of the store. *)
Fixpoint fill (n : node) (store : list jsstring) : node :=
  let fill_list := fix go (ns : list node) (store : list jsstring) : list node :=
    match ns with
    | [] => []
    | c :: r => fill c store :: go r (drop (length (tTexts c)) store)
    end in
  match n with
  | T s => T (default s (head store))
  | P kids => P (fill_list kids store)
  | E kids => E (fill_list kids store)
  end.

Fixpoint fill_list (ns : list node) (store : list jsstring) : list node :=
  match ns with
  | [] => []
  | c :: r => fill c store :: fill_list r (drop (length (tTexts c)) store)
  end.

(** The document with the text of every [w:t] erased: what is left is the
    tree of elements. *)
Fixpoint shape (n : node) : node :=
  match n with
  | T _ => T []
  | P kids => P (map shape kids)
  | E kids => E (map shape kids)
  end.

(** No [w:p] at or below the node. *)
Fixpoint noP (n : node) : bool :=
  match n with
  | T _ => true
  | P _ => false
  | E kids => forallb noP kids
  end.

(** No [w:p] inside another [w:p]. *)
Fixpoint flat (n : node) : bool :=
  match n with
  | T _ => true
  | P kids => forallb noP kids
  | E kids => forallb flat kids
  end.

(** No line feed in the string. *)
Definition newline_free (s : jsstring) : Prop := 10%N ∉ s.

(** The [w:t] nodes of a paragraph, read from the store. *)
Definition tNodes (p : nat * nat) (store : list jsstring) : list jsstring :=
  take p.2 (drop p.1 store).

(** *** extractParagraphsFromDocxBase64, on the parsed document *)
Definition extractParagraphs (doc : node) : list jsstring :=
  map (fun p => concat (tTexts p)) (pElements doc).

(** *** patchDocxWithParagraphs, on the parsed document *)

(** [updatedParagraphs.slice(0, count)], then [push('')] up to [count]. *)
Definition normalize (updatedParagraphs : list jsstring) (count : nat)
  : list jsstring :=
  let normalized := take count updatedParagraphs in
  normalized ++ replicate (count - length normalized) [].

(** One turn of the loop: a paragraph without [w:t] is skipped. *)
Definition patchParagraph (store : list jsstring) (pt : nat * nat * jsstring)
  : list jsstring :=
  let '(p, text) := pt in
  match tNodes p store with
  | [] => store
  | nodes => list_inserts p.1 (distributeAcrossNodes text nodes) store
  end.

Definition patchStore (doc : node) (updatedParagraphs : list jsstring)
  : list jsstring :=
  let ps := pNodes 0 doc in
  let count := length ps in
  let normalized := normalize updatedParagraphs count in
  foldl patchParagraph (tTexts doc) (zip ps normalized).

Definition patchParagraphs (doc : node) (updatedParagraphs : list jsstring)
  : node :=
  fill doc (patchStore doc updatedParagraphs).

(** *** The archive around the document

    [base64ToUint8Array], [PizZip], [getDocXml] and [parseXml] turn the
    base64 text into the DOM or throw; [serializeXml], [zip.file],
    [zip.generate] and [uint8ArrayToBase64] put a DOM back into the archive.
    Both belong to the browser and to PizZip and are taken as given. *)
Section Archive.

Context {archive : Type}.
Variable load : archive -> option node.
Variable save : archive -> node -> archive.

Definition extractParagraphsFromDocxBase64 (base64 : archive)
  : option (list jsstring) :=
  doc ← load base64; Some (extractParagraphs doc).

Definition patchDocxWithParagraphs (originalDocxBase64 : archive)
    (updatedParagraphs : list jsstring) : option archive :=
  doc ← load originalDocxBase64;
  Some (save originalDocxBase64 (patchParagraphs doc updatedParagraphs)).

End Archive.

(** A paragraph that holds another paragraph (a text box), and a flat
    document of two paragraphs inside a body. *)
Definition textbox_doc : node :=
  E [P [E [T (js "a")]; E [P [E [T (js "b")]]]]].

Definition two_paragraphs : node :=
  E [E [P [E [T (js "Jun"); T (js "ior")]; E []; E [T (js " dev")]];
        P [E [T (js "Toronto")]]]].

Definition three_paragraphs : node :=
  E [E [P [E [T (js "Jun"); T (js "ior")]; E []; E [T (js " dev")]];
        P [E [T (js "Toronto")]];
        P [E []]]].

Example extract_three_paragraphs :
  extractParagraphs three_paragraphs = [js "Junior dev"; js "Toronto"; []].
Proof. reflexivity. Qed.

Example patch_three_paragraphs :
  patchParagraphs three_paragraphs [js "Senior engineer"; js "Ottawa"; js "x"; js "y"]
  = E [E [P [E [T (js "Sen"); T (js "ior")]; E []; E [T (js " engineer")]];
          P [E [T (js "Ottawa")]];
          P [E []]]].
Proof. reflexivity. Qed.

Example pNodes_textbox : pNodes 0 textbox_doc = [(0, 2); (1, 1)]%nat.
Proof. reflexivity. Qed.

Example patch_textbox :
  extractParagraphs (patchParagraphs textbox_doc [js "xy"; js "z"])
  = [js "xz"; js "z"].
Proof. reflexivity. Qed.

(** A paragraph of two runs patched with a letter and U+1F600: the halves
    of the pair are written to two [w:t] elements. Joined, they read as the
    text that was asked for. *)
Example patch_cuts_a_pair :
  patchParagraphs (E [P [E [T (js "Hi")]; E [T (js "there")]]])
    [js "a" ++ [55357; 56832]%N]
  = E [P [E [T (js "a" ++ [55357]%N)]; E [T [56832]%N]]]
  /\ extractParagraphs
       (patchParagraphs (E [P [E [T (js "Hi")]; E [T (js "there")]]])
          [js "a" ++ [55357; 56832]%N])
     = [js "a" ++ [55357; 56832]%N].
Proof. split; reflexivity. Qed.

Lemma concat_all_empty {A B} (l : list B) :
  concat (map (fun _ => @nil A) l) = [].
Proof. induction l; simpl; auto. Qed.

Lemma length_distribute_loop text offset lens :
  length (distribute_loop text offset lens) = length lens.
Proof.
  revert offset. induction lens as [|l rest IH]; intros offset; [done|].
  cbn [distribute_loop]. cbv zeta.
  destruct (_ <=? _); cbn [length]; [|by rewrite IH].
  unfold clear. by rewrite length_map.
Qed.

Lemma length_distributeAcrossNodes text nodes :
  length (distributeAcrossNodes text nodes) = length nodes.
Proof.
  unfold distributeAcrossNodes. destruct nodes as [|n others]; [done|].
  cbv zeta. destruct (_ =? _).
  - cbn [length]. by rewrite length_map.
  - by rewrite length_distribute_loop, length_map.
Qed.

Lemma distribute_loop_concat text lens : forall offset,
  lens <> [] -> 0 <= offset <= Z.of_nat (length text) ->
  concat (distribute_loop text offset lens) = drop (Z.to_nat offset) text.
Proof.
  induction lens as [|l rest IH]; intros offset Hne Hoff; [done|].
  cbn [distribute_loop]. cbv zeta.
  set (len := Z.of_nat (length text)) in *.
  set (tk := match rest with [] => len - offset | _ => Z.min l (len - offset) end).
  assert (Htk : tk <= len - offset /\ (rest = [] -> tk = len - offset)).
  { subst tk. destruct rest; split; try done; lia. }
  destruct Htk as [Htk Hlast].
  assert (Hpart : (if 0 <? tk then slice text offset (offset + tk) else [])
                  = take (Z.to_nat tk) (drop (Z.to_nat offset) text)).
  { destruct (Z.ltb_spec 0 tk).
    - apply slice_take_drop; lia.
    - replace (Z.to_nat tk) with 0%nat by lia. done. }
  rewrite Hpart.
  destruct (Z.leb_spec len (offset + Z.max 0 tk)) as [Hend|Hmore].
  - cbn [concat]. unfold clear. rewrite concat_all_empty, app_nil_r.
    apply take_ge. rewrite length_drop. lia.
  - cbn [concat]. destruct rest as [|l' rest'].
    + specialize (Hlast eq_refl). lia.
    + rewrite IH by (try done; lia).
      etrans; [|apply (take_drop (Z.to_nat tk))].
      f_equal. rewrite drop_drop. f_equal. lia.
Qed.

Lemma distribute_rejoins (text : jsstring) (nodes : list jsstring) :
  nodes <> [] -> concat (distributeAcrossNodes text nodes) = text.
Proof.
  intros Hne. unfold distributeAcrossNodes.
  destruct nodes as [|n others]; [done|]. cbv zeta.
  destruct (_ =? _).
  - cbn [concat]. by rewrite concat_all_empty, app_nil_r.
  - rewrite distribute_loop_concat; [done| |lia].
    by destruct others.
Qed.

(** C4. Whatever the text and however many nodes there are (at least one),
    [distributeAcrossNodes] leaves as many nodes as it found, and their new
    contents, joined in order, are the text. *)
Theorem distributeAcrossNodes_lossless (text : jsstring) (nodes : list jsstring) :
  nodes <> [] ->
  length (distributeAcrossNodes text nodes) = length nodes
  /\ concat (distributeAcrossNodes text nodes) = text.
Proof.
  intros Hne. split; [apply length_distributeAcrossNodes|by apply distribute_rejoins].
Qed.

Lemma distributeAcrossNodes_lossless_witness :
  length (distributeAcrossNodes (js "Data engineer") [js "x"; js "y"]) = 2%nat
  /\ concat (distributeAcrossNodes (js "Data engineer") [js "x"; js "y"])
     = js "Data engineer".
Proof.
  apply (distributeAcrossNodes_lossless (js "Data engineer") [js "x"; js "y"]).
  discriminate.
Defined.

(** *** Reasoning about the DOM *)

Local Open Scope nat_scope.

Fixpoint node_ind (Q : node -> Prop)
    (HT : forall s, Q (T s))
    (HP : forall kids, Forall Q kids -> Q (P kids))
    (HE : forall kids, Forall Q kids -> Q (E kids))
    (n : node) : Q n :=
  let all := fix go (ns : list node) : Forall Q ns :=
    match ns with
    | [] => List.Forall_nil Q
    | c :: r => List.Forall_cons Q c r (node_ind Q HT HP HE c) (go r)
    end in
  match n with
  | T s => HT s
  | P kids => HP kids (all kids)
  | E kids => HE kids (all kids)
  end.

Lemma tTexts_fill_list ns : forall store,
  Forall (fun n => forall store, length (tTexts n) <= length store ->
                   tTexts (fill n store) = take (length (tTexts n)) store) ns ->
  length (tTexts_list ns) <= length store ->
  tTexts_list (fill_list ns store) = take (length (tTexts_list ns)) store.
Proof.
  induction ns as [|c r IH]; intros store Hall Hlen; [done|].
  apply Forall_cons_1 in Hall as [Hc Hr]. cbn [tTexts_list fill_list] in *.
  rewrite length_app in *.
  rewrite Hc by lia. rewrite IH; [|done|rewrite length_drop; lia].
  apply take_take_drop.
Qed.

Lemma tTexts_fill n : forall store,
  length (tTexts n) <= length store ->
  tTexts (fill n store) = take (length (tTexts n)) store.
Proof.
  induction n as [s|kids IH|kids IH] using node_ind; intros store Hlen.
  - destruct store; [simpl in Hlen; lia|done].
  - by apply (tTexts_fill_list kids).
  - by apply (tTexts_fill_list kids).
Qed.

Lemma tTexts_list_fill_list ns store :
  length (tTexts_list ns) <= length store ->
  tTexts_list (fill_list ns store) = take (length (tTexts_list ns)) store.
Proof.
  apply tTexts_fill_list, Forall_forall. intros n _. apply tTexts_fill.
Qed.

Lemma shape_fill n : forall store, shape (fill n store) = shape n.
Proof.
  assert (Hl : forall ns, Forall (fun n => forall st, shape (fill n st) = shape n) ns ->
                          forall st, map shape (fill_list ns st) = map shape ns).
  { induction ns as [|c r IH]; intros Hall st; [done|].
    apply Forall_cons_1 in Hall as [Hc Hr]. cbn [fill_list map].
    by rewrite Hc, IH. }
  induction n as [s|kids IH|kids IH] using node_ind; intros store; [done| |].
  - change (P (map shape (fill_list kids store)) = P (map shape kids)).
    by rewrite Hl.
  - change (E (map shape (fill_list kids store)) = E (map shape kids)).
    by rewrite Hl.
Qed.

Lemma length_tTexts_shape n : length (tTexts (shape n)) = length (tTexts n).
Proof.
  assert (Hl : forall ns,
            Forall (fun n => length (tTexts (shape n)) = length (tTexts n)) ns ->
            length (tTexts_list (map shape ns)) = length (tTexts_list ns)).
  { induction 1 as [|c r Hc _ IH]; [done|].
    cbn [map tTexts_list]. rewrite !length_app. congruence. }
  induction n as [s|kids IH|kids IH] using node_ind; [done| |]; by apply Hl.
Qed.

Lemma pNodes_shape n : forall k, pNodes k (shape n) = pNodes k n.
Proof.
  assert (Hl : forall ns,
            Forall (fun n => forall k, pNodes k (shape n) = pNodes k n) ns ->
            forall k, pNodes_list k (map shape ns) = pNodes_list k ns
                      /\ length (tTexts_list (map shape ns)) = length (tTexts_list ns)).
  { induction 1 as [|c r Hc _ IH]; intros k; [done|].
    cbn [map pNodes_list tTexts_list]. rewrite !length_app, !length_tTexts_shape, Hc.
    destruct (IH (k + length (tTexts c))) as [-> ->]. done. }
  induction n as [s|kids IH|kids IH] using node_ind; intros k; [done| |].
  - destruct (Hl kids IH k) as [H1 H2].
    change (pNodes k (shape (P kids)))
      with ((k, length (tTexts_list (map shape kids))) :: pNodes_list k (map shape kids)).
    by rewrite H1, H2.
  - by destruct (Hl kids IH k) as [H1 H2].
Qed.

Lemma pElements_shape n : pElements (shape n) = map shape (pElements n).
Proof.
  assert (Hl : forall ns,
            Forall (fun n => pElements (shape n) = map shape (pElements n)) ns ->
            pElements_list (map shape ns) = map shape (pElements_list ns)).
  { induction 1 as [|c r Hc _ IH]; [done|].
    cbn [map pElements_list]. by rewrite map_app, Hc, IH. }
  induction n as [s|kids IH|kids IH] using node_ind; [done| |].
  - change (P (map shape kids) :: pElements_list (map shape kids)
            = shape (P kids) :: map shape (pElements_list kids)).
    by rewrite (Hl kids IH).
  - by apply Hl.
Qed.

(** The paragraphs as elements and as ranges of cells agree. *)
Lemma pElements_pNodes n : forall k store,
  k + length (tTexts n) <= length store ->
  map tTexts (pElements (fill n (drop k store)))
  = map (fun p => tNodes p store) (pNodes k n).
Proof.
  assert (Hl : forall ns,
            Forall (fun n => forall k store,
              k + length (tTexts n) <= length store ->
              map tTexts (pElements (fill n (drop k store)))
              = map (fun p => tNodes p store) (pNodes k n)) ns ->
            forall k store, k + length (tTexts_list ns) <= length store ->
              map tTexts (pElements_list (fill_list ns (drop k store)))
              = map (fun p => tNodes p store) (pNodes_list k ns)).
  { induction 1 as [|c r Hc _ IH]; intros k store Hlen; [done|].
    cbn [fill_list pElements_list pNodes_list tTexts_list] in *.
    rewrite length_app in Hlen.
    rewrite !map_app, Hc by lia. f_equal.
    rewrite drop_drop. apply IH. lia. }
  induction n as [s|kids IH|kids IH] using node_ind; intros k store Hlen; [done| |].
  - change (tTexts_list (fill_list kids (drop k store))
              :: map tTexts (pElements_list (fill_list kids (drop k store)))
            = tNodes (k, length (tTexts_list kids)) store
              :: map (fun p => tNodes p store) (pNodes_list k kids)).
    change (tTexts (P kids)) with (tTexts_list kids) in Hlen.
    rewrite (Hl kids IH) by done. f_equal.
    apply tTexts_list_fill_list. rewrite length_drop. lia.
  - by apply (Hl kids IH).
Qed.

Lemma pElements_sizes n : forall k,
  map (fun p => length (tTexts p)) (pElements n) = (pNodes k n).*2.
Proof.
  assert (Hl : forall ns,
            Forall (fun n => forall k,
              map (fun p => length (tTexts p)) (pElements n) = (pNodes k n).*2) ns ->
            forall k, map (fun p => length (tTexts p)) (pElements_list ns)
                      = (pNodes_list k ns).*2).
  { induction 1 as [|c r Hc _ IH]; intros k; [done|].
    cbn [pElements_list pNodes_list]. rewrite map_app, fmap_app.
    by rewrite (Hc k), (IH (k + length (tTexts c))). }
  induction n as [s|kids IH|kids IH] using node_ind; intros k; [done| |].
  - change (length (tTexts_list kids)
              :: map (fun p => length (tTexts p)) (pElements_list kids)
            = length (tTexts_list kids) :: (pNodes_list k kids).*2).
    by rewrite (Hl kids IH k).
  - by apply (Hl kids IH).
Qed.

Lemma length_pNodes n k : length (pNodes k n) = length (pElements n).
Proof.
  rewrite <- (length_fmap snd (pNodes k n)), <- (pElements_sizes n k).
  by rewrite length_map.
Qed.

(** Ranges of cells that follow each other without overlap, from [k] on and
    below [b]. *)
Fixpoint chain (k : nat) (ps : list (nat * nat)) (b : nat) : Prop :=
  match ps with
  | [] => k <= b
  | p :: r => k <= p.1 /\ chain (p.1 + p.2) r b
  end.

Lemma chain_le ps : forall k b, chain k ps b -> k <= b.
Proof.
  induction ps as [|p r IH]; intros k b H; [done|].
  destruct H as [H1 H2]. apply IH in H2. lia.
Qed.

Lemma chain_app ps qs : forall k m b,
  chain k ps m -> chain m qs b -> chain k (ps ++ qs) b.
Proof.
  induction ps as [|p r IH]; intros k m b H1 H2.
  - simpl in *. destruct qs as [|q qs]; simpl in *; [lia|].
    split; [lia|tauto].
  - destruct H1 as [H1 H1']. split; [done|]. by apply (IH _ m).
Qed.

Lemma pNodes_noP n : forall k, noP n = true -> pNodes k n = [].
Proof.
  assert (Hl : forall ns,
            Forall (fun n => forall k, noP n = true -> pNodes k n = []) ns ->
            forall k, forallb noP ns = true -> pNodes_list k ns = []).
  { induction 1 as [|c r Hc _ IH]; intros k Hb; [done|].
    cbn [forallb] in Hb. apply andb_true_iff in Hb as [Hb1 Hb2].
    cbn [pNodes_list]. by rewrite Hc, IH. }
  induction n as [s|kids IH|kids IH] using node_ind; intros k Hn; [done|done|].
  by apply (Hl kids IH).
Qed.

Lemma pNodes_list_noP ns k : forallb noP ns = true -> pNodes_list k ns = [].
Proof.
  revert k. induction ns as [|c r IH]; intros k Hb; [done|].
  cbn [forallb] in Hb. apply andb_true_iff in Hb as [Hb1 Hb2].
  cbn [pNodes_list]. by rewrite pNodes_noP, IH.
Qed.

Lemma chain_pNodes n : forall k,
  flat n = true -> chain k (pNodes k n) (k + length (tTexts n)).
Proof.
  induction n as [s|kids IH|kids IH] using node_ind; intros k Hf.
  - simpl. lia.
  - change (flat (P kids)) with (forallb noP kids) in Hf.
    change (pNodes k (P kids))
      with ((k, length (tTexts_list kids)) :: pNodes_list k kids).
    rewrite pNodes_list_noP by done.
    change (tTexts (P kids)) with (tTexts_list kids). cbn [chain fst snd]. lia.
  - change (flat (E kids)) with (forallb flat kids) in Hf.
    change (chain k (pNodes_list k kids) (k + length (tTexts_list kids))).
    revert k. induction IH as [|c r Hc _ IHr]; intros k; [simpl; lia|].
    cbn [forallb] in Hf. apply andb_true_iff in Hf as [Hf1 Hf2].
    cbn [pNodes_list tTexts_list]. rewrite length_app.
    apply (chain_app _ _ _ (k + length (tTexts c))); [by apply Hc|].
    rewrite Nat.add_assoc. by apply IHr.
Qed.

Lemma list_inserts_split {A} (vs st : list A) s :
  s + length vs <= length st ->
  list_inserts s vs st = take s st ++ vs ++ drop (s + length vs) st.
Proof.
  intros H.
  transitivity (list_inserts (length (take s st) + 0) vs
                  (take s st ++ (take (length vs) (drop s st)
                                 ++ drop (length vs) (drop s st)))).
  { rewrite !take_drop. f_equal. rewrite length_take. lia. }
  rewrite list_inserts_app_r, list_inserts_0_r.
  - by rewrite drop_drop.
  - rewrite length_take, length_drop. lia.
Qed.

Lemma patchParagraph_in_range st s l text :
  s + l <= length st -> 0 < l ->
  patchParagraph st (s, l, text)
  = take s st ++ distributeAcrossNodes text (take l (drop s st)) ++ drop (s + l) st.
Proof.
  intros Hr Hl. unfold patchParagraph, tNodes. cbn [fst snd].
  assert (Hlen : length (take l (drop s st)) = l).
  { rewrite length_take, length_drop. lia. }
  destruct (take l (drop s st)) as [|n ns] eqn:Hn; [simpl in Hlen; lia|].
  rewrite list_inserts_split; rewrite length_distributeAcrossNodes, Hlen; [done|lia].
Qed.

Lemma length_patchParagraph st pt : length (patchParagraph st pt) = length st.
Proof.
  destruct pt as [p text]. unfold patchParagraph.
  destruct (tNodes p st); [done|]. apply length_inserts.
Qed.

Lemma length_foldl_patchParagraph l : forall st,
  length (foldl patchParagraph st l) = length st.
Proof.
  induction l as [|pt l IH]; intros st; [done|].
  cbn [foldl]. by rewrite IH, length_patchParagraph.
Qed.

(** On ranges that do not overlap, every paragraph ends up holding its own
    text, and the cells before the first range are not written. *)
Lemma patch_chain ps : forall texts k st,
  chain k ps (length st) -> length texts = length ps ->
  Forall (fun p => 0 < p.2) ps ->
  let st' := foldl patchParagraph st (zip ps texts) in
  map (fun p => concat (tNodes p st')) ps = texts
  /\ take k st' = take k st.
Proof.
  induction ps as [|[s l] r IH]; intros texts k st Hch Hlen Hpos; cbv zeta.
  - destruct texts; [done|discriminate].
  - destruct texts as [|text texts]; [discriminate|].
    destruct Hch as [Hk Hch]. cbn [fst snd] in *.
    apply Forall_cons_1 in Hpos as [Hl Hpos]. cbn [snd] in Hl.
    pose proof (chain_le _ _ _ Hch) as Hb.
    cbn [zip zip_with foldl].
    set (st1 := patchParagraph st (s, l, text)).
    assert (Hst1 : st1 = take s st
                         ++ distributeAcrossNodes text (take l (drop s st))
                         ++ drop (s + l) st)
      by (by apply patchParagraph_in_range).
    assert (Hlen1 : length st1 = length st) by apply length_patchParagraph.
    assert (Hd : length (distributeAcrossNodes text (take l (drop s st))) = l).
    { rewrite length_distributeAcrossNodes, length_take, length_drop. lia. }
    destruct (IH texts (s + l) st1) as [Hmap Htake].
    { by rewrite Hlen1. } { simpl in Hlen. lia. } { done. }
    set (st' := foldl patchParagraph st1 (zip r texts)) in *.
    split.
    + cbn [map]. f_equal; [|done].
      unfold tNodes. cbn [fst snd].
      rewrite take_drop_commute, Htake, <- take_drop_commute, Hst1.
      rewrite drop_app_length' by (rewrite length_take; lia).
      rewrite take_app_length' by done.
      apply distribute_rejoins.
      intros Hnil. apply (f_equal length) in Hnil.
      rewrite length_take, length_drop in Hnil. simpl in Hnil. lia.
    + replace k with (min k (s + l)) at 1 by lia.
      rewrite <- take_take, Htake, take_take.
      replace (min k (s + l)) with k by lia.
      rewrite Hst1, take_app_le by (rewrite length_take; lia).
      rewrite take_take. f_equal. lia.
Qed.

Lemma normalize_length ups count : length (normalize ups count) = count.
Proof.
  unfold normalize. rewrite length_app, length_replicate, length_take. lia.
Qed.

Lemma length_patchStore doc ups :
  length (patchStore doc ups) = length (tTexts doc).
Proof. unfold patchStore. apply length_foldl_patchParagraph. Qed.

Lemma extractParagraphs_fill doc store :
  length store = length (tTexts doc) ->
  extractParagraphs (fill doc store)
  = map (fun p => concat (tNodes p store)) (pNodes 0 doc).
Proof.
  intros Hlen. unfold extractParagraphs.
  rewrite <- (map_map tTexts (@concat N)).
  rewrite <- (drop_0 store) at 1.
  rewrite pElements_pNodes by (simpl; lia).
  by rewrite map_map.
Qed.

(** The paragraphs read back from a patched flat document. *)
Lemma extract_patch_flat doc ups :
  flat doc = true ->
  Forall (fun p => tTexts p <> []) (pElements doc) ->
  extractParagraphs (patchParagraphs doc ups)
  = normalize ups (length (pElements doc)).
Proof.
  intros Hflat Hall. unfold patchParagraphs.
  rewrite extractParagraphs_fill by apply length_patchStore.
  unfold patchStore. rewrite (length_pNodes doc 0).
  apply (patch_chain (pNodes 0 doc) _ 0).
  - apply (chain_pNodes doc 0 Hflat).
  - by rewrite normalize_length, length_pNodes.
  - apply Forall_fmap with (f := snd) (P := fun n => 0 < n).
    rewrite <- (pElements_sizes doc 0). apply Forall_fmap.
    eapply Forall_impl; [exact Hall|]. intros p Hp. simpl in *.
    destruct (tTexts p); [done|simpl; lia].
Qed.

Lemma shape_eq_noT a : forall b, shape a = shape b -> tTexts b = [] -> a = b.
Proof.
  assert (Hl : forall ns,
            Forall (fun a => forall b, shape a = shape b -> tTexts b = [] -> a = b) ns ->
            forall ms, map shape ns = map shape ms -> tTexts_list ms = [] -> ns = ms).
  { induction 1 as [|c r Hc _ IH]; intros [|c' r'] Hs Ht; try done.
    cbn [map] in Hs. injection Hs as Hs1 Hs2.
    cbn [tTexts_list] in Ht. apply app_eq_nil in Ht as [Ht1 Ht2].
    f_equal; auto. }
  induction a as [s|kids IH|kids IH] using node_ind; intros [s'|kids'|kids'] Hs Ht;
    try discriminate.
  - injection Hs as Hs. f_equal. by apply (Hl kids IH).
  - injection Hs as Hs. f_equal. by apply (Hl kids IH).
Qed.

Lemma normalize_take ups count :
  normalize (take count ups) count = normalize ups count.
Proof. unfold normalize. by rewrite take_idemp. Qed.

(** C3. The patched document has the elements of the original one, [w:p]
    and [w:t] included, in the same places; only the text of [w:t] elements
    differs. A paragraph without [w:t] is the same element as before, and
    the entries of the list after the number of paragraphs play no part. *)
Theorem patch_preserves_structure {archive : Type}
    (load : archive -> option node) (save : archive -> node -> archive)
    (original : archive) (doc : node) (updatedParagraphs : list jsstring) :
  load original = Some doc ->
  exists doc',
    patchDocxWithParagraphs load save original updatedParagraphs
      = Some (save original doc')
    /\ shape doc' = shape doc
    /\ length (pElements doc') = length (pElements doc)
    /\ length (tTexts doc') = length (tTexts doc)
    /\ (forall i p, pElements doc !! i = Some p -> tTexts p = [] ->
                    pElements doc' !! i = Some p)
    /\ patchDocxWithParagraphs load save original
         (take (length (pElements doc)) updatedParagraphs)
       = Some (save original doc').
Proof.
  intros Hload. exists (patchParagraphs doc updatedParagraphs).
  unfold patchDocxWithParagraphs. rewrite Hload. cbn [mbind option_bind].
  assert (Hshape : shape (patchParagraphs doc updatedParagraphs) = shape doc)
    by apply shape_fill.
  assert (Hps : map shape (pElements (patchParagraphs doc updatedParagraphs))
                = map shape (pElements doc))
    by (by rewrite <- !pElements_shape, Hshape).
  repeat split; try done.
  - apply (f_equal length) in Hps. by rewrite !length_map in Hps.
  - by rewrite <- length_tTexts_shape, Hshape, length_tTexts_shape.
  - intros i p Hi Hp.
    apply (f_equal (fun l => l !! i)) in Hps.
    change (map shape) with (fmap (M := list) shape) in Hps.
    rewrite !list_lookup_fmap, Hi in Hps.
    destruct (pElements (patchParagraphs doc updatedParagraphs) !! i) as [p'|];
      [|discriminate].
    injection Hps as Hps. f_equal. by apply shape_eq_noT.
  - do 2 f_equal. unfold patchParagraphs, patchStore. cbv zeta.
    by rewrite <- (length_pNodes doc 0), normalize_take.
Qed.

Lemma patch_preserves_structure_witness :
  exists doc',
    patchDocxWithParagraphs Some (fun _ d => d) three_paragraphs
      [js "Senior engineer"; js "Ottawa"; js "x"; js "y"] = Some doc'
    /\ shape doc' = shape three_paragraphs
    /\ length (pElements doc') = length (pElements three_paragraphs)
    /\ length (tTexts doc') = length (tTexts three_paragraphs)
    /\ (forall i p, pElements three_paragraphs !! i = Some p -> tTexts p = [] ->
                    pElements doc' !! i = Some p)
    /\ patchDocxWithParagraphs Some (fun _ d => d) three_paragraphs
         (take (length (pElements three_paragraphs))
            [js "Senior engineer"; js "Ottawa"; js "x"; js "y"])
       = Some doc'.
Proof.
  exact (patch_preserves_structure Some (fun _ d => d) three_paragraphs
           three_paragraphs [js "Senior engineer"; js "Ottawa"; js "x"; js "y"]
           eq_refl).
Defined.





End Docx.

(** ** JavaScript numbers

    A number is an IEEE 754 binary64 value: [spec_float] with 53 bits of
    precision, and the operations of the Standard Library's specification
    of floating-point arithmetic (round to nearest, ties to even). *)
Module Num.

Abbreviation number := spec_float.

Definition prec : Z := 53.
Definition emax : Z := 1024.

(** The numbers that are binary64 values. *)
Definition is_double (x : number) : Prop := valid_binary prec emax x = true.

Definition of_Z (z : Z) : number := binary_normalize prec emax z 0 false.
Definition NaN : number := S754_nan.

Definition add : number -> number -> number := SFadd prec emax.
Definition mul : number -> number -> number := SFmul prec emax.
Definition div : number -> number -> number := SFdiv prec emax.
Definition sub : number -> number -> number := SFsub prec emax.

(** [a === b], [a >= b] on numbers. *)
Definition strict_eq (a b : number) : bool := SFeqb a b.
Definition ge (a b : number) : bool := SFleb b a.

Definition Number_isFinite (x : number) : bool :=
  match x with
  | S754_zero _ | S754_finite _ _ _ => true
  | S754_infinity _ | S754_nan => false
  end.

(** [Math.max] and [Math.min] of two numbers: NaN if one of them is, and
    +0 counts as larger than -0. *)
Definition Math_max (a b : number) : number :=
  match SFcompare a b with
  | None => NaN
  | Some Lt => b
  | Some Gt => a
  | Some Eq => match a with S754_zero true => b | _ => a end
  end.

Definition Math_min (a b : number) : number :=
  match SFcompare a b with
  | None => NaN
  | Some Lt => a
  | Some Gt => b
  | Some Eq => match a with S754_zero false => b | _ => a end
  end.

(** The integer [floor(x + 1/2)] of the finite number [(-1)^s * m * 2^e],
    computed exactly. *)
Definition round_half_up (s : bool) (m : positive) (e : Z) : Z :=
  let v := if s then Z.neg m else Z.pos m in
  if 0 <=? e then v * 2 ^ e else (2 * v + 2 ^ (- e)) / 2 ^ (1 - e).

(** [Math.round]: the nearest integer, a tie going up; NaN, the infinities
    and the zeros are returned as they are, and a negative number that
    rounds to zero gives -0. *)
Definition Math_round (x : number) : number :=
  match x with
  | S754_finite s m e =>
      let r := round_half_up s m e in
      if r =? 0 then S754_zero s else of_Z r
  | _ => x
  end.

Example round_2_5 : Math_round (div (of_Z 5) (of_Z 2)) = of_Z 3.
Proof. reflexivity. Qed.

Example round_minus_2_5 : Math_round (div (of_Z (-5)) (of_Z 2)) = of_Z (-2).
Proof. reflexivity. Qed.

Example round_minus_quarter :
  Math_round (div (of_Z (-1)) (of_Z 4)) = S754_zero true.
Proof. reflexivity. Qed.

End Num.

(** ** Keyword overlap and the fit score (src/src/popup/utils/download.ts) *)
Module Score.

Import Num.

(** [const clamp = (n, min, max) => Math.max(min, Math.min(max, n))] *)
Definition clamp (n min max : number) : number := Math_max min (Math_min max n).

Definition stopwords : gset jsstring :=
  list_to_set (map js
    ["a"; "an"; "and"; "are"; "as"; "at"; "be"; "but"; "by"; "for"; "from";
     "has"; "have"; "if"; "in"; "into"; "is"; "it"; "its"; "of"; "on"; "or";
     "our"; "s"; "such"; "t"; "that"; "the"; "their"; "then"; "there";
     "these"; "they"; "this"; "to"; "was"; "we"; "were"; "will"; "with";
     "you"; "your"]%string).

(** [a-z0-9] *)
Definition is_alnum (c : N) : bool :=
  ((97 <=? c) && (c <=? 122) || (48 <=? c) && (c <=? 57))%N.

(** [\s] of a regular expression: the white space and line terminator code
    units of ECMAScript. *)
Definition is_space (c : N) : bool :=
  ((9 <=? c) && (c <=? 13) || (c =? 32) || (c =? 160) || (c =? 5760)
   || (8192 <=? c) && (c <=? 8202) || (c =? 8232) || (c =? 8233)
   || (c =? 8239) || (c =? 8287) || (c =? 12288) || (c =? 65279))%N.

(** [.split(/\s+/)]: the pieces between the runs of white space; a string
    that starts or ends with white space gives an empty first or last piece,
    and the empty string gives one empty piece. [cur] is the piece being
    read, [gap] tells that the last code unit was white space. *)
Fixpoint split_spaces_from (cur : jsstring) (gap : bool) (s : jsstring)
  : list jsstring :=
  match s with
  | [] => [cur]
  | c :: r =>
      if is_space c
      then (if gap then split_spaces_from [] true r
            else cur :: split_spaces_from [] true r)
      else split_spaces_from (cur ++ [c]) false r
  end.

Definition split_spaces (s : jsstring) : list jsstring :=
  split_spaces_from [] false s.

(** A [Map<string, number>]: the keys in the order of their first [set]. *)
Fixpoint map_get (m : list (jsstring * Z)) (w : jsstring) : option Z :=
  match m with
  | [] => None
  | (k, v) :: r => if decide (k = w) then Some v else map_get r w
  end.

Fixpoint map_set (m : list (jsstring * Z)) (w : jsstring) (v : Z)
  : list (jsstring * Z) :=
  match m with
  | [] => [(w, v)]
  | (k, v0) :: r => if decide (k = w) then (k, v) :: r else (k, v0) :: map_set r w v
  end.

(** [Array.prototype.sort] with a comparison function, which is stable.
    The list is sorted from its end; [x], which stood before everything in
    [l], goes before the first [y] that [cmp] does not put before it. *)
Fixpoint sort_insert {A} (cmp : A -> A -> Z) (x : A) (l : list A) : list A :=
  match l with
  | [] => [x]
  | y :: r => if cmp x y <=? 0 then x :: y :: r else y :: sort_insert cmp x r
  end.

Definition sort {A} (cmp : A -> A -> Z) (l : list A) : list A :=
  foldr (sort_insert cmp) [] l.

Section Tokens.

(** [String.prototype.toLowerCase], the engine's Unicode case mapping. *)
Variable toLowerCase : jsstring -> jsstring.

Definition tokenize (text : jsstring) : list jsstring :=
  let lowered := toLowerCase text in
  let replaced := map (fun c => if is_alnum c || is_space c then c else 32%N) lowered in
  let pieces := split_spaces replaced in
  let words := filter (fun w => w <> []) pieces in
  let long := filter (fun w => (3 <= length w)%nat) words in
  filter (fun w => w ∉ stopwords) long.

(** The first forty job terms by frequency. *)
Definition topJobTerms (jobWords : list jsstring) : list jsstring :=
  let freq := foldl (fun m w => map_set m w (default 0 (map_get m w) + 1)) [] jobWords in
  let sorted := sort (fun a b => b.2 - a.2) freq in
  map fst (take 40 sorted).

Definition count_hits (resumeSet : gset jsstring) (terms : list jsstring) : Z :=
  foldl (fun hit w => if decide (w ∈ resumeSet) then hit + 1 else hit) 0 terms.

Definition computeHeuristicScore (resumeText jobText : jsstring) : number :=
  let jobWords := tokenize jobText in
  let resumeWords := tokenize resumeText in
  match jobWords, resumeWords with
  | [], _ | _, [] => of_Z 0
  | _, _ =>
      let terms := topJobTerms jobWords in
      let resumeSet : gset jsstring := list_to_set resumeWords in
      let hit := count_hits resumeSet terms in
      let ratio := div (of_Z hit)
                       (Math_max (of_Z 1) (of_Z (Z.of_nat (length terms)))) in
      Math_round (clamp (add (of_Z 15) (mul ratio (of_Z 85))) (of_Z 0) (of_Z 100))
  end.

(** The arithmetic of [analyzeMatch] once [aiScore] is a number: the score
    stored in the result and the flag given to [setUsedHeuristic]. The
    conversion [Number(data?.score)] that gives [aiScore] is in
    [Analyze.analyzeMatch]. *)
Definition analyzeMatch_score (aiScore : number) (resumeText jobText : jsstring)
  : number * bool :=
  let safeScore := if Number_isFinite aiScore then clamp aiScore (of_Z 0) (of_Z 100)
                   else NaN in
  let heuristic := computeHeuristicScore resumeText jobText in
  let shouldFallback :=
    negb (Number_isFinite safeScore)
    || (strict_eq safeScore (of_Z 0) && ge heuristic (of_Z 20)) in
  let finalScore := if shouldFallback then heuristic else safeScore in
  (Math_round finalScore, shouldFallback).

End Tokens.

(** Case mapping restricted to the letters A-Z, for the examples. *)
Definition ascii_lower (s : jsstring) : jsstring :=
  map (fun c => if (65 <=? c) && (c <=? 90) then c + 32 else c)%N s.

Example tokenize_example :
  tokenize ascii_lower (js " We need a Senior C++/Python developer, and SQL!")
  = [js "need"; js "senior"; js "python"; js "developer"; js "sql"].
Proof. vm_compute. reflexivity. Qed.

Example score_example :
  computeHeuristicScore ascii_lower (js "Python developer with SQL")
    (js "Senior Python developer; Python and Java")
  = of_Z 58.
Proof. vm_compute. reflexivity. Qed.

Example score_no_overlap :
  computeHeuristicScore ascii_lower (js "Truck driver") (js "Senior Python developer")
  = of_Z 15.
Proof. vm_compute. reflexivity. Qed.

Example score_empty :
  computeHeuristicScore ascii_lower (js "Truck driver") (js "to be or ...") = of_Z 0.
Proof. vm_compute. reflexivity. Qed.

(** *** The range of the heuristic score *)

#[local] Instance spec_float_eq_dec : EqDecision spec_float.
Proof. solve_decision. Defined.

(** The score curve as a function of the two counts it depends on. *)
Definition score_curve (hit len : Z) : number :=
  let ratio := div (of_Z hit) (Math_max (of_Z 1) (of_Z len)) in
  Math_round (clamp (add (of_Z 15) (mul ratio (of_Z 85))) (of_Z 0) (of_Z 100)).

Definition integer_between (lo : Z) (n : nat) (x : number) : bool :=
  bool_decide (x ∈ map of_Z (seqZ lo (Z.of_nat n))).

Lemma integer_between_spec lo n x :
  integer_between lo n x = true ->
  exists z, x = of_Z z /\ lo <= z < lo + Z.of_nat n.
Proof.
  unfold integer_between. intros H. apply bool_decide_eq_true in H.
  change (map of_Z) with (fmap (M := list) of_Z) in H.
  apply list_elem_of_fmap in H as (z & -> & Hz).
  apply elem_of_seqZ in Hz. eauto.
Qed.

(** A check of every pair of counts [hit <= len], [len] from 1 to [n]. *)
Definition table (f : nat -> nat -> bool) (n : nat) : bool :=
  forallb (fun len => forallb (fun hit => f hit len) (seq 0 (S len))) (seq 1 n).

Definition curve_ok (hit len : nat) : bool :=
  integer_between 15 86 (score_curve (Z.of_nat hit) (Z.of_nat len)).

Lemma score_curve_table : table curve_ok 40 = true.
Proof. vm_compute. reflexivity. Qed.

Lemma table_lookup (f : nat -> nat -> bool) (n : nat) :
  table f n = true ->
  forall len hit, (1 <= len <= n)%nat -> (hit <= len)%nat -> f hit len = true.
Proof.
  unfold table. intros Htable len hit Hlen Hhit.
  rewrite forallb_forall in Htable.
  specialize (Htable len ltac:(apply in_seq; lia)).
  rewrite forallb_forall in Htable.
  apply Htable, in_seq. lia.
Qed.

Lemma score_curve_bounds hit len :
  1 <= len <= 40 -> 0 <= hit <= len ->
  exists z, score_curve hit len = of_Z z /\ 15 <= z <= 100.
Proof.
  intros Hlen Hhit.
  pose proof (table_lookup curve_ok 40 score_curve_table
                (Z.to_nat len) (Z.to_nat hit) ltac:(lia) ltac:(lia)) as H.
  unfold curve_ok in H. rewrite !Z2Nat.id in H by lia.
  apply integer_between_spec in H as (z & Hz & Hr).
  exists z. split; [done|lia].
Qed.

Lemma length_sort_insert {A} (cmp : A -> A -> Z) x l :
  length (sort_insert cmp x l) = S (length l).
Proof.
  induction l as [|y r IH]; [done|]. cbn [sort_insert].
  destruct (_ <=? _); cbn [length]; by rewrite ?IH.
Qed.

Lemma length_sort {A} (cmp : A -> A -> Z) l : length (sort cmp l) = length l.
Proof.
  induction l as [|x r IH]; [done|]. unfold sort in *. cbn [foldr].
  by rewrite length_sort_insert, IH.
Qed.

Lemma length_map_set m w v : (length m <= length (map_set m w v))%nat
                             /\ (1 <= length (map_set m w v))%nat.
Proof.
  induction m as [|[k v0] r IH]; [simpl; lia|]. cbn [map_set].
  destruct (decide (k = w)); cbn [length]; lia.
Qed.

Lemma length_freq (f : list (jsstring * Z) -> jsstring -> Z) ws : forall m,
  (length m <= length (foldl (fun m w => map_set m w (f m w)) m ws))%nat.
Proof.
  induction ws as [|w ws IH]; intros m; [done|]. cbn [foldl].
  etrans; [|apply IH]. apply length_map_set.
Qed.

Lemma length_topJobTerms jobWords :
  jobWords <> [] -> (1 <= length (topJobTerms jobWords) <= 40)%nat.
Proof.
  intros Hne. unfold topJobTerms. cbv zeta.
  rewrite length_map, length_take, length_sort.
  destruct jobWords as [|w ws]; [done|]. cbn [foldl].
  pose proof (length_freq (fun m w => default 0 (map_get m w) + 1) ws
                (map_set [] w (default 0 (map_get [] w) + 1))) as H.
  pose proof (length_map_set [] w (default 0 (map_get [] w) + 1)) as [_ H1].
  lia.
Qed.

Lemma count_hits_bounds resumeSet terms :
  0 <= count_hits resumeSet terms <= Z.of_nat (length terms).
Proof.
  unfold count_hits.
  assert (H : forall acc,
            acc <= foldl (fun hit w => if decide (w ∈ resumeSet) then hit + 1 else hit)
                     acc terms <= acc + Z.of_nat (length terms)).
  { induction terms as [|w r IH]; intros acc; [simpl; lia|].
    cbn [foldl length]. destruct (decide (w ∈ resumeSet)).
    - specialize (IH (acc + 1)). lia.
    - specialize (IH acc). lia. }
  specialize (H 0). lia.
Qed.

Lemma computeHeuristicScore_cases (toLowerCase : jsstring -> jsstring)
    (resumeText jobText : jsstring) :
  match tokenize toLowerCase jobText, tokenize toLowerCase resumeText with
  | [], _ | _, [] => computeHeuristicScore toLowerCase resumeText jobText = of_Z 0
  | _, _ => exists z, computeHeuristicScore toLowerCase resumeText jobText = of_Z z
                      /\ 15 <= z <= 100
  end.
Proof.
  unfold computeHeuristicScore. cbv zeta.
  destruct (tokenize toLowerCase jobText) as [|jw jws] eqn:Hj; [done|].
  destruct (tokenize toLowerCase resumeText) as [|rw rws] eqn:Hr; [done|].
  apply score_curve_bounds.
  - pose proof (length_topJobTerms (jw :: jws) ltac:(done)). lia.
  - apply count_hits_bounds.
Qed.

(** C10. With no word left in the job text or in the resume text the score
    is 0; otherwise it is an integer from 15 to 100. *)
Theorem computeHeuristicScore_range (toLowerCase : jsstring -> jsstring)
    (resumeText jobText : jsstring) :
  (tokenize toLowerCase jobText = [] \/ tokenize toLowerCase resumeText = [] ->
   computeHeuristicScore toLowerCase resumeText jobText = of_Z 0)
  /\ (tokenize toLowerCase jobText <> [] ->
      tokenize toLowerCase resumeText <> [] ->
      exists z, computeHeuristicScore toLowerCase resumeText jobText = of_Z z
                /\ 15 <= z <= 100).
Proof.
  pose proof (computeHeuristicScore_cases toLowerCase resumeText jobText) as H.
  destruct (tokenize toLowerCase jobText) as [|jw jws];
    [split; [done|by intros ?]|].
  destruct (tokenize toLowerCase resumeText) as [|rw rws];
    [split; [done|by intros _ ?]|].
  split; [by intros [?|?]|done].
Qed.

Lemma computeHeuristicScore_range_witness :
  exists z, computeHeuristicScore ascii_lower (js "Python developer with SQL")
              (js "Senior Python developer; Python and Java") = of_Z z
            /\ 15 <= z <= 100.
Proof.
  apply (computeHeuristicScore_range ascii_lower (js "Python developer with SQL")
           (js "Senior Python developer; Python and Java"));
    vm_compute; discriminate.
Defined.

(** *** The score of analyzeMatch *)

Lemma digits2_pos_bound (m : positive) : Z.pos m < 2 ^ Z.pos (digits2_pos m).
Proof.
  induction m as [m IH|m IH|]; cbn [digits2_pos]; [| |done];
    rewrite Pos2Z.inj_succ, Z.pow_succ_r by lia; lia.
Qed.

Lemma is_double_mantissa s m e :
  is_double (S754_finite s m e) -> Z.pos m < 2 ^ 53.
Proof.
  unfold is_double, valid_binary, bounded, canonical_mantissa, fexp, prec.
  intros H. apply andb_true_iff in H as [H _]. apply Z.eqb_eq in H.
  pose proof (digits2_pos_bound m) as Hm.
  eapply Z.lt_le_trans; [exact Hm|].
  apply Z.pow_le_mono_r; lia.
Qed.

Definition rounds_to_itself (z : Z) : bool :=
  bool_decide (Math_round (of_Z z) = of_Z z).

Lemma round_table : forallb rounds_to_itself (map Z.of_nat (seq 0 101)) = true.
Proof. vm_compute. reflexivity. Qed.

Lemma Math_round_integer z : 0 <= z <= 100 -> Math_round (of_Z z) = of_Z z.
Proof.
  intros Hz.
  pose proof (proj1 (forallb_forall _ _) round_table z) as Hall.
  unfold rounds_to_itself in Hall.
  eapply bool_decide_eq_true_1, Hall, in_map_iff.
  exists (Z.to_nat z). split; [lia|]. apply in_seq. lia.
Qed.

Lemma of_Z_0 : of_Z 0 = S754_zero false.
Proof. reflexivity. Qed.

Lemma of_Z_100 : of_Z 100 = S754_finite false 7036874417766400 (-46).
Proof. reflexivity. Qed.

Lemma SFcompare_positive m1 e1 m2 e2 :
  SFcompare (S754_finite false m1 e1) (S754_finite false m2 e2)
  = Some match e1 ?= e2 with
         | Lt => Lt
         | Gt => Gt
         | Eq => (m1 ?= m2)%positive
         end.
Proof. reflexivity. Qed.

(** A number clamped to [0, 100] is +0, 100 or a positive number below 100
    that the clamp left alone. *)
Lemma clamp_0_100 (x : number) :
  Number_isFinite x = true ->
  clamp x (of_Z 0) (of_Z 100) = of_Z 0
  \/ clamp x (of_Z 0) (of_Z 100) = of_Z 100
  \/ exists m e, x = S754_finite false m e
                 /\ clamp x (of_Z 0) (of_Z 100) = x
                 /\ (e < -46 \/ e = -46 /\ Z.pos m < 7036874417766400).
Proof.
  intros Hfin. rewrite of_Z_0, of_Z_100.
  destruct x as [[|]|[|]| |[|] m e]; try discriminate; try (left; reflexivity).
  unfold clamp, Math_min. rewrite SFcompare_positive.
  destruct (Z.compare_spec (-46) e) as [He|He|He];
    [destruct (Pos.compare_spec 7036874417766400 m) as [Hm|Hm|Hm]| |].
  - right; left; reflexivity.
  - right; left; reflexivity.
  - right; right. exists m, e. split; [done|]. split; [reflexivity|].
    right. split; [by symmetry|exact Hm].
  - right; left; reflexivity.
  - right; right. exists m, e. split; [done|]. split; [reflexivity|].
    left. exact He.
Qed.

Lemma round_below_100 m e :
  Z.pos m < 2 ^ 53 ->
  e < -46 \/ e = -46 /\ Z.pos m < 7036874417766400 ->
  0 <= round_half_up false m e <= 100.
Proof.
  intros Hm He. unfold round_half_up.
  destruct (Z.leb_spec 0 e) as [?|_]; [lia|].
  replace (1 - e) with (Z.succ (- e)) by lia. rewrite Z.pow_succ_r by lia.
  assert (Hp : 2 ^ 46 <= 2 ^ (- e)) by (apply Z.pow_le_mono_r; lia).
  assert (Hq : e < -46 -> 2 ^ 47 <= 2 ^ (- e)) by (intros; apply Z.pow_le_mono_r; lia).
  set (p := 2 ^ (- e)) in *.
  change (2 ^ 46) with 70368744177664 in Hp.
  change (2 ^ 47) with 140737488355328 in Hq.
  change (2 ^ 53) with 9007199254740992 in Hm.
  clearbody p. split.
  - apply Z.div_pos; lia.
  - apply Z.lt_succ_r, Z.div_lt_upper_bound; lia.
Qed.

Lemma fallback_zero_cases (h : number) :
  negb (Number_isFinite (of_Z 0)) || strict_eq (of_Z 0) (of_Z 0) && ge h (of_Z 20)
  = ge h (of_Z 20).
Proof. reflexivity. Qed.

(** For every number [aiScore], the score of the result is an integer from
    0 to 100; when that number is not finite, or is 0 while the heuristic
    score is at least 20, the result is the heuristic score. *)
Theorem analyzeMatch_score_range (toLowerCase : jsstring -> jsstring)
    (aiScore : number) (resumeText jobText : jsstring) :
  is_double aiScore ->
  let heuristic := computeHeuristicScore toLowerCase resumeText jobText in
  let result := analyzeMatch_score toLowerCase aiScore resumeText jobText in
  (exists z, result.1 = of_Z z /\ 0 <= z <= 100)
  /\ (Number_isFinite aiScore = false
      \/ strict_eq aiScore (of_Z 0) = true /\ ge heuristic (of_Z 20) = true ->
      result = (heuristic, true)).
Proof.
  intros Hd heuristic result.
  assert (Hh : exists z, heuristic = of_Z z /\ 0 <= z <= 100).
  { pose proof (computeHeuristicScore_cases toLowerCase resumeText jobText) as H.
    fold heuristic in H.
    destruct (tokenize toLowerCase jobText); [exists 0; split; [done|lia]|].
    destruct (tokenize toLowerCase resumeText); [exists 0; split; [done|lia]|].
    destruct H as (z & Hz & Hr). exists z. split; [done|lia]. }
  destruct Hh as (zh & Hzh & Hrh).
  assert (Hround : Math_round heuristic = heuristic)
    by (rewrite Hzh; by apply Math_round_integer).
  subst result. unfold analyzeMatch_score. cbv zeta. fold heuristic.
  destruct (Number_isFinite aiScore) eqn:Hfin; cycle 1.
  { cbn [Number_isFinite NaN negb orb fst]. rewrite Hround.
    split; [by exists zh|done]. }
  destruct (clamp_0_100 aiScore Hfin) as [Hc|[Hc|(m & e & Hx & Hc & Hlt)]];
    rewrite Hc.
  - rewrite fallback_zero_cases. destruct (ge heuristic (of_Z 20)) eqn:Hge.
    + cbn [fst]. rewrite Hround. split; [by exists zh|done].
    + cbn [fst]. split; [exists 0; split; [reflexivity|lia]|].
      intros [H|[_ H]]; discriminate.
  - change (negb (Number_isFinite (of_Z 100))
            || strict_eq (of_Z 100) (of_Z 0) && ge heuristic (of_Z 20))
      with false.
    cbn [fst]. split; [exists 100; split; [reflexivity|lia]|].
    intros [H|[H _]]; [discriminate|].
    destruct aiScore as [[|]|[|]| |[|] m e]; try discriminate.
    all: exfalso; revert Hc; unfold clamp; rewrite of_Z_0, of_Z_100;
      cbn; discriminate.
  - subst aiScore.
    change (negb (Number_isFinite (S754_finite false m e))
            || strict_eq (S754_finite false m e) (of_Z 0) && ge heuristic (of_Z 20))
      with false.
    cbn [fst]. split; [|intros [H|[H _]]; discriminate].
    pose proof (round_below_100 m e (is_double_mantissa _ _ _ Hd) Hlt) as Hr.
    unfold Math_round. cbv zeta.
    destruct (Z.eqb_spec (round_half_up false m e) 0) as [H0|H0].
    + exists 0. split; [reflexivity|lia].
    + by exists (round_half_up false m e).
Qed.

Lemma analyzeMatch_score_range_witness :
  (exists z, (analyzeMatch_score ascii_lower (of_Z 0) (js "Python developer with SQL")
                (js "Senior Python developer; Python and Java")).1 = of_Z z
             /\ 0 <= z <= 100)
  /\ analyzeMatch_score ascii_lower (of_Z 0) (js "Python developer with SQL")
       (js "Senior Python developer; Python and Java")
     = (of_Z 58, true).
Proof.
  destruct (analyzeMatch_score_range ascii_lower (of_Z 0)
              (js "Python developer with SQL")
              (js "Senior Python developer; Python and Java") eq_refl) as [H1 H2].
  split; [exact H1|].
  rewrite H2; [vm_compute; reflexivity|].
  right. split; vm_compute; reflexivity.
Defined.

End Score.

(** ** Computations that return or throw

    [async] code that reads and writes a state [S] and may throw an [E];
    what was written before a throw stays written. *)
Module Effect.

Inductive outcome (E A : Type) :=
  | Return (a : A)
  | Throw (e : E).
Arguments Return {E A} a.
Arguments Throw {E A} e.

Section Eff.

Context {E S : Type}.

Definition eff (A : Type) : Type := S -> outcome E A * S.

Definition ret {A} (a : A) : eff A := fun s => (Return a, s).
Definition throw {A} (e : E) : eff A := fun s => (Throw e, s).
Definition bind {A B} (m : eff A) (k : A -> eff B) : eff B :=
  fun s => match m s with
           | (Return a, s') => k a s'
           | (Throw e, s') => (Throw e, s')
           end.
(** [try { m } catch (e) { h e }] *)
Definition try_catch {A} (m : eff A) (h : E -> eff A) : eff A :=
  fun s => match m s with
           | (Return a, s') => (Return a, s')
           | (Throw e, s') => h e s'
           end.

(** [for (const x of xs) await f(x)] *)
Fixpoint for_each {A} (f : A -> eff unit) (xs : list A) : eff unit :=
  match xs with
  | [] => ret tt
  | x :: r => bind (f x) (fun _ => for_each f r)
  end.

End Eff.

Arguments eff : clear implicits.

Notation "'let!' x := m 'in' k" := (bind m (fun x => k))
  (at level 10, x name, m at level 200, k at level 200).
Notation "m ;; k" := (bind m (fun _ => k))
  (at level 100, right associativity).

End Effect.

(** ** Local storage and cloud sync

    [StorageManager] (src/unnamed/part_001), the job handler of the
    background worker (src/src/background/background.ts), the operations of
    src/src/firebase/sync.ts and [saveGeneratedContent] of the popup. *)
Module Storage.

Import Num Effect.

Local Open Scope nat_scope.

(** *** The records of src/src/types/index.ts

    An optional property is an [option]; a number is a double. *)
Module Resume.
Record t := mk {
  id : jsstring;
  name : jsstring;
  content : jsstring;
  parsedText : jsstring;
  uploadDate : number;
  isDefault : bool;
  originalFileUrl : option jsstring;
  originalFileProvider : option jsstring;
  originalFilePublicId : option jsstring;
  originalFileMimeType : option jsstring;
  originalFileName : option jsstring;
}.

(** [r.isDefault = b] *)
Definition set_isDefault (b : bool) (r : t) : t :=
  mk (id r) (name r) (content r) (parsedText r) (uploadDate r) b
     (originalFileUrl r) (originalFileProvider r) (originalFilePublicId r)
     (originalFileMimeType r) (originalFileName r).

(** [r.content = c] *)
Definition set_content (c : jsstring) (r : t) : t :=
  mk (id r) (name r) c (parsedText r) (uploadDate r) (isDefault r)
     (originalFileUrl r) (originalFileProvider r) (originalFilePublicId r)
     (originalFileMimeType r) (originalFileName r).
End Resume.

Module JobPosting.
Record t := mk {
  id : jsstring;
  title : jsstring;
  company : jsstring;
  description : jsstring;
  url : jsstring;
  extractedDate : number;
  location : option jsstring;
  salary : option jsstring;
  postedDate : option jsstring;
  platform : option jsstring;
}.
End JobPosting.

Module Application.
(** [status] is one of five strings by its type, and whatever string the
    cloud holds after a pull. *)
Record t := mk {
  id : jsstring;
  jobId : jsstring;
  resumeId : jsstring;
  coverLetterId : option jsstring;
  appliedDate : number;
  status : jsstring;
}.
End Application.

Module CoverLetter.
Record t := mk {
  id : jsstring;
  jobId : jsstring;
  content : jsstring;
  createdDate : number;
}.
End CoverLetter.

Module OptimizedResume.
(** [interface OptimizedResume extends Resume] *)
Record t := mk {
  resume : Resume.t;
  originalResumeId : jsstring;
  jobId : jsstring;
  modifications : list jsstring;
}.
Definition id (o : t) : jsstring := Resume.id (resume o).
Definition parsedText (o : t) : jsstring := Resume.parsedText (resume o).
Definition uploadDate (o : t) : number := Resume.uploadDate (resume o).
End OptimizedResume.

(** The [cloudSync] entry of the storage. *)
Record CloudSyncState := mkCloudSyncState {
  uid : option jsstring;
  enabled : option bool;
  lastPushAt : option number;
  lastPullAt : option number;
  lastError : option jsstring;
  lastErrorAt : option number;
}.

(** *** chrome.storage.local

    The entries the code reads and writes. An entry that is missing reads
    as the empty list ([|| []], [= []]), and is held as such. *)
Record local := mkLocal {
  resumes : list Resume.t;
  jobs : list JobPosting.t;
  applications : list Application.t;
  coverLetters : list CoverLetter.t;
  optimizedResumes : list OptimizedResume.t;
  cloudSync : CloudSyncState;
}.

Definition set_resumes (v : list Resume.t) (s : local) : local :=
  mkLocal v (jobs s) (applications s) (coverLetters s) (optimizedResumes s) (cloudSync s).
Definition set_jobs (v : list JobPosting.t) (s : local) : local :=
  mkLocal (resumes s) v (applications s) (coverLetters s) (optimizedResumes s) (cloudSync s).
Definition set_applications (v : list Application.t) (s : local) : local :=
  mkLocal (resumes s) (jobs s) v (coverLetters s) (optimizedResumes s) (cloudSync s).
Definition set_coverLetters (v : list CoverLetter.t) (s : local) : local :=
  mkLocal (resumes s) (jobs s) (applications s) v (optimizedResumes s) (cloudSync s).
Definition set_optimizedResumes (v : list OptimizedResume.t) (s : local) : local :=
  mkLocal (resumes s) (jobs s) (applications s) (coverLetters s) v (cloudSync s).
Definition set_cloudSync (v : CloudSyncState) (s : local) : local :=
  mkLocal (resumes s) (jobs s) (applications s) (coverLetters s) (optimizedResumes s) v.


(** *** StorageManager *)

(** [saveResume]: a default resume takes the flag from all the others. *)
Definition saveResume (resume : Resume.t) (s : local) : local :=
  let resumes0 := resumes s in
  let resumes1 := if Resume.isDefault resume
                  then map (Resume.set_isDefault false) resumes0
                  else resumes0 in
  set_resumes (resumes1 ++ [resume]) s.

Definition deleteResume (id : jsstring) (s : local) : local :=
  set_resumes (filter (fun r => Resume.id r <> id) (resumes s)) s.

(** [jobs.findIndex(j => j.url === job.url)], then replace or push. *)
Definition upsert_job_by_url (job : JobPosting.t) (jobs : list JobPosting.t)
  : list JobPosting.t :=
  match list_find (fun j => JobPosting.url j = JobPosting.url job) jobs with
  | Some (existingIndex, _) => <[existingIndex := job]> jobs
  | None => jobs ++ [job]
  end.

Definition saveJob (job : JobPosting.t) (s : local) : local :=
  set_jobs (upsert_job_by_url job (jobs s)) s.

(** *** The EXTRACT_JOB message of the background worker *)
Inductive response :=
  | Success (job : JobPosting.t)
  | Failure (error : jsstring).

Definition handleJobExtraction (job : JobPosting.t) (s : local) : local * response :=
  (set_jobs (upsert_job_by_url job (jobs s)) s, Success job).

(** *** Firestore and the Firebase configuration

    A document is a map from field names to values; the store maps the
    path of a document ([users/uid/resumes/id] as its segments) to it. *)
#[local] Unset Elimination Schemes.
Inductive jsval :=
  | VUndefined
  | VNull
  | VBool (b : bool)
  | VNum (n : number)
  | VStr (s : jsstring)
  | VArr (items : list jsval)
  | VTimestamp.
#[local] Set Elimination Schemes.

Abbreviation document := (gmap string jsval).
Abbreviation path := (list jsstring).

(** The state of the popup that [saveGeneratedContent] sets:
    [optimizedResume], [coverLetter], [applicationStatus], and the alerts
    shown so far. *)
Record GeneratedDocState := mkGenerated {
  g_id : jsstring;
  g_text : jsstring;
  g_createdAt : number;
}.

Record ui := mkUi {
  optimizedResume : option GeneratedDocState;
  coverLetter : option GeneratedDocState;
  applicationStatus : jsstring;
  alerts : list jsstring;
}.

Record world := mkWorld {
  storage : local;
  firestore : gmap path document;
  popup : ui;
}.

(** What the build and the session fix: [process.env], whether the SDK
    could be initialised ([initFirebaseIfEnabled] without [initError]), the
    uid of the signed-in user, and whether Firestore can be reached. *)
Record config := mkConfig {
  process_env : gmap string jsstring;
  sdk_ok : bool;
  currentUser : option jsstring;
  online : bool;
}.

(** A computation on the world; an exception is its message. *)
Abbreviation M := (eff jsstring world).

Definition get_storage : M local := fun w => (Return (storage w), w).
Definition put_storage (f : local -> local) : M unit :=
  fun w => (Return tt, mkWorld (f (storage w)) (firestore w) (popup w)).
Definition put_popup (f : ui -> ui) : M unit :=
  fun w => (Return tt, mkWorld (storage w) (firestore w) (f (popup w))).

(** [m.catch(console.warn)] *)
Definition catch_warn (m : M unit) : M unit := try_catch m (fun _ => ret tt).

(** [arr.findIndex(x => x.id === item.id)], then
    [arr[idx] = { ...arr[idx], ...item }] or [arr.push(item)]. Every
    property of the records is set in [item] (an optional one possibly to
    undefined), so the spread is [item]. *)
Definition upsertById {A} (id : A -> jsstring) (arr : list A) (item : A) : list A :=
  match list_find (fun x => id x = id item) arr with
  | Some (idx, _) => <[idx := item]> arr
  | None => arr ++ [item]
  end.

(** [resumes.find(r => r.isDefault)], then
    [resumes.forEach(r => (r.isDefault = r.id === cloudDefault.id))]. *)
Definition enforce_default (resumes : list Resume.t) : list Resume.t :=
  match list_find (fun r => Resume.isDefault r = true) resumes with
  | Some (_, cloudDefault) =>
      map (fun r => Resume.set_isDefault
                      (bool_decide (Resume.id r = Resume.id cloudDefault)) r)
          resumes
  | None => resumes
  end.

(** The sign of a number a comparison function returned; NaN counts as 0. *)
Definition number_sign (n : number) : Z :=
  match SFcompare n (of_Z 0) with
  | Some Lt => (-1)%Z
  | Some Gt => 1%Z
  | _ => 0%Z
  end.

(** Truthiness of a value, of a string, of an optional string. *)
Definition truthy (v : jsval) : bool :=
  match v with
  | VUndefined | VNull => false
  | VBool b => b
  | VNum n => match n with S754_zero _ | S754_nan => false | _ => true end
  | VStr s => bool_decide (s <> [])
  | VArr _ | VTimestamp => true
  end.

Definition nonempty (s : jsstring) : bool := bool_decide (s <> []).

Definition present (o : option jsstring) : bool :=
  match o with Some s => nonempty s | None => false end.

(** [x || null] on an optional string, as a field value. *)
Definition or_null (o : option jsstring) : jsval :=
  match o with
  | Some s => if nonempty s then VStr s else VNull
  | None => VNull
  end.

Definition field (d : document) (k : string) : jsval := default VUndefined (d !! k).

(** [v || d] *)
Definition or_else (v d : jsval) : jsval := if truthy v then v else d.

Section Sync.

(** The engine's [String.prototype.toLowerCase], [String(v)] and
    [Number(v)]. *)
Variable toLowerCase : jsstring -> jsstring.
Variable ToString : jsval -> jsstring.
Variable ToNumber : jsval -> number.

Variable cfg : config.

(** [Date.now()] during the operation. *)
Variable now : number.

(** [isFirebaseEnabled] of firebase.ts (it follows the types in
    src/src/types/index.ts). *)
Definition isFirebaseEnabled : bool :=
  let var := fun k => default [] (process_env cfg !! k) in
  let enabled := toLowerCase (if nonempty (var "FIREBASE_SYNC_ENABLED")
                              then var "FIREBASE_SYNC_ENABLED" else js "true") in
  if bool_decide (enabled = js "0" \/ enabled = js "false" \/ enabled = js "no")
  then false
  else nonempty (var "FIREBASE_API_KEY") && nonempty (var "FIREBASE_AUTH_DOMAIN")
       && nonempty (var "FIREBASE_PROJECT_ID") && nonempty (var "FIREBASE_APP_ID").

(** [getFirestore()] and [getFirebaseAuth()]: null unless Firebase is
    enabled and was initialised. *)
Definition getFirestore : bool := isFirebaseEnabled && sdk_ok cfg.
Definition getFirebaseAuth : bool := isFirebaseEnabled && sdk_ok cfg.

Definition not_configured : jsstring :=
  js "Firebase is not configured. Add Firebase env vars and rebuild.".

(** [setDoc(doc(firestore, ...path), data, { merge: true })],
    [deleteDoc], [getDocs(collection(firestore, ...path))]; a request
    fails when Firestore cannot be reached. *)
Definition setDoc (p : path) (data : document) : M unit :=
  fun w =>
    if online cfg
    then (Return tt,
          mkWorld (storage w)
                  (<[p := data ∪ default ∅ (firestore w !! p)]> (firestore w))
                  (popup w))
    else (Throw (js "unavailable"), w).

Definition deleteDoc (p : path) : M unit :=
  fun w =>
    if online cfg
    then (Return tt, mkWorld (storage w) (delete p (firestore w)) (popup w))
    else (Throw (js "unavailable"), w).

Definition in_collection (coll p : path) : bool :=
  bool_decide (length p = S (length coll) /\ take (length coll) p = coll).

Definition getDocs (coll : path) : M (list document) :=
  fun w =>
    if online cfg
    then (Return (map snd (filter (fun pd => in_collection coll pd.1 = true)
                                  (map_to_list (firestore w)))), w)
    else (Throw (js "unavailable"), w).

(** [{ ...prev, ...patch, enabled: isFirebaseEnabled() }]; [patch] is the
    effect of the patch on the entry. *)
Definition updateCloudSyncState (patch : CloudSyncState -> CloudSyncState) : M unit :=
  put_storage (fun s =>
    let next := patch (cloudSync s) in
    set_cloudSync (mkCloudSyncState (uid next) (Some isFirebaseEnabled)
                     (lastPushAt next) (lastPullAt next)
                     (lastError next) (lastErrorAt next)) s).

Definition patch_uid (u : jsstring) (c : CloudSyncState) : CloudSyncState :=
  mkCloudSyncState (Some u) (enabled c) (lastPushAt c) (lastPullAt c)
                   (lastError c) (lastErrorAt c).
(** [{ lastPushAt: Date.now(), lastError: undefined }] *)
Definition patch_pushed (c : CloudSyncState) : CloudSyncState :=
  mkCloudSyncState (uid c) (enabled c) (Some now) (lastPullAt c) None (lastErrorAt c).
(** [{ lastPullAt: Date.now(), lastError: undefined }] *)
Definition patch_pulled (c : CloudSyncState) : CloudSyncState :=
  mkCloudSyncState (uid c) (enabled c) (lastPushAt c) (Some now) None (lastErrorAt c).
(** [{ lastError: message, lastErrorAt: Date.now() }] *)
Definition patch_error (e : jsstring) (c : CloudSyncState) : CloudSyncState :=
  mkCloudSyncState (uid c) (enabled c) (lastPushAt c) (lastPullAt c) (Some e) (Some now).

Definition ensureUser : M jsstring :=
  if negb getFirebaseAuth then throw not_configured
  else match currentUser cfg with
       | None => throw (js "Cloud sync requires sign-in. Go to Settings "
                       ++ [8594]%N
                       ++ js " Cloud Sync Account and sign in (or tap Continue as guest) first.")
       | Some u =>
           if negb (nonempty u) then throw (js "Firebase auth failed")
           else updateCloudSyncState (patch_uid u) ;; ret u
       end.

Definition users (u : jsstring) (collection id : jsstring) : path :=
  [js "users"; u; collection; id].

Definition resume_fields (r : Resume.t) : list (string * jsval) :=
  [("id", VStr (Resume.id r)); ("name", VStr (Resume.name r));
   ("uploadDate", VNum (Resume.uploadDate r));
   ("isDefault", VBool (Resume.isDefault r));
   ("parsedText", VStr (Resume.parsedText r));
   ("originalFileUrl", or_null (Resume.originalFileUrl r));
   ("originalFileProvider", or_null (Resume.originalFileProvider r));
   ("originalFilePublicId", or_null (Resume.originalFilePublicId r));
   ("originalFileMimeType", or_null (Resume.originalFileMimeType r));
   ("originalFileName", or_null (Resume.originalFileName r));
   ("updatedAt", VTimestamp)]%string.

(** The five pushes have one body, up to the collection, the document and
    the message thrown without Firestore. *)
Definition push (message : jsstring) (collection id : jsstring) (data : document)
  : M unit :=
  if negb isFirebaseEnabled then ret tt
  else if negb getFirestore then throw message
  else let! u := ensureUser in
       setDoc (users u collection id) data ;;
       updateCloudSyncState patch_pushed.

Definition tryCloudSyncResume (resume : Resume.t) : M unit :=
  push not_configured (js "resumes") (Resume.id resume) (list_to_map (resume_fields resume)).

Definition tryCloudSyncOptimizedResume (optimized : OptimizedResume.t) : M unit :=
  push not_configured (js "optimizedResumes") (OptimizedResume.id optimized)
    (list_to_map
       (resume_fields (OptimizedResume.resume optimized)
        ++ [("originalResumeId", VStr (OptimizedResume.originalResumeId optimized));
            ("jobId", VStr (OptimizedResume.jobId optimized));
            ("modifications",
             VArr (map VStr (OptimizedResume.modifications optimized)))]%string)).

Definition tryCloudSyncCoverLetter (letter : CoverLetter.t) : M unit :=
  push not_configured (js "coverLetters") (CoverLetter.id letter)
    (list_to_map
       [("id", VStr (CoverLetter.id letter)); ("jobId", VStr (CoverLetter.jobId letter));
        ("content", VStr (CoverLetter.content letter));
        ("createdDate", VNum (CoverLetter.createdDate letter));
        ("updatedAt", VTimestamp)]%string).

Definition tryCloudSyncJob (job : JobPosting.t) : M unit :=
  push (js "Firebase is not configured.") (js "jobs") (JobPosting.id job)
    (list_to_map
       [("id", VStr (JobPosting.id job)); ("title", VStr (JobPosting.title job));
        ("company", VStr (JobPosting.company job));
        ("description", VStr (JobPosting.description job));
        ("url", VStr (JobPosting.url job));
        ("extractedDate", VNum (JobPosting.extractedDate job));
        ("location", or_null (JobPosting.location job));
        ("salary", or_null (JobPosting.salary job));
        ("postedDate", or_null (JobPosting.postedDate job));
        ("platform", or_null (JobPosting.platform job));
        ("updatedAt", VTimestamp)]%string).

Definition tryCloudSyncApplication (application : Application.t) : M unit :=
  push not_configured (js "applications") (Application.id application)
    (list_to_map
       [("id", VStr (Application.id application));
        ("jobId", VStr (Application.jobId application));
        ("resumeId", VStr (Application.resumeId application));
        ("coverLetterId", or_null (Application.coverLetterId application));
        ("appliedDate", VNum (Application.appliedDate application));
        ("status", VStr (Application.status application));
        ("updatedAt", VTimestamp)]%string).

(** The deletes return, and do not throw, without Firestore. *)
Definition cloud_delete (collection id : jsstring) : M unit :=
  if negb isFirebaseEnabled then ret tt
  else if negb getFirestore then ret tt
  else let! u := ensureUser in deleteDoc (users u collection id).

Definition tryCloudDeleteOptimizedResume (id : jsstring) : M unit :=
  cloud_delete (js "optimizedResumes") id.
Definition tryCloudDeleteCoverLetter (id : jsstring) : M unit :=
  cloud_delete (js "coverLetters") id.
Definition tryCloudDeleteApplication (id : jsstring) : M unit :=
  cloud_delete (js "applications") id.

(** **** tryCloudPullAllToLocal *)

(** [v ? String(v) : undefined] *)
Definition optional_string (v : jsval) : option jsstring :=
  if truthy v then Some (ToString v) else None.

Definition pulled_base (name0 : jsstring) (r : document) : Resume.t :=
  Resume.mk (ToString (field r "id"))
    (ToString (or_else (field r "name") (VStr name0)))
    []
    (ToString (or_else (field r "parsedText") (VStr [])))
    (ToNumber (or_else (field r "uploadDate") (VNum now)))
    (truthy (field r "isDefault"))
    (optional_string (field r "originalFileUrl"))
    (if truthy (field r "originalFileProvider") then Some (js "cloudinary") else None)
    (optional_string (field r "originalFilePublicId"))
    (optional_string (field r "originalFileMimeType"))
    (optional_string (field r "originalFileName")).

Definition pulled_resume : document -> Resume.t := pulled_base (js "Resume").

(** [typeof r.pdfChunkCount === 'number' ? r.pdfChunkCount : 0] *)
Definition pdfChunkCount (r : document) : number :=
  match field r "pdfChunkCount" with
  | VNum n => n
  | _ => of_Z 0
  end.

(** The content of a pulled resume: the local content if there is one,
    else the legacy chunks when there is no file URL; a failure to read the
    chunks leaves the content empty. *)
Definition hydrate (u : jsstring) (count : number) (existing : option Resume.t)
    (resume : Resume.t) : M Resume.t :=
  let local_content := match existing with
                       | Some x => Resume.content x
                       | None => []
                       end in
  if nonempty local_content then ret (Resume.set_content local_content resume)
  else if negb (present (Resume.originalFileUrl resume)) && SFltb (of_Z 0) count
  then try_catch
         (let! chunksSnap := getDocs (users u (js "resumes") (Resume.id resume)
                                      ++ [js "pdfChunks"]) in
          let chunks :=
            map (fun d => ToString (or_else (field d "chunk") (VStr [])))
                (Score.sort (fun a b => number_sign
                                          (sub (ToNumber (field a "i"))
                                               (ToNumber (field b "i"))))
                            chunksSnap) in
          ret (Resume.set_content (concat chunks) resume))
         (fun _ => ret resume)
  else ret resume.

Fixpoint pull_resumes (u : jsstring) (cloudResumes : list document)
    (resumes : list Resume.t) : M (list Resume.t) :=
  match cloudResumes with
  | [] => ret resumes
  | r :: rest =>
      let resume := pulled_resume r in
      let existing := snd <$> list_find (fun x => Resume.id x = Resume.id resume) resumes in
      let! resume := hydrate u (pdfChunkCount r) existing resume in
      pull_resumes u rest (upsertById Resume.id resumes resume)
  end.

Definition pulled_optimized (o : document) : OptimizedResume.t :=
  OptimizedResume.mk (pulled_base (js "Optimized Resume") o)
    (ToString (or_else (field o "originalResumeId") (VStr [])))
    (ToString (or_else (field o "jobId") (VStr [])))
    match field o "modifications" with
    | VArr items => map ToString items
    | _ => []
    end.

Definition pulled_letter (cl : document) : CoverLetter.t :=
  CoverLetter.mk (ToString (field cl "id"))
    (ToString (or_else (field cl "jobId") (VStr [])))
    (ToString (or_else (field cl "content") (VStr [])))
    (ToNumber (or_else (field cl "createdDate") (VNum now))).

Definition pulled_application (a : document) : Application.t :=
  Application.mk (ToString (field a "id"))
    (ToString (or_else (field a "jobId") (VStr [])))
    (ToString (or_else (field a "resumeId") (VStr [])))
    (optional_string (field a "coverLetterId"))
    (ToNumber (or_else (field a "appliedDate") (VNum now)))
    (ToString (or_else (field a "status") (VStr (js "draft")))).

Definition pulled_job (j : document) : JobPosting.t :=
  JobPosting.mk (ToString (field j "id"))
    (ToString (or_else (field j "title") (VStr [])))
    (ToString (or_else (field j "company") (VStr [])))
    (ToString (or_else (field j "description") (VStr [])))
    (ToString (or_else (field j "url") (VStr [])))
    (ToNumber (or_else (field j "extractedDate") (VNum now)))
    (optional_string (field j "location"))
    (optional_string (field j "salary"))
    (optional_string (field j "postedDate"))
    (optional_string (field j "platform")).

Definition tryCloudPullAllToLocal : M unit :=
  if negb isFirebaseEnabled then ret tt
  else if negb getFirestore then throw not_configured
  else try_catch
    (let! u := ensureUser in
     let! cloudResumes := getDocs [js "users"; u; js "resumes"] in
     let! cloudOptimized := getDocs [js "users"; u; js "optimizedResumes"] in
     let! cloudLetters := getDocs [js "users"; u; js "coverLetters"] in
     let! cloudApps := getDocs [js "users"; u; js "applications"] in
     let! cloudJobs := getDocs [js "users"; u; js "jobs"] in
     let! local := get_storage in
     let! resumes := pull_resumes u cloudResumes (resumes local) in
     let optimizedResumes :=
       foldl (upsertById OptimizedResume.id) (optimizedResumes local)
             (map pulled_optimized cloudOptimized) in
     let coverLetters :=
       foldl (upsertById CoverLetter.id) (coverLetters local)
             (map pulled_letter cloudLetters) in
     let applications :=
       foldl (upsertById Application.id) (applications local)
             (map pulled_application cloudApps) in
     let jobs :=
       foldl (upsertById JobPosting.id) (jobs local) (map pulled_job cloudJobs) in
     let resumes := enforce_default resumes in
     put_storage (fun s => mkLocal resumes jobs applications coverLetters
                                   optimizedResumes (cloudSync s)) ;;
     updateCloudSyncState patch_pulled)
    (fun e => updateCloudSyncState (patch_error e) ;; throw e).

(** **** tryCloudPushAllFromLocal *)
Definition tryCloudPushAllFromLocal : M unit :=
  if negb isFirebaseEnabled then ret tt
  else try_catch
    (ensureUser ;;
     let! local := get_storage in
     for_each tryCloudSyncResume (resumes local) ;;
     for_each tryCloudSyncOptimizedResume (optimizedResumes local) ;;
     for_each tryCloudSyncCoverLetter (coverLetters local) ;;
     for_each tryCloudSyncApplication (applications local) ;;
     for_each tryCloudSyncJob (jobs local) ;;
     updateCloudSyncState patch_pushed)
    (fun e => updateCloudSyncState (patch_error e) ;; throw e).

(** **** The popup: ensureApplication and saveGeneratedContent

    [chrome.storage.local.get] and the cloud pushes that are not awaited
    run to their end before the next step here; the pushes whose failure
    is only logged are wrapped in [catch_warn]. *)

(** The argument of [ensureApplication]: [jobId], and the properties the
    call site writes in the object. *)
Record application_patch := mkPatch {
  p_jobId : jsstring;
  p_resumeId : option jsstring;
  p_coverLetterId : option jsstring;
  p_appliedDate : option number;
  p_status : option jsstring;
}.

(** [Object.assign(existing, patch)] *)
Definition assign_patch (existing : Application.t) (patch : application_patch)
  : Application.t :=
  Application.mk (Application.id existing) (p_jobId patch)
    (default (Application.resumeId existing) (p_resumeId patch))
    (match p_coverLetterId patch with
     | Some c => Some c
     | None => Application.coverLetterId existing
     end)
    (default (Application.appliedDate existing) (p_appliedDate patch))
    (default (Application.status existing) (p_status patch)).

Definition created_application (id : jsstring) (resume : Resume.t)
    (patch : application_patch) : Application.t :=
  Application.mk id (p_jobId patch)
    (match p_resumeId patch with
     | Some r => if nonempty r then r else Resume.id resume
     | None => Resume.id resume
     end)
    (p_coverLetterId patch)
    (match p_appliedDate patch with
     | Some d => if truthy (VNum d) then d else now
     | None => now
     end)
    (match p_status patch with
     | Some st => if nonempty st then st else js "draft"
     | None => js "draft"
     end).

Definition setApplicationStatus (st : jsstring) : M unit :=
  put_popup (fun u => mkUi (optimizedResume u) (coverLetter u) st (alerts u)).

(** [generatedId] is what [generateId()] returns if it is called. *)
Definition ensureApplication (job : JobPosting.t) (resume : Resume.t)
    (generatedId : jsstring) (patch : application_patch) : M unit :=
  let! s := get_storage in
  match list_find (fun j => JobPosting.id j = JobPosting.id job) (jobs s) with
  | Some _ => ret tt
  | None => put_storage (set_jobs (jobs s ++ [job])) ;;
            catch_warn (tryCloudSyncJob job)
  end ;;
  let! s := get_storage in
  match list_find (fun a => Application.jobId a = p_jobId patch) (applications s) with
  | Some (i, existing) =>
      let existing := assign_patch existing patch in
      put_storage (set_applications (<[i := existing]> (applications s))) ;;
      setApplicationStatus (Application.status existing) ;;
      catch_warn (tryCloudSyncApplication existing)
  | None =>
      let created := created_application generatedId resume patch in
      put_storage (set_applications (applications s ++ [created])) ;;
      setApplicationStatus (Application.status created) ;;
      catch_warn (tryCloudSyncApplication created)
  end.

Inductive rewrite_type := RewriteResume | RewriteCover.

Definition setOptimizedResume (g : GeneratedDocState) : M unit :=
  put_popup (fun u => mkUi (Some g) (coverLetter u) (applicationStatus u) (alerts u)).
Definition setCoverLetter (g : GeneratedDocState) : M unit :=
  put_popup (fun u => mkUi (optimizedResume u) (Some g) (applicationStatus u) (alerts u)).
(** The marks that start the texts of the alerts, as the source file holds
    them, each with the space after it. *)
Definition ok_mark : jsstring := [8218; 250; 214; 32]%N.
Definition error_mark : jsstring := [8218; 249; 229; 32]%N.
Definition bin_mark : jsstring := [63743; 252; 243; 235; 212; 8719; 232; 32]%N.

Definition alert (message : jsstring) : M unit :=
  put_popup (fun u => mkUi (optimizedResume u) (coverLetter u) (applicationStatus u)
                           (alerts u ++ [message])).

(** [id] and [applicationId] are the results of the calls of
    [generateId()]. In the resume branch the [result] whose [suggestions]
    are read is the one just read from the storage, which has none:
    [modifications] is empty. The name of a new optimized resume joins the
    resume name, a space, the three code units that the source file holds
    for the dash, a space, the company and the title. *)
Definition saveGeneratedContent (rewriteFullText : jsstring)
    (rewriteType : rewrite_type) (job : JobPosting.t) (resume : Resume.t)
    (id applicationId : jsstring) : M unit :=
  if negb (nonempty rewriteFullText) then ret tt
  else try_catch
    match rewriteType with
    | RewriteResume =>
        let! s := get_storage in
        let optimizedResumes := optimizedResumes s in
        match list_find (fun o => OptimizedResume.jobId o = JobPosting.id job
                                  /\ OptimizedResume.parsedText o = rewriteFullText)
                        optimizedResumes with
        | Some (_, existingDuplicate) =>
            setOptimizedResume (mkGenerated (OptimizedResume.id existingDuplicate)
                                  rewriteFullText
                                  (OptimizedResume.uploadDate existingDuplicate)) ;;
            ensureApplication job resume applicationId
              (mkPatch (JobPosting.id job)
                       (Some (OptimizedResume.id existingDuplicate)) None None
                       (Some (js "draft"))) ;;
            alert (ok_mark ++ js "This resume version already exists in database")
        | None =>
            let optimized :=
              OptimizedResume.mk
                (Resume.mk id
                   (Resume.name resume ++ [32; 8218; 196; 238; 32]%N ++ JobPosting.company job
                    ++ js " (" ++ JobPosting.title job ++ js ")")
                   [] rewriteFullText now false
                   (Resume.originalFileUrl resume)
                   (Resume.originalFileProvider resume)
                   (Resume.originalFilePublicId resume)
                   (Resume.originalFileMimeType resume)
                   (Resume.originalFileName resume))
                (Resume.id resume) (JobPosting.id job) [] in
            put_storage (set_optimizedResumes (optimizedResumes ++ [optimized])) ;;
            setOptimizedResume (mkGenerated id rewriteFullText now) ;;
            ensureApplication job resume applicationId
              (mkPatch (JobPosting.id job) (Some id) None None (Some (js "draft"))) ;;
            tryCloudSyncOptimizedResume optimized ;;
            alert (ok_mark ++ js "Resume saved to database")
        end
    | RewriteCover =>
        let! s := get_storage in
        let coverLetters := coverLetters s in
        match list_find (fun cl => CoverLetter.jobId cl = JobPosting.id job
                                   /\ CoverLetter.content cl = rewriteFullText)
                        coverLetters with
        | Some (_, existingDuplicate) =>
            setCoverLetter (mkGenerated (CoverLetter.id existingDuplicate)
                              rewriteFullText
                              (CoverLetter.createdDate existingDuplicate)) ;;
            ensureApplication job resume applicationId
              (mkPatch (JobPosting.id job) None
                       (Some (CoverLetter.id existingDuplicate)) None
                       (Some (js "draft"))) ;;
            alert (ok_mark ++ js "This cover letter already exists in database")
        | None =>
            let letter := CoverLetter.mk id (JobPosting.id job) rewriteFullText now in
            put_storage (set_coverLetters (coverLetters ++ [letter])) ;;
            setCoverLetter (mkGenerated id rewriteFullText now) ;;
            ensureApplication job resume applicationId
              (mkPatch (JobPosting.id job) None (Some id) None (Some (js "draft"))) ;;
            tryCloudSyncCoverLetter letter ;;
            alert (ok_mark ++ js "Cover letter saved to database")
        end
    end
    (fun e => alert (error_mark ++ js "Save failed: " ++ e)).

End Sync.

(** *** Stored jobs *)

Lemma upsert_job_replace job jobs i old :
  NoDup (JobPosting.url <$> jobs) ->
  jobs !! i = Some old -> JobPosting.url old = JobPosting.url job ->
  upsert_job_by_url job jobs = <[i := job]> jobs.
Proof.
  intros Hnd Hi Hurl. unfold upsert_job_by_url.
  destruct (list_find _ jobs) as [[i' x']|] eqn:Hfind.
  - apply list_find_Some in Hfind as (Hi' & Hx' & _).
    assert (i' = i) as ->; [|done].
    eapply NoDup_lookup; [exact Hnd| |]; rewrite list_lookup_fmap.
    + rewrite Hi'. reflexivity.
    + rewrite Hi. cbn. by rewrite Hurl, Hx'.
  - apply list_find_None in Hfind.
    eapply Forall_lookup_1 in Hfind; [|exact Hi]. done.
Qed.

Lemma upsert_job_push job jobs :
  JobPosting.url job ∉ JobPosting.url <$> jobs ->
  upsert_job_by_url job jobs = jobs ++ [job].
Proof.
  intros Hnew. unfold upsert_job_by_url.
  destruct (list_find _ jobs) as [[i' x']|] eqn:Hfind; [|done].
  apply list_find_Some in Hfind as (Hi' & Hx' & _).
  exfalso. apply Hnew. rewrite <- Hx'.
  apply list_elem_of_fmap. exists x'. split; [done|].
  by eapply list_elem_of_lookup_2.
Qed.

Lemma upsert_job_NoDup job jobs :
  NoDup (JobPosting.url <$> jobs) ->
  NoDup (JobPosting.url <$> upsert_job_by_url job jobs).
Proof.
  intros Hnd. unfold upsert_job_by_url.
  destruct (list_find _ jobs) as [[i x]|] eqn:Hfind.
  - apply list_find_Some in Hfind as (Hi & Hx & _).
    rewrite list_fmap_insert, list_insert_id; [done|].
    rewrite list_lookup_fmap, Hi. cbn. by rewrite Hx.
  - apply list_find_None in Hfind.
    rewrite fmap_app. apply NoDup_app. split; [done|]. split.
    + intros u Hu Hin. apply list_elem_of_singleton in Hin as ->.
      apply list_elem_of_fmap in Hu as (x & Hx & Hin).
      eapply Forall_forall in Hfind; [|exact Hin]. done.
    + apply NoDup_singleton.
Qed.

(** C9. With no url stored twice, none is stored twice after a job is
    saved; a job whose url is stored takes the place of the stored one, and
    a job with a new url goes to the end. The message handler of the
    background worker leaves the same storage. *)
Theorem saveJob_keeps_urls_unique (job : JobPosting.t) (s : local) :
  NoDup (JobPosting.url <$> jobs s) ->
  NoDup (JobPosting.url <$> jobs (saveJob job s))
  /\ (forall i old, jobs s !! i = Some old ->
        JobPosting.url old = JobPosting.url job ->
        jobs (saveJob job s) = <[i := job]> (jobs s)
        /\ length (jobs (saveJob job s)) = length (jobs s))
  /\ (JobPosting.url job ∉ JobPosting.url <$> jobs s ->
      jobs (saveJob job s) = jobs s ++ [job])
  /\ handleJobExtraction job s = (saveJob job s, Success job).
Proof.
  intros Hnd. cbn [saveJob set_jobs jobs]. repeat split.
  - by apply upsert_job_NoDup.
  - by eapply upsert_job_replace.
  - erewrite upsert_job_replace by done. apply length_insert.
  - apply upsert_job_push.
Qed.

(** *** Cloud operations without Firebase *)

(** Sample data. *)
Definition sample_resume (id : string) (isDefault : bool) : Resume.t :=
  Resume.mk (js id) (js "CV") (js "UEsDBA==") (js "Python developer")
            (of_Z 1700000000000) isDefault None None None None (Some (js "cv.docx")).

Definition sample_job (id url : string) : JobPosting.t :=
  JobPosting.mk (js id) (js "Developer") (js "Acme") (js "Python and SQL")
                (js url) (of_Z 1700000000000) None None None None.

Definition sample_letter : CoverLetter.t :=
  CoverLetter.mk (js "c1") (js "j1") (js "Dear team") (of_Z 1700000000000).

Definition sample_application : Application.t :=
  Application.mk (js "a1") (js "j1") (js "r1") None (of_Z 1700000000000) (js "draft").

Definition sample_optimized (id : string) (text : string) : OptimizedResume.t :=
  OptimizedResume.mk
    (Resume.mk (js id) (js "CV") [] (js text) (of_Z 1700000000000) false
               None None None None (Some (js "cv.docx")))
    (js "r1") (js "j1") [].

(** A build without the Firebase variables, and one with them. *)
Definition env_without_firebase : config := mkConfig ∅ true None true.

Definition env_with_firebase : config :=
  mkConfig (list_to_map [("FIREBASE_API_KEY", js "k"); ("FIREBASE_AUTH_DOMAIN", js "d");
                         ("FIREBASE_PROJECT_ID", js "p"); ("FIREBASE_APP_ID", js "a")]%string)
           true (Some (js "u1")) true.

Definition sample_world : world :=
  mkWorld (mkLocal [sample_resume "r1" true] [sample_job "j1" "https://acme.example/1"]
                   [] [] [sample_optimized "o1" "Python developer, SQL"]
                   (mkCloudSyncState None None None None None None))
          ∅ (mkUi None None [] []).

(** *** Reasoning about computations on the world *)

(** [m] leaves the view [v] of the world as it found it. *)
Definition steady {T A} (v : world -> T) (m : M A) : Prop :=
  forall w, v (m w).2 = v w.

(** From a world that satisfies [Pre], [m] ends in an outcome and a world
    that satisfy [Post]. *)
Definition hoare {A} (Pre : world -> Prop) (m : M A)
    (Post : outcome jsstring A -> world -> Prop) : Prop :=
  forall w, Pre w -> Post (m w).1 (m w).2.

Section Steady.

Context {T : Type} (v : world -> T).

Lemma steady_ret {A} (a : A) : steady v (ret a).
Proof. done. Qed.

Lemma steady_throw {A} (e : jsstring) : steady v (throw e : M A).
Proof. done. Qed.

Lemma steady_bind {A B} (m : M A) (k : A -> M B) :
  steady v m -> (forall a, steady v (k a)) -> steady v (bind m k).
Proof.
  intros Hm Hk w. unfold bind. specialize (Hm w).
  destruct (m w) as [[a|e] w1]; cbn [snd] in *; [|done].
  by rewrite Hk.
Qed.

Lemma steady_try_catch {A} (m : M A) (h : jsstring -> M A) :
  steady v m -> (forall e, steady v (h e)) -> steady v (try_catch m h).
Proof.
  intros Hm Hh w. unfold try_catch. specialize (Hm w).
  destruct (m w) as [[a|e] w1]; cbn [snd] in *; [done|].
  by rewrite Hh.
Qed.

Lemma steady_catch_warn (m : M unit) : steady v m -> steady v (catch_warn m).
Proof. intros Hm. apply steady_try_catch; [done|]. intros e. apply steady_ret. Qed.

Lemma steady_for_each {A} (f : A -> M unit) xs :
  (forall x, steady v (f x)) -> steady v (for_each f xs).
Proof.
  intros Hf. induction xs as [|x r IH]; [apply steady_ret|].
  cbn [for_each]. apply steady_bind; auto.
Qed.

Lemma steady_hoare {A} (m : M A) (t : T) :
  steady v m -> hoare (fun w => v w = t) m (fun _ w => v w = t).
Proof. intros Hm w Hw. by rewrite Hm. Qed.

End Steady.

Lemma hoare_bind {A B} (Pre : world -> Prop) (m : M A) (k : A -> M B)
    (R : A -> world -> Prop) (Post : outcome jsstring B -> world -> Prop) :
  hoare Pre m (fun o w => match o with
                          | Return a => R a w
                          | Throw e => Post (Throw e) w
                          end) ->
  (forall a, hoare (R a) (k a) Post) ->
  hoare Pre (bind m k) Post.
Proof.
  intros Hm Hk w Hw. unfold bind. specialize (Hm w Hw).
  destruct (m w) as [[a|e] w1]; cbn [fst snd] in *; [|done].
  by apply Hk.
Qed.

Lemma hoare_try_catch {A} (Pre : world -> Prop) (m : M A) (h : jsstring -> M A)
    (R : jsstring -> world -> Prop) (Post : outcome jsstring A -> world -> Prop) :
  hoare Pre m (fun o w => match o with
                          | Return a => Post (Return a) w
                          | Throw e => R e w
                          end) ->
  (forall e, hoare (R e) (h e) Post) ->
  hoare Pre (try_catch m h) Post.
Proof.
  intros Hm Hh w Hw. unfold try_catch. specialize (Hm w Hw).
  destruct (m w) as [[a|e] w1]; cbn [fst snd] in *; [done|].
  by apply Hh.
Qed.

Lemma hoare_weaken {A} (Pre Pre' : world -> Prop) (m : M A)
    (Post Post' : outcome jsstring A -> world -> Prop) :
  hoare Pre' m Post' ->
  (forall w, Pre w -> Pre' w) -> (forall o w, Post' o w -> Post o w) ->
  hoare Pre m Post.
Proof. intros Hm H1 H2 w Hw. apply H2, Hm, H1, Hw. Qed.

(** The stored lists that the cloud operations only read, and what the
    popup shows of the generated documents. *)
Definition kept (w : world)
  : list Resume.t * list OptimizedResume.t * list CoverLetter.t
    * option GeneratedDocState * option GeneratedDocState :=
  (resumes (storage w), optimizedResumes (storage w), coverLetters (storage w),
   optimizedResume (popup w), coverLetter (popup w)).

(** The stored lists alone. *)
Definition lists (w : world)
  : list Resume.t * list OptimizedResume.t * list CoverLetter.t :=
  (resumes (storage w), optimizedResumes (storage w), coverLetters (storage w)).

Lemma steady_lists {A} (m : M A) : steady kept m -> steady lists m.
Proof.
  intros Hm w. specialize (Hm w). unfold kept, lists in *. congruence.
Qed.

(** *** The default resume *)

(** At most one stored resume is the default one. *)
Definition one_default (rs : list Resume.t) : Prop :=
  length (filter (fun r => Resume.isDefault r = true) rs) <= 1.

Lemma filter_default_unset rs :
  filter (fun r => Resume.isDefault r = true) (map (Resume.set_isDefault false) rs) = [].
Proof.
  induction rs as [|r rs IH]; [done|]. cbn [map].
  rewrite filter_cons_False; [done|]. cbn. discriminate.
Qed.

Lemma saveResume_default resume s :
  (one_default (resumes s) -> one_default (resumes (saveResume resume s)))
  /\ (Resume.isDefault resume = true ->
      filter (fun r => Resume.isDefault r = true) (resumes (saveResume resume s))
      = [resume]).
Proof.
  unfold one_default, saveResume. cbn [resumes set_resumes].
  destruct (Resume.isDefault resume) eqn:Hd; rewrite filter_app.
  - rewrite filter_default_unset, filter_cons_True, filter_nil by done.
    split; [cbn; lia|done].
  - rewrite filter_cons_False, filter_nil, app_nil_r by (rewrite Hd; discriminate).
    split; [done|discriminate].
Qed.

Lemma filter_none {A} (Q : A -> Prop) `{forall x, Decision (Q x)} (l : list A) :
  Forall (fun x => ~ Q x) l -> filter Q l = [].
Proof.
  induction 1 as [|x l Hx _ IH]; [done|]. by rewrite filter_cons_False.
Qed.

Lemma filter_id_absent (c : jsstring) rs :
  c ∉ Resume.id <$> rs -> filter (fun r => Resume.id r = c) rs = [].
Proof.
  induction rs as [|r rs IH]; intros Hc; [done|].
  rewrite fmap_cons, not_elem_of_cons in Hc. destruct Hc as [Hne Hc].
  rewrite filter_cons_False by done. auto.
Qed.

Lemma filter_id_unique (c : jsstring) rs :
  NoDup (Resume.id <$> rs) -> c ∈ Resume.id <$> rs ->
  length (filter (fun r => Resume.id r = c) rs) = 1.
Proof.
  induction rs as [|r rs IH]; intros Hnd Hc; [by apply elem_of_nil in Hc|].
  rewrite fmap_cons in *. apply NoDup_cons in Hnd as [Hr Hnd].
  destruct (decide (Resume.id r = c)) as [Heq|Hne].
  - rewrite filter_cons_True by done. subst c.
    by rewrite filter_id_absent.
  - rewrite filter_cons_False by done. apply IH; [done|].
    apply elem_of_cons in Hc as [Hc|Hc]; [congruence|done].
Qed.

Lemma filter_marked (c : jsstring) rs :
  length (filter (fun r => Resume.isDefault r = true)
            (map (fun r => Resume.set_isDefault (bool_decide (Resume.id r = c)) r) rs))
  = length (filter (fun r => Resume.id r = c) rs).
Proof.
  induction rs as [|r rs IH]; [done|]. cbn [map].
  destruct (decide (Resume.id r = c)) as [Heq|Hne].
  - rewrite !filter_cons_True; [cbn; by rewrite IH|done|].
    cbn. by apply bool_decide_eq_true.
  - rewrite !filter_cons_False; [done|done|].
    cbn. rewrite bool_decide_eq_false_2 by done. discriminate.
Qed.

Lemma enforce_default_ids rs : Resume.id <$> enforce_default rs = Resume.id <$> rs.
Proof.
  unfold enforce_default. destruct (list_find _ rs) as [[i d]|]; [|done].
  change (map ?f rs) with (f <$> rs). rewrite <- list_fmap_compose.
  by apply list_fmap_ext.
Qed.

(** [enforce_default] on resumes with distinct ids: nothing changes when
    no resume is the default, and exactly one is the default otherwise. *)
Lemma enforce_default_spec rs :
  NoDup (Resume.id <$> rs) ->
  ((forall r, r ∈ rs -> Resume.isDefault r = false) -> enforce_default rs = rs)
  /\ (forall r, r ∈ rs -> Resume.isDefault r = true ->
      length (filter (fun r => Resume.isDefault r = true) (enforce_default rs)) = 1)
  /\ one_default (enforce_default rs).
Proof.
  intros Hnd. unfold one_default, enforce_default.
  destruct (list_find _ rs) as [[i d]|] eqn:Hfind.
  - apply list_find_Some in Hfind as (Hi & Hd & _).
    assert (Hone : length (filter (fun r => Resume.isDefault r = true)
                     (map (fun r => Resume.set_isDefault
                                      (bool_decide (Resume.id r = Resume.id d)) r) rs))
                   = 1).
    { rewrite filter_marked. apply filter_id_unique; [done|].
      apply list_elem_of_fmap. exists d. split; [done|].
      by eapply list_elem_of_lookup_2. }
    split; [|split; [done|lia]].
    intros Hnone. apply list_elem_of_lookup_2 in Hi. apply Hnone in Hi. congruence.
  - apply list_find_None in Hfind. split; [done|]. split.
    + intros r Hr Hd. eapply Forall_forall in Hfind; [|exact Hr]. done.
    + rewrite filter_none; [simpl; lia|done].
Qed.

Lemma upsertById_ids rs (item : Resume.t) :
  NoDup (Resume.id <$> rs) -> NoDup (Resume.id <$> upsertById Resume.id rs item).
Proof.
  intros Hnd. unfold upsertById.
  destruct (list_find _ rs) as [[i x]|] eqn:Hfind.
  - apply list_find_Some in Hfind as (Hi & Hx & _).
    rewrite list_fmap_insert, list_insert_id; [done|].
    rewrite list_lookup_fmap, Hi. cbn. by rewrite Hx.
  - apply list_find_None in Hfind.
    rewrite fmap_app. apply NoDup_app. split; [done|]. split.
    + intros u Hu Hin. apply list_elem_of_singleton in Hin as ->.
      apply list_elem_of_fmap in Hu as (x & Hx & Hin).
      eapply Forall_forall in Hfind; [|exact Hin]. done.
    + apply NoDup_singleton.
Qed.

Definition stored_resumes (w : world) : list Resume.t := resumes (storage w).

Lemma steady_stored_resumes {A} (m : M A) : steady kept m -> steady stored_resumes m.
Proof.
  intros Hm w. specialize (Hm w). unfold kept, stored_resumes in *. congruence.
Qed.

(** Distinct ids, and at most one default resume. *)
Definition good_resumes (rs : list Resume.t) : Prop :=
  NoDup (Resume.id <$> rs) /\ one_default rs.

Section SyncFacts.

Variable toLowerCase : jsstring -> jsstring.
Variable ToString : jsval -> jsstring.
Variable ToNumber : jsval -> number.
Variable cfg : config.

(** **** What the cloud operations leave alone *)

Lemma steady_updateCloudSyncState patch :
  steady kept (updateCloudSyncState toLowerCase cfg patch).
Proof. done. Qed.

Lemma steady_setDoc p data : steady kept (setDoc cfg p data).
Proof. intros w. unfold setDoc. by destruct (online cfg). Qed.

Lemma steady_deleteDoc p : steady kept (deleteDoc cfg p).
Proof. intros w. unfold deleteDoc. by destruct (online cfg). Qed.

Lemma steady_getDocs coll : steady kept (getDocs cfg coll).
Proof. intros w. unfold getDocs. by destruct (online cfg). Qed.

Lemma steady_ensureUser : steady kept (ensureUser toLowerCase cfg).
Proof.
  unfold ensureUser. destruct (negb _); [apply steady_throw|].
  destruct (currentUser cfg) as [u|]; [|apply steady_throw].
  destruct (negb _); [apply steady_throw|].
  apply steady_bind; [apply steady_updateCloudSyncState|].
  intros _. apply steady_ret.
Qed.

Lemma steady_push now message collection id data :
  steady kept (push toLowerCase cfg now message collection id data).
Proof.
  unfold push. destruct (negb _); [apply steady_ret|].
  destruct (negb _); [apply steady_throw|].
  apply steady_bind; [apply steady_ensureUser|]. intros u.
  apply steady_bind; [apply steady_setDoc|]. intros _.
  apply steady_updateCloudSyncState.
Qed.

Lemma steady_ensureApplication now job resume generatedId patch :
  steady kept (ensureApplication toLowerCase cfg now job resume generatedId patch).
Proof.
  unfold ensureApplication.
  apply steady_bind; [done|]. intros s.
  apply steady_bind.
  { destruct (list_find _ (jobs s)); [apply steady_ret|].
    apply steady_bind; [done|]. intros _.
    apply steady_catch_warn, steady_push. }
  intros _. apply steady_bind; [done|]. intros s'.
  destruct (list_find _ (applications s')) as [[i existing]|].
  - apply steady_bind; [done|]. intros _.
    apply steady_bind; [done|]. intros _.
    apply steady_catch_warn, steady_push.
  - apply steady_bind; [done|]. intros _.
    apply steady_bind; [done|]. intros _.
    apply steady_catch_warn, steady_push.
Qed.

(** C6. Without Firebase every push, every delete, the pull and the push
    of everything return at once: nothing is thrown and the world (local
    storage, cloud store, popup) is the one before the call. *)
Theorem cloud_sync_is_optional (now : number) (w : world) :
  isFirebaseEnabled toLowerCase cfg = false ->
  (forall resume, tryCloudSyncResume toLowerCase cfg now resume w = (Return tt, w))
  /\ (forall optimized,
        tryCloudSyncOptimizedResume toLowerCase cfg now optimized w = (Return tt, w))
  /\ (forall letter, tryCloudSyncCoverLetter toLowerCase cfg now letter w = (Return tt, w))
  /\ (forall job, tryCloudSyncJob toLowerCase cfg now job w = (Return tt, w))
  /\ (forall application,
        tryCloudSyncApplication toLowerCase cfg now application w = (Return tt, w))
  /\ (forall id, tryCloudDeleteOptimizedResume toLowerCase cfg id w = (Return tt, w))
  /\ (forall id, tryCloudDeleteCoverLetter toLowerCase cfg id w = (Return tt, w))
  /\ (forall id, tryCloudDeleteApplication toLowerCase cfg id w = (Return tt, w))
  /\ tryCloudPullAllToLocal toLowerCase ToString ToNumber cfg now w = (Return tt, w)
  /\ tryCloudPushAllFromLocal toLowerCase cfg now w = (Return tt, w).
Proof.
  intros Hoff.
  unfold tryCloudSyncResume, tryCloudSyncOptimizedResume, tryCloudSyncCoverLetter,
    tryCloudSyncJob, tryCloudSyncApplication, tryCloudDeleteOptimizedResume,
    tryCloudDeleteCoverLetter, tryCloudDeleteApplication, tryCloudPullAllToLocal,
    tryCloudPushAllFromLocal, push, cloud_delete.
  rewrite Hoff. cbn [negb]. repeat split.
Qed.

(** **** The pull and the default resume *)

Lemma hoare_hydrate u count existing resume rs0 :
  hoare (fun w => stored_resumes w = rs0)
    (hydrate ToString ToNumber cfg u count existing resume)
    (fun o w => match o with
                | Return r => stored_resumes w = rs0 /\ Resume.id r = Resume.id resume
                | Throw _ => stored_resumes w = rs0
                end).
Proof.
  intros w Hw. unfold hydrate, try_catch, bind, getDocs, ret. cbv zeta.
  destruct (nonempty _); [done|].
  destruct (_ && _); [|done].
  by destruct (online cfg).
Qed.

Lemma hoare_pull_resumes now u docs : forall rs rs0,
  NoDup (Resume.id <$> rs) ->
  hoare (fun w => stored_resumes w = rs0)
    (pull_resumes ToString ToNumber cfg now u docs rs)
    (fun o w => stored_resumes w = rs0
                /\ match o with
                   | Return rs' => NoDup (Resume.id <$> rs')
                   | Throw _ => True
                   end).
Proof.
  induction docs as [|r rest IH]; intros rs rs0 Hnd; [by intros w Hw|].
  cbn [pull_resumes]. cbv zeta.
  eapply hoare_bind with
    (R := fun r' w => stored_resumes w = rs0
                      /\ Resume.id r' = Resume.id (pulled_resume ToString ToNumber now r)).
  - eapply hoare_weaken; [apply (hoare_hydrate _ _ _ _ rs0)|done|].
    intros [r'|e] w H; done.
  - intros r'. eapply hoare_weaken; [apply (IH _ rs0)| |done].
    + by apply upsertById_ids.
    + by intros w [H _].
Qed.

Lemma steady_tail {A} (m : M A) rs0 :
  steady kept m ->
  hoare (fun w => stored_resumes w = rs0) m
    (fun o w => match o with
                | Return _ => stored_resumes w = rs0
                | Throw _ => stored_resumes w = rs0
                end).
Proof.
  intros Hm w Hw. apply steady_stored_resumes in Hm.
  specialize (Hm w). rewrite Hw in Hm. by destruct (m w) as [[a|e] w'].
Qed.

Ltac step_keeping lem rs0 :=
  eapply hoare_bind with (R := fun _ w => stored_resumes w = rs0);
  [eapply hoare_weaken;
     [apply (steady_tail _ rs0), lem|done|by intros [?|?] ? ?]|].

Lemma pull_keeps_good_resumes now rs0 :
  good_resumes rs0 ->
  hoare (fun w => stored_resumes w = rs0)
    (tryCloudPullAllToLocal toLowerCase ToString ToNumber cfg now)
    (fun _ w => good_resumes (stored_resumes w)).
Proof.
  intros Hgood. unfold tryCloudPullAllToLocal.
  destruct (negb _); [by intros w <-|].
  destruct (negb _); [by intros w <-|].
  eapply hoare_try_catch with (R := fun _ w => stored_resumes w = rs0).
  2:{ intros e. eapply hoare_weaken;
        [apply (steady_hoare stored_resumes _ rs0)|done|by intros o w ->].
      apply steady_stored_resumes, steady_bind;
        [apply steady_updateCloudSyncState|intros _; apply steady_throw]. }
  step_keeping steady_ensureUser rs0. intros u.
  step_keeping steady_getDocs rs0. intros cloudResumes.
  step_keeping steady_getDocs rs0. intros cloudOptimized.
  step_keeping steady_getDocs rs0. intros cloudLetters.
  step_keeping steady_getDocs rs0. intros cloudApps.
  step_keeping steady_getDocs rs0. intros cloudJobs.
  eapply hoare_bind with (R := fun s w => stored_resumes w = rs0 /\ resumes s = rs0).
  { by intros w Hw. }
  intros s.
  eapply hoare_bind with
    (R := fun rs' w => NoDup (Resume.id <$> rs')).
  { intros w [Hw Hs]. rewrite Hs.
    pose proof (hoare_pull_resumes now u cloudResumes rs0 rs0 (proj1 Hgood) w Hw) as H.
    destruct (pull_resumes _ _ _ _ _ _ _ w) as [[rs'|e] w']; cbn [fst snd] in *;
      tauto. }
  intros rs' w Hnd. cbn.
  split.
  - by rewrite enforce_default_ids.
  - by apply enforce_default_spec.
Qed.

(** **** saveGeneratedContent and stored duplicates *)

Lemma steady_alert message : steady kept (alert message).
Proof. done. Qed.

Lemma steady_after_save now job resume applicationId patch final
    (sync : M unit) :
  steady kept sync ->
  steady kept
    (try_catch
       (ensureApplication toLowerCase cfg now job resume applicationId patch ;;
        sync ;; alert final)
       (fun e => alert (error_mark ++ js "Save failed: " ++ e))).
Proof.
  intros Hsync. apply steady_try_catch; [|intros e; apply steady_alert].
  apply steady_bind; [apply steady_ensureApplication|]. intros _.
  apply steady_bind; [done|]. intros _. apply steady_alert.
Qed.

(** The new record of the resume branch. *)
Definition new_optimized (now : number) (text : jsstring) (job : JobPosting.t)
    (resume : Resume.t) (id : jsstring) : OptimizedResume.t :=
  OptimizedResume.mk
    (Resume.mk id
       (Resume.name resume ++ [32; 8218; 196; 238; 32]%N ++ JobPosting.company job
        ++ js " (" ++ JobPosting.title job ++ js ")")
       [] text now false
       (Resume.originalFileUrl resume) (Resume.originalFileProvider resume)
       (Resume.originalFilePublicId resume) (Resume.originalFileMimeType resume)
       (Resume.originalFileName resume))
    (Resume.id resume) (JobPosting.id job) [].

(** What a save of a non-empty text leaves of the stored lists and of the
    popup, by the duplicate found or not. *)
Lemma save_resume_effect now text job resume id applicationId w :
  nonempty text = true ->
  kept (saveGeneratedContent toLowerCase cfg now text RewriteResume job resume
          id applicationId w).2
  = match list_find (fun o => OptimizedResume.jobId o = JobPosting.id job
                              /\ OptimizedResume.parsedText o = text)
                    (optimizedResumes (storage w)) with
    | Some (_, dup) =>
        (resumes (storage w), optimizedResumes (storage w), coverLetters (storage w),
         Some (mkGenerated (OptimizedResume.id dup) text (OptimizedResume.uploadDate dup)),
         coverLetter (popup w))
    | None =>
        (resumes (storage w),
         optimizedResumes (storage w) ++ [new_optimized now text job resume id],
         coverLetters (storage w),
         Some (mkGenerated id text now), coverLetter (popup w))
    end.
Proof.
  intros Htext. unfold saveGeneratedContent. rewrite Htext. cbn [negb].
  destruct (list_find _ (optimizedResumes (storage w))) as [[i dup]|] eqn:Hfind.
  - set (w1 := mkWorld (storage w) (firestore w)
                 (mkUi (Some (mkGenerated (OptimizedResume.id dup) text
                                (OptimizedResume.uploadDate dup)))
                       (coverLetter (popup w)) (applicationStatus (popup w))
                       (alerts (popup w)))).
    pose proof (steady_after_save now job resume applicationId
                  (mkPatch (JobPosting.id job) (Some (OptimizedResume.id dup))
                     None None (Some (js "draft")))
                  (ok_mark ++ js "This resume version already exists in database")
                  (ret tt) (steady_ret kept tt) w1) as H.
    unfold try_catch, bind, get_storage, setOptimizedResume, put_popup in *.
    cbn [ret] in H. rewrite Hfind.
    fold w1.
    destruct (ensureApplication _ _ _ _ _ _ _ w1) as [[[]|e] w2]; exact H.
  - set (w1 := mkWorld (set_optimizedResumes
                          (optimizedResumes (storage w)
                           ++ [new_optimized now text job resume id]) (storage w))
                 (firestore w)
                 (mkUi (Some (mkGenerated id text now))
                       (coverLetter (popup w)) (applicationStatus (popup w))
                       (alerts (popup w)))).
    pose proof (steady_after_save now job resume applicationId
                  (mkPatch (JobPosting.id job) (Some id) None None (Some (js "draft")))
                  (ok_mark ++ js "Resume saved to database")
                  (tryCloudSyncOptimizedResume toLowerCase cfg now
                     (new_optimized now text job resume id))
                  (steady_push _ _ _ _ _) w1) as H.
    unfold try_catch, bind, get_storage, setOptimizedResume, put_popup, put_storage in *.
    rewrite Hfind. fold (new_optimized now text job resume id).
    cbn [storage firestore popup optimizedResume coverLetter applicationStatus alerts].
    fold w1. exact H.
Qed.

Lemma save_cover_effect now text job resume id applicationId w :
  nonempty text = true ->
  kept (saveGeneratedContent toLowerCase cfg now text RewriteCover job resume
          id applicationId w).2
  = match list_find (fun cl => CoverLetter.jobId cl = JobPosting.id job
                               /\ CoverLetter.content cl = text)
                    (coverLetters (storage w)) with
    | Some (_, dup) =>
        (resumes (storage w), optimizedResumes (storage w), coverLetters (storage w),
         optimizedResume (popup w),
         Some (mkGenerated (CoverLetter.id dup) text (CoverLetter.createdDate dup)))
    | None =>
        (resumes (storage w), optimizedResumes (storage w),
         coverLetters (storage w) ++ [CoverLetter.mk id (JobPosting.id job) text now],
         optimizedResume (popup w), Some (mkGenerated id text now))
    end.
Proof.
  intros Htext. unfold saveGeneratedContent. rewrite Htext. cbn [negb].
  destruct (list_find _ (coverLetters (storage w))) as [[i dup]|] eqn:Hfind.
  - set (w1 := mkWorld (storage w) (firestore w)
                 (mkUi (optimizedResume (popup w))
                       (Some (mkGenerated (CoverLetter.id dup) text
                                (CoverLetter.createdDate dup)))
                       (applicationStatus (popup w)) (alerts (popup w)))).
    pose proof (steady_after_save now job resume applicationId
                  (mkPatch (JobPosting.id job) None (Some (CoverLetter.id dup))
                     None (Some (js "draft")))
                  (ok_mark ++ js "This cover letter already exists in database")
                  (ret tt) (steady_ret kept tt) w1) as H.
    unfold try_catch, bind, get_storage, setCoverLetter, put_popup in *.
    cbn [ret] in H. rewrite Hfind.
    fold w1.
    destruct (ensureApplication _ _ _ _ _ _ _ w1) as [[[]|e] w2]; exact H.
  - set (w1 := mkWorld (set_coverLetters
                          (coverLetters (storage w)
                           ++ [CoverLetter.mk id (JobPosting.id job) text now])
                          (storage w))
                 (firestore w)
                 (mkUi (optimizedResume (popup w)) (Some (mkGenerated id text now))
                       (applicationStatus (popup w)) (alerts (popup w)))).
    pose proof (steady_after_save now job resume applicationId
                  (mkPatch (JobPosting.id job) None (Some id) None (Some (js "draft")))
                  (ok_mark ++ js "Cover letter saved to database")
                  (tryCloudSyncCoverLetter toLowerCase cfg now
                     (CoverLetter.mk id (JobPosting.id job) text now))
                  (steady_push _ _ _ _ _) w1) as H.
    unfold try_catch, bind, get_storage, setCoverLetter, put_popup, put_storage in *.
    rewrite Hfind.
    cbn [storage firestore popup optimizedResume coverLetter applicationStatus alerts].
    fold w1. exact H.
Qed.

Lemma save_empty now ty job resume id applicationId w :
  saveGeneratedContent toLowerCase cfg now [] ty job resume id applicationId w
  = (Return tt, w).
Proof. reflexivity. Qed.

Lemma nonempty_true (s : jsstring) : s <> [] -> nonempty s = true.
Proof. intros H. by apply bool_decide_eq_true. Qed.

Lemma find_stored {A} (Q : A -> Prop) `{forall x, Decision (Q x)} (l : list A) x :
  x ∈ l -> Q x -> exists i dup, list_find Q l = Some (i, dup) /\ dup ∈ l /\ Q dup.
Proof.
  intros Hx HQ. destruct (list_find Q l) as [[i dup]|] eqn:Hfind.
  - exists i, dup. apply list_find_Some in Hfind as (Hi & Hd & _).
    split; [done|]. split; [by eapply list_elem_of_lookup_2|done].
  - apply list_find_None in Hfind. eapply Forall_forall in Hfind; [|exact Hx]. done.
Qed.

(** **** The jobs and applications that a save writes *)

(** The stored jobs and applications. *)
Definition records (w : world) : list JobPosting.t * list Application.t :=
  (jobs (storage w), applications (storage w)).

(** The jobs after [ensureApplication]: the job is pushed when none of its
    id is stored. *)
Definition ensured_jobs (job : JobPosting.t) (stored : list JobPosting.t)
  : list JobPosting.t :=
  match list_find (fun j => JobPosting.id j = JobPosting.id job) stored with
  | Some _ => stored
  | None => stored ++ [job]
  end.

(** The applications after [ensureApplication]: the patch is assigned to the
    first application of the job, or a new application is pushed. *)
Definition ensured_applications (now : number) (generatedId : jsstring)
    (resume : Resume.t) (patch : application_patch) (stored : list Application.t)
  : list Application.t :=
  match list_find (fun a => Application.jobId a = p_jobId patch) stored with
  | Some (i, existing) => <[i := assign_patch existing patch]> stored
  | None => stored ++ [created_application now generatedId resume patch]
  end.

Lemma records_push now message collection id data :
  steady records (push toLowerCase cfg now message collection id data).
Proof.
  unfold push. destruct (negb _); [apply steady_ret|].
  destruct (negb _); [apply steady_throw|].
  apply steady_bind.
  { unfold ensureUser. destruct (negb _); [apply steady_throw|].
    destruct (currentUser cfg) as [u|]; [|apply steady_throw].
    destruct (negb _); [apply steady_throw|].
    apply steady_bind; [done|]. intros _. apply steady_ret. }
  intros u. apply steady_bind; [|done].
  intros w. unfold setDoc. by destruct (online cfg).
Qed.

Lemma after_catch_warn {T} (v : world -> T) (m : M unit) w :
  steady v m -> exists w', catch_warn m w = (Return tt, w') /\ v w' = v w.
Proof.
  intros Hm. unfold catch_warn, try_catch. specialize (Hm w).
  destruct (m w) as [[[]|e] w']; cbn [snd] in Hm; eauto.
Qed.

Lemma ensureApplication_records now job resume generatedId patch w :
  records (ensureApplication toLowerCase cfg now job resume generatedId patch w).2
  = (ensured_jobs job (jobs (storage w)),
     ensured_applications now generatedId resume patch (applications (storage w))).
Proof.
  unfold ensureApplication, ensured_jobs, ensured_applications.
  unfold bind at 1, get_storage at 1. unfold bind at 1.
  assert (exists w1,
            match list_find (fun j => JobPosting.id j = JobPosting.id job)
                    (jobs (storage w)) with
            | Some _ => ret tt
            | None => put_storage (set_jobs (jobs (storage w) ++ [job])) ;;
                      catch_warn (tryCloudSyncJob toLowerCase cfg now job)
            end w = (Return tt, w1)
            /\ records w1
               = (ensured_jobs job (jobs (storage w)), applications (storage w)))
    as (w1 & -> & H1).
  { unfold ensured_jobs. destruct (list_find _ (jobs (storage w))); [by exists w|].
    unfold bind, put_storage.
    edestruct (after_catch_warn records) as (w1 & -> & Hr); [apply records_push|].
    by exists w1. }
  unfold records in H1. injection H1 as Hjobs Happs. fold (ensured_jobs job (jobs (storage w))).
  unfold bind at 1, get_storage at 1. rewrite Happs.
  destruct (list_find _ (applications (storage w))) as [[i existing]|].
  - unfold bind, put_storage, setApplicationStatus, put_popup.
    edestruct (after_catch_warn records) as (w2 & -> & Hr); [apply records_push|].
    cbn [snd]. etrans; [exact Hr|]. unfold records. cbn. by rewrite Hjobs.
  - unfold bind, put_storage, setApplicationStatus, put_popup.
    edestruct (after_catch_warn records) as (w2 & -> & Hr); [apply records_push|].
    cbn [snd]. etrans; [exact Hr|]. unfold records. cbn. by rewrite Hjobs.
Qed.

Lemma find_pushed {A} (Q : A -> Prop) `{forall x, Decision (Q x)} (l : list A) x :
  list_find Q l = None -> Q x -> list_find Q (l ++ [x]) = Some (length l, x).
Proof.
  intros Hnone HQ. rewrite list_find_app_r by done. cbn.
  by rewrite decide_True.
Qed.

Lemma find_assigned {A} (Q : A -> Prop) `{forall x, Decision (Q x)}
    (l : list A) i x y :
  list_find Q l = Some (i, x) -> Q y -> list_find Q (<[i := y]> l) = Some (i, y).
Proof.
  intros Hfind HQ. apply list_find_Some in Hfind as (Hi & _ & Hleast).
  apply list_find_insert_Some. right. left.
  split_and!; [done|done|by eapply lookup_lt_Some|done|].
  intros i' z Hz Hlt. by eapply Hleast.
Qed.

Lemma ensured_jobs_twice job stored :
  ensured_jobs job (ensured_jobs job stored) = ensured_jobs job stored.
Proof.
  unfold ensured_jobs.
  destruct (list_find _ stored) as [[i j]|] eqn:Hfind.
  - by rewrite Hfind.
  - by rewrite (find_pushed _ stored job Hfind).
Qed.

Lemma assign_patch_twice existing patch :
  assign_patch (assign_patch existing patch) patch = assign_patch existing patch.
Proof. by destruct patch as [j [r|] [c|] [d|] [st|]]. Qed.

(** A patch of [saveGeneratedContent], which carries the id of the saved
    record and the draft status, assigns nothing new to the application
    created from it when the resume id it carries is not empty. *)
Lemma assign_patch_created now generatedId resume jobId resumeId coverLetterId :
  (forall r, resumeId = Some r -> r <> []) ->
  let patch := mkPatch jobId resumeId coverLetterId None (Some (js "draft")) in
  assign_patch (created_application now generatedId resume patch) patch
  = created_application now generatedId resume patch.
Proof.
  intros Hid. cbv zeta. unfold assign_patch, created_application.
  cbn [p_jobId p_resumeId p_coverLetterId p_appliedDate p_status
       Application.id Application.resumeId Application.coverLetterId
       Application.appliedDate Application.status default].
  destruct resumeId as [r|], coverLetterId as [c|]; try reflexivity.
  - by rewrite (nonempty_true r (Hid r eq_refl)).
  - by rewrite (nonempty_true r (Hid r eq_refl)).
Qed.

Lemma ensured_applications_twice now now' generatedId generatedId' resume patch stored :
  assign_patch (created_application now generatedId resume patch) patch
  = created_application now generatedId resume patch ->
  ensured_applications now' generatedId' resume patch
    (ensured_applications now generatedId resume patch stored)
  = ensured_applications now generatedId resume patch stored.
Proof.
  intros Hcreated. unfold ensured_applications.
  destruct (list_find _ stored) as [[i existing]|] eqn:Hfind.
  - rewrite (find_assigned _ stored i existing (assign_patch existing patch) Hfind)
      by (by destruct patch).
    rewrite assign_patch_twice. apply list_insert_insert_eq.
  - rewrite (find_pushed _ stored (created_application now generatedId resume patch)
               Hfind) by (by destruct patch).
    rewrite Hcreated. apply list_insert_id. by apply list_lookup_middle.
Qed.

Lemma records_after_save now job resume applicationId patch final
    (sync : M unit) w :
  steady records sync ->
  records (try_catch
             (ensureApplication toLowerCase cfg now job resume applicationId patch ;;
              sync ;; alert final)
             (fun e => alert (error_mark ++ js "Save failed: " ++ e)) w).2
  = (ensured_jobs job (jobs (storage w)),
     ensured_applications now applicationId resume patch (applications (storage w))).
Proof.
  intros Hsync. rewrite <- ensureApplication_records. unfold try_catch, bind.
  destruct (ensureApplication _ _ _ _ _ _ _ w) as [[[]|e] w1]; cbn [snd]; [|done].
  specialize (Hsync w1). by destruct (sync w1) as [[[]|e] w2].
Qed.

(** The jobs and applications after a save of a non-empty text: those that
    [ensureApplication] leaves, for the id of the duplicate found or else
    the new id. *)
Lemma save_resume_records now text job resume id applicationId w :
  nonempty text = true ->
  records (saveGeneratedContent toLowerCase cfg now text RewriteResume job resume
             id applicationId w).2
  = (ensured_jobs job (jobs (storage w)),
     ensured_applications now applicationId resume
       (mkPatch (JobPosting.id job)
          (Some match list_find (fun o => OptimizedResume.jobId o = JobPosting.id job
                                          /\ OptimizedResume.parsedText o = text)
                             (optimizedResumes (storage w)) with
                | Some (_, dup) => OptimizedResume.id dup
                | None => id
                end)
          None None (Some (js "draft")))
       (applications (storage w))).
Proof.
  intros Htext. unfold saveGeneratedContent. rewrite Htext. cbn [negb].
  destruct (list_find _ (optimizedResumes (storage w))) as [[i dup]|] eqn:Hfind.
  - set (w1 := mkWorld (storage w) (firestore w)
                 (mkUi (Some (mkGenerated (OptimizedResume.id dup) text
                                (OptimizedResume.uploadDate dup)))
                       (coverLetter (popup w)) (applicationStatus (popup w))
                       (alerts (popup w)))).
    pose proof (records_after_save now job resume applicationId
                  (mkPatch (JobPosting.id job) (Some (OptimizedResume.id dup))
                     None None (Some (js "draft")))
                  (ok_mark ++ js "This resume version already exists in database")
                  (ret tt) w1 (steady_ret records tt)) as H.
    unfold try_catch, bind, get_storage, setOptimizedResume, put_popup in *.
    cbn [ret] in H. rewrite Hfind.
    fold w1.
    destruct (ensureApplication _ _ _ _ _ _ _ w1) as [[[]|e] w2]; exact H.
  - set (w1 := mkWorld (set_optimizedResumes
                          (optimizedResumes (storage w)
                           ++ [new_optimized now text job resume id]) (storage w))
                 (firestore w)
                 (mkUi (Some (mkGenerated id text now))
                       (coverLetter (popup w)) (applicationStatus (popup w))
                       (alerts (popup w)))).
    pose proof (records_after_save now job resume applicationId
                  (mkPatch (JobPosting.id job) (Some id) None None (Some (js "draft")))
                  (ok_mark ++ js "Resume saved to database")
                  (tryCloudSyncOptimizedResume toLowerCase cfg now
                     (new_optimized now text job resume id))
                  w1 (records_push _ _ _ _ _)) as H.
    unfold try_catch, bind, get_storage, setOptimizedResume, put_popup, put_storage in *.
    rewrite Hfind. fold (new_optimized now text job resume id).
    cbn [storage firestore popup optimizedResume coverLetter applicationStatus alerts].
    fold w1. exact H.
Qed.

Lemma save_cover_records now text job resume id applicationId w :
  nonempty text = true ->
  records (saveGeneratedContent toLowerCase cfg now text RewriteCover job resume
             id applicationId w).2
  = (ensured_jobs job (jobs (storage w)),
     ensured_applications now applicationId resume
       (mkPatch (JobPosting.id job) None
          (Some match list_find (fun cl => CoverLetter.jobId cl = JobPosting.id job
                                           /\ CoverLetter.content cl = text)
                             (coverLetters (storage w)) with
                | Some (_, dup) => CoverLetter.id dup
                | None => id
                end)
          None (Some (js "draft")))
       (applications (storage w))).
Proof.
  intros Htext. unfold saveGeneratedContent. rewrite Htext. cbn [negb].
  destruct (list_find _ (coverLetters (storage w))) as [[i dup]|] eqn:Hfind.
  - set (w1 := mkWorld (storage w) (firestore w)
                 (mkUi (optimizedResume (popup w))
                       (Some (mkGenerated (CoverLetter.id dup) text
                                (CoverLetter.createdDate dup)))
                       (applicationStatus (popup w)) (alerts (popup w)))).
    pose proof (records_after_save now job resume applicationId
                  (mkPatch (JobPosting.id job) None (Some (CoverLetter.id dup))
                     None (Some (js "draft")))
                  (ok_mark ++ js "This cover letter already exists in database")
                  (ret tt) w1 (steady_ret records tt)) as H.
    unfold try_catch, bind, get_storage, setCoverLetter, put_popup in *.
    cbn [ret] in H. rewrite Hfind.
    fold w1.
    destruct (ensureApplication _ _ _ _ _ _ _ w1) as [[[]|e] w2]; exact H.
  - set (w1 := mkWorld (set_coverLetters
                          (coverLetters (storage w)
                           ++ [CoverLetter.mk id (JobPosting.id job) text now])
                          (storage w))
                 (firestore w)
                 (mkUi (optimizedResume (popup w)) (Some (mkGenerated id text now))
                       (applicationStatus (popup w)) (alerts (popup w)))).
    pose proof (records_after_save now job resume applicationId
                  (mkPatch (JobPosting.id job) None (Some id) None (Some (js "draft")))
                  (ok_mark ++ js "Cover letter saved to database")
                  (tryCloudSyncCoverLetter toLowerCase cfg now
                     (CoverLetter.mk id (JobPosting.id job) text now))
                  w1 (records_push _ _ _ _ _)) as H.
    unfold try_catch, bind, get_storage, setCoverLetter, put_popup, put_storage in *.
    rewrite Hfind.
    cbn [storage firestore popup optimizedResume coverLetter applicationStatus alerts].
    fold w1. exact H.
Qed.

(** A second save of a text finds the record that the first one found or
    pushed, so [ensureApplication] is handed the same patch and has nothing
    left to change. *)
Lemma save_cover_twice_records now now' text job resume id applicationId
    id' applicationId' w :
  let w1 := (saveGeneratedContent toLowerCase cfg now text RewriteCover job resume
               id applicationId w).2 in
  records (saveGeneratedContent toLowerCase cfg now' text RewriteCover job resume
             id' applicationId' w1).2
  = records w1.
Proof.
  cbv zeta. destruct (decide (text = [])) as [->|Hne]; [done|].
  pose proof (nonempty_true text Hne) as Htext.
  pose proof (save_cover_effect now text job resume id applicationId w Htext) as HK.
  pose proof (save_cover_records now text job resume id applicationId w Htext) as H1.
  set (w1 := (saveGeneratedContent toLowerCase cfg now text RewriteCover job
                resume id applicationId w).2) in *.
  rewrite (save_cover_records now' text job resume id' applicationId' w1 Htext), H1.
  unfold records in H1. injection H1 as -> ->.
  set (Q := fun cl => CoverLetter.jobId cl = JobPosting.id job
                      /\ CoverLetter.content cl = text) in *.
  assert (match list_find Q (coverLetters (storage w1)) with
          | Some (_, dup) => CoverLetter.id dup
          | None => id'
          end
          = match list_find Q (coverLetters (storage w)) with
            | Some (_, dup) => CoverLetter.id dup
            | None => id
            end) as ->.
  { unfold kept in HK.
    destruct (list_find Q (coverLetters (storage w))) as [[i dup]|] eqn:Hfind.
    - replace (coverLetters (storage w1)) with (coverLetters (storage w))
        by congruence.
      by rewrite Hfind.
    - replace (coverLetters (storage w1))
        with (coverLetters (storage w)
              ++ [CoverLetter.mk id (JobPosting.id job) text now])
        by congruence.
      by rewrite (find_pushed Q _ (CoverLetter.mk id (JobPosting.id job) text now)
                    Hfind). }
  rewrite ensured_jobs_twice, ensured_applications_twice; [done|].
  by apply assign_patch_created.
Qed.

Lemma save_resume_twice_records now now' text job resume id applicationId
    id' applicationId' w :
  id <> [] ->
  Forall (fun o => OptimizedResume.id o <> []) (optimizedResumes (storage w)) ->
  let w1 := (saveGeneratedContent toLowerCase cfg now text RewriteResume job resume
               id applicationId w).2 in
  records (saveGeneratedContent toLowerCase cfg now' text RewriteResume job resume
             id' applicationId' w1).2
  = records w1.
Proof.
  intros Hid Hids. cbv zeta. destruct (decide (text = [])) as [->|Hne]; [done|].
  pose proof (nonempty_true text Hne) as Htext.
  pose proof (save_resume_effect now text job resume id applicationId w Htext) as HK.
  pose proof (save_resume_records now text job resume id applicationId w Htext) as H1.
  set (w1 := (saveGeneratedContent toLowerCase cfg now text RewriteResume job
                resume id applicationId w).2) in *.
  rewrite (save_resume_records now' text job resume id' applicationId' w1 Htext), H1.
  unfold records in H1. injection H1 as -> ->.
  set (Q := fun o => OptimizedResume.jobId o = JobPosting.id job
                     /\ OptimizedResume.parsedText o = text) in *.
  assert (match list_find Q (optimizedResumes (storage w1)) with
          | Some (_, dup) => OptimizedResume.id dup
          | None => id'
          end
          = match list_find Q (optimizedResumes (storage w)) with
            | Some (_, dup) => OptimizedResume.id dup
            | None => id
            end) as ->.
  { unfold kept in HK.
    destruct (list_find Q (optimizedResumes (storage w))) as [[i dup]|] eqn:Hfind.
    - replace (optimizedResumes (storage w1)) with (optimizedResumes (storage w))
        by congruence.
      by rewrite Hfind.
    - replace (optimizedResumes (storage w1))
        with (optimizedResumes (storage w) ++ [new_optimized now text job resume id])
        by congruence.
      by rewrite (find_pushed Q _ (new_optimized now text job resume id) Hfind). }
  rewrite ensured_jobs_twice, ensured_applications_twice; [done|].
  apply assign_patch_created. intros r [= <-].
  destruct (list_find Q (optimizedResumes (storage w))) as [[i dup]|] eqn:Hfind; [|done].
  apply list_find_Some in Hfind as (Hi & _ & _).
  by eapply (Forall_lookup_1 _ _ _ _ Hids).
Qed.

(** C7. When an optimized resume (a cover letter) with the text to save is
    stored for the job, the stored lists are left as they are, and for a
    text that is not empty the popup points at a stored record with that
    text: its id is the one used. Saving a text a second time for the job,
    whatever id and time the second call draws, leaves the stored lists as
    the first call left them; so it leaves the jobs and the applications,
    which [ensureApplication] writes on every save (for a resume, when the
    ids of the optimized resumes are not empty, as those of [generateId]
    are: an empty id is not assigned to a new application but is to a
    stored one). *)
Theorem saveGeneratedContent_no_duplicate (now now' : number) (text : jsstring)
    (job : JobPosting.t) (resume : Resume.t) (id applicationId id' applicationId' : jsstring)
    (w : world) :
  let save := fun ty =>
    saveGeneratedContent toLowerCase cfg now text ty job resume id applicationId in
  let save_again := fun ty =>
    saveGeneratedContent toLowerCase cfg now' text ty job resume id' applicationId' in
  (forall existing,
     existing ∈ optimizedResumes (storage w) ->
     OptimizedResume.jobId existing = JobPosting.id job ->
     OptimizedResume.parsedText existing = text ->
     lists (save RewriteResume w).2 = lists w
     /\ (text <> [] ->
         exists dup, dup ∈ optimizedResumes (storage w)
           /\ OptimizedResume.jobId dup = JobPosting.id job
           /\ OptimizedResume.parsedText dup = text
           /\ optimizedResume (popup (save RewriteResume w).2)
              = Some (mkGenerated (OptimizedResume.id dup) text
                        (OptimizedResume.uploadDate dup))))
  /\ (forall existing,
        existing ∈ coverLetters (storage w) ->
        CoverLetter.jobId existing = JobPosting.id job ->
        CoverLetter.content existing = text ->
        lists (save RewriteCover w).2 = lists w
        /\ (text <> [] ->
            exists dup, dup ∈ coverLetters (storage w)
              /\ CoverLetter.jobId dup = JobPosting.id job
              /\ CoverLetter.content dup = text
              /\ coverLetter (popup (save RewriteCover w).2)
                 = Some (mkGenerated (CoverLetter.id dup) text
                           (CoverLetter.createdDate dup))))
  /\ (forall ty, lists (save_again ty (save ty w).2).2 = lists (save ty w).2)
  /\ records (save_again RewriteCover (save RewriteCover w).2).2
     = records (save RewriteCover w).2
  /\ (id <> [] ->
      Forall (fun o => OptimizedResume.id o <> []) (optimizedResumes (storage w)) ->
      records (save_again RewriteResume (save RewriteResume w).2).2
      = records (save RewriteResume w).2).
Proof.
  intros save save_again. subst save save_again. cbv beta.
  destruct (decide (text = [])) as [->|Hne].
  { repeat split; done. }
  pose proof (nonempty_true text Hne) as Htext.
  split; [|split; [|split; [|split]]];
    [| | |apply save_cover_twice_records
     |intros Hid Hids; by apply save_resume_twice_records].
  - intros existing Hin Hjob Htxt.
    destruct (find_stored (fun o => OptimizedResume.jobId o = JobPosting.id job
                                    /\ OptimizedResume.parsedText o = text)
                _ existing Hin (conj Hjob Htxt)) as (i & dup & Hfind & Hdup & Hj & Ht).
    pose proof (save_resume_effect now text job resume id applicationId w Htext) as H.
    rewrite Hfind in H. unfold kept, lists in *.
    split; [congruence|]. intros _. exists dup. repeat split; try done. congruence.
  - intros existing Hin Hjob Htxt.
    destruct (find_stored (fun cl => CoverLetter.jobId cl = JobPosting.id job
                                     /\ CoverLetter.content cl = text)
                _ existing Hin (conj Hjob Htxt)) as (i & dup & Hfind & Hdup & Hj & Ht).
    pose proof (save_cover_effect now text job resume id applicationId w Htext) as H.
    rewrite Hfind in H. unfold kept, lists in *.
    split; [congruence|]. intros _. exists dup. repeat split; try done. congruence.
  - intros [|].
    + pose proof (save_resume_effect now text job resume id applicationId w Htext) as H1.
      set (w1 := (saveGeneratedContent toLowerCase cfg now text RewriteResume job
                    resume id applicationId w).2) in *.
      pose proof (save_resume_effect now' text job resume id' applicationId' w1 Htext)
        as H2.
      assert (Hdup : exists x, x ∈ optimizedResumes (storage w1)
                     /\ OptimizedResume.jobId x = JobPosting.id job
                     /\ OptimizedResume.parsedText x = text).
      { unfold kept in H1.
        destruct (list_find _ (optimizedResumes (storage w))) as [[i dup]|] eqn:Hfind.
        - apply list_find_Some in Hfind as (Hi & [Hj Ht] & _).
          exists dup. split; [|done].
          replace (optimizedResumes (storage w1)) with (optimizedResumes (storage w))
            by congruence.
          by eapply list_elem_of_lookup_2.
        - exists (new_optimized now text job resume id). split; [|done].
          replace (optimizedResumes (storage w1))
            with (optimizedResumes (storage w) ++ [new_optimized now text job resume id])
            by congruence.
          apply elem_of_app. right. apply list_elem_of_singleton. done. }
      destruct Hdup as (x & Hx & Hj & Ht).
      destruct (find_stored (fun o => OptimizedResume.jobId o = JobPosting.id job
                                      /\ OptimizedResume.parsedText o = text)
                  _ x Hx (conj Hj Ht)) as (i & dup & Hfind & _).
      rewrite Hfind in H2. unfold kept, lists in *. congruence.
    + pose proof (save_cover_effect now text job resume id applicationId w Htext) as H1.
      set (w1 := (saveGeneratedContent toLowerCase cfg now text RewriteCover job
                    resume id applicationId w).2) in *.
      pose proof (save_cover_effect now' text job resume id' applicationId' w1 Htext)
        as H2.
      assert (Hdup : exists x, x ∈ coverLetters (storage w1)
                     /\ CoverLetter.jobId x = JobPosting.id job
                     /\ CoverLetter.content x = text).
      { unfold kept in H1.
        destruct (list_find _ (coverLetters (storage w))) as [[i dup]|] eqn:Hfind.
        - apply list_find_Some in Hfind as (Hi & [Hj Ht] & _).
          exists dup. split; [|done].
          replace (coverLetters (storage w1)) with (coverLetters (storage w))
            by congruence.
          by eapply list_elem_of_lookup_2.
        - exists (CoverLetter.mk id (JobPosting.id job) text now). split; [|done].
          replace (coverLetters (storage w1))
            with (coverLetters (storage w)
                  ++ [CoverLetter.mk id (JobPosting.id job) text now])
            by congruence.
          apply elem_of_app. right. apply list_elem_of_singleton. done. }
      destruct Hdup as (x & Hx & Hj & Ht).
      destruct (find_stored (fun cl => CoverLetter.jobId cl = JobPosting.id job
                                       /\ CoverLetter.content cl = text)
                  _ x Hx (conj Hj Ht)) as (i & dup & Hfind & _).
      rewrite Hfind in H2. unfold kept, lists in *. congruence.
Qed.

End SyncFacts.

Lemma cloud_sync_is_optional_witness :
  tryCloudSyncResume Score.ascii_lower env_without_firebase (of_Z 1700000000001)
    (sample_resume "r2" false) sample_world = (Return tt, sample_world)
  /\ tryCloudPullAllToLocal Score.ascii_lower (fun _ => []) (fun _ => NaN)
       env_without_firebase (of_Z 1700000000001) sample_world
     = (Return tt, sample_world).
Proof.
  pose proof (cloud_sync_is_optional Score.ascii_lower (fun _ => []) (fun _ => NaN)
                env_without_firebase (of_Z 1700000000001) sample_world)
    as H.
  destruct H as (H1 & _ & _ & _ & _ & _ & _ & _ & H9 & _); [vm_compute; reflexivity|].
  split; [apply H1|apply H9].
Defined.

Lemma saveJob_keeps_urls_unique_witness :
  NoDup (JobPosting.url <$> jobs (saveJob (sample_job "j2" "https://acme.example/1")
                                           (storage sample_world)))
  /\ length (jobs (saveJob (sample_job "j2" "https://acme.example/1")
                           (storage sample_world))) = 1.
Proof.
  assert (Hnd : NoDup (JobPosting.url <$> jobs (storage sample_world))).
  { apply NoDup_singleton. }
  destruct (saveJob_keeps_urls_unique (sample_job "j2" "https://acme.example/1")
              (storage sample_world) Hnd) as (H1 & H2 & _).
  split; [exact H1|].
  destruct (H2 0 (sample_job "j1" "https://acme.example/1") eq_refl eq_refl) as [_ H].
  exact H.
Defined.

(** [String(v)] on the values of the examples. *)
Definition sample_ToString (v : jsval) : jsstring :=
  match v with
  | VStr s => s
  | _ => []
  end.




Lemma saveGeneratedContent_no_duplicate_witness :
  lists (saveGeneratedContent Score.ascii_lower env_with_firebase (of_Z 1700000000001)
           (js "Python developer, SQL") RewriteResume
           (sample_job "j1" "https://acme.example/1") (sample_resume "r1" true)
           (js "o2") (js "a2") sample_world).2
  = lists sample_world
  /\ records
       (saveGeneratedContent Score.ascii_lower env_with_firebase (of_Z 1700000000002)
          (js "Python developer, SQL") RewriteResume
          (sample_job "j1" "https://acme.example/1") (sample_resume "r1" true)
          (js "o3") (js "a3")
          (saveGeneratedContent Score.ascii_lower env_with_firebase
             (of_Z 1700000000001) (js "Python developer, SQL") RewriteResume
             (sample_job "j1" "https://acme.example/1") (sample_resume "r1" true)
             (js "o2") (js "a2") sample_world).2).2
     = records
         (saveGeneratedContent Score.ascii_lower env_with_firebase
            (of_Z 1700000000001) (js "Python developer, SQL") RewriteResume
            (sample_job "j1" "https://acme.example/1") (sample_resume "r1" true)
            (js "o2") (js "a2") sample_world).2.
Proof.
  destruct (saveGeneratedContent_no_duplicate Score.ascii_lower env_with_firebase
              (of_Z 1700000000001) (of_Z 1700000000002) (js "Python developer, SQL")
              (sample_job "j1" "https://acme.example/1") (sample_resume "r1" true)
              (js "o2") (js "a2") (js "o3") (js "a3") sample_world)
    as (H & _ & _ & _ & Htwice).
  split.
  - destruct (H (sample_optimized "o1" "Python developer, SQL")) as [Hl _].
    + by apply list_elem_of_singleton.
    + reflexivity.
    + reflexivity.
    + exact Hl.
  - apply Htwice; [discriminate|]. repeat constructor. discriminate.
Defined.

End Storage.

(** ** The request and repair flow of generateOptimizedResume
    (src/src/popup/utils/download.ts) *)
Module Generate.

Import Num Effect.

(** *** Strings *)

Fixpoint drop_spaces (s : jsstring) : jsstring :=
  match s with
  | [] => []
  | c :: r => if Score.is_space c then drop_spaces r else s
  end.

(** [String.prototype.trim] *)
Definition trim (s : jsstring) : jsstring :=
  reverse (drop_spaces (reverse (drop_spaces s))).

(** Whether [s] starts with [pat], the code units compared by [eqc]. *)
Fixpoint starts_with (eqc : N -> N -> bool) (pat s : jsstring) : bool :=
  match pat, s with
  | [], _ => true
  | _ :: _, [] => false
  | p :: pat', c :: s' => eqc p c && starts_with eqc pat' s'
  end.

(** [s.replace(/pat/g, '')] for a literal, non-empty [pat]: the matches are
    taken from the left and do not overlap. [skip] code units of a match
    are still to be dropped. *)
Fixpoint remove_from (eqc : N -> N -> bool) (pat : jsstring) (skip : nat)
    (s : jsstring) : jsstring :=
  match s with
  | [] => []
  | c :: r =>
      match skip with
      | S k => remove_from eqc pat k r
      | O => if starts_with eqc pat s
             then remove_from eqc pat (length pat - 1) r
             else c :: remove_from eqc pat 0 r
      end
  end.

Definition remove_all (eqc : N -> N -> bool) (pat s : jsstring) : jsstring :=
  remove_from eqc pat 0 s.

(** Equality of code units under the [i] flag: the letters A-Z and a-z
    match in both cases, and no other code unit matches a letter. *)
Definition eq_ignoring_case (a b : N) : bool :=
  let upper := fun c : N => (if (97 <=? c) && (c <=? 122) then c - 32 else c)%N in
  (upper a =? upper b)%N.

(** [s.includes(needle)] *)
Fixpoint includes (needle s : jsstring) : bool :=
  starts_with N.eqb needle s
  || match s with
     | [] => false
     | _ :: r => includes needle r
     end.

(** [s.indexOf(c)] and [s.lastIndexOf(c)]; [None] is -1. *)
Fixpoint indexOf (c : N) (s : jsstring) : option nat :=
  match s with
  | [] => None
  | x :: r => if (x =? c)%N then Some 0%nat else S <$> indexOf c r
  end.

Definition lastIndexOf (c : N) (s : jsstring) : option nat :=
  (fun i => length s - 1 - i)%nat <$> indexOf c (reverse s).

(** [parts.join('\n')] *)
Fixpoint join_lines (parts : list jsstring) : jsstring :=
  match parts with
  | [] => []
  | [p] => p
  | p :: r => p ++ 10%N :: join_lines r
  end.

Definition backticks : jsstring := js "```".

Definition extractJsonObject (text : jsstring) : jsstring :=
  let cleaned := trim (remove_all N.eqb backticks
                         (remove_all eq_ignoring_case (js "```json") text)) in
  match indexOf 123 cleaned, lastIndexOf 125 cleaned with
  | Some start, Some end_ =>
      if (end_ <=? start)%nat then cleaned
      else slice cleaned (Z.of_nat start) (Z.of_nat end_ + 1)
  | _, _ => cleaned
  end.

Example extractJsonObject_fenced :
  extractJsonObject (js "Here: ```JSON {[1, {}]} ``` done") = js "{[1, {}]}".
Proof. vm_compute. reflexivity. Qed.

(** *** Parsed JSON

    What [JSON.parse] returns; [JUndefined] is what reading a property
    that is missing gives. The entries of an object are in the order of
    [Object.entries]. *)
#[local] Unset Elimination Schemes.
Inductive json :=
  | JUndefined
  | JNull
  | JBool (b : bool)
  | JNum (n : number)
  | JStr (s : jsstring)
  | JArr (items : list json)
  | JObj (entries : list (jsstring * json)).
#[local] Set Elimination Schemes.

(** [v?.k] *)
Definition prop (v : json) (k : string) : json :=
  match v with
  | JObj entries =>
      match list_find (fun e => e.1 = js k) entries with
      | Some (_, (_, x)) => x
      | None => JUndefined
      end
  | _ => JUndefined
  end.

Definition truthy (v : json) : bool :=
  match v with
  | JUndefined | JNull => false
  | JBool b => b
  | JNum n => match n with S754_zero _ | S754_nan => false | _ => true end
  | JStr s => bool_decide (s <> [])
  | JArr _ | JObj _ => true
  end.

(** [Object.entries(v)] when [typeof v === 'object' && v !== null]. *)
Definition entries_of (v : json) : option (list (jsstring * json)) :=
  match v with
  | JObj entries => Some entries
  | JArr items => Some (imap (fun i x => (js (pretty i), x)) items)
  | _ => None
  end.

(** The integer a double is, if it is one. *)
Definition to_integer (x : number) : option Z :=
  match x with
  | S754_zero _ => Some 0%Z
  | S754_finite s m e =>
      let sign := fun z : Z => if s then (- z)%Z else z in
      if (0 <=? e)%Z then Some (sign (Z.pos m * 2 ^ e)%Z)
      else if (Z.pos m mod 2 ^ (- e) =? 0)%Z then Some (sign (Z.pos m / 2 ^ (- e))%Z)
      else None
  | _ => None
  end.

(** [if (!Number.isNaN(idx) && idx >= 1 && idx <= original.length)
    newParagraphs[idx - 1] = text]; an index that is not an integer writes
    a property that is no element of the array. *)
Definition set_paragraph (count : nat) (newParagraphs : list jsstring)
    (idx : number) (text : jsstring) : list jsstring :=
  if SFleb (of_Z 1) idx && SFleb idx (of_Z (Z.of_nat count))
  then match to_integer idx with
       | Some z => <[Z.to_nat (z - 1) := text]> newParagraphs
       | None => newParagraphs
       end
  else newParagraphs.

Section Flow.

(** The engine: [JSON.parse] ([None] when it throws), [String(v)],
    [Number(v)], [parseInt(key, 10)], [toLowerCase]; and the helpers of the
    file that are regular expressions all through. *)
Variable JSON_parse : jsstring -> option json.
Variable ToString : json -> jsstring.
Variable ToNumber : json -> number.
Variable parseInt : jsstring -> number.
Variable toLowerCase : jsstring -> jsstring.
Variable stripMarkdownArtifacts : jsstring -> jsstring.
Variable containsPlaceholderTokens : jsstring -> bool.
Variable extractEmail : jsstring -> option jsstring.
Variable missingKeywordsFromText : jsstring -> list jsstring -> list jsstring.

(** [stripMarkdownArtifacts(String(v ?? '')).replace(/\n/g, '')] *)
Definition clean_paragraph (v : json) : jsstring :=
  let text := match v with
              | JUndefined | JNull => []
              | _ => ToString v
              end in
  filter (fun c => c <> 10%N) (stripMarkdownArtifacts text).

Definition mergeParagraphsJson (raw : jsstring) (original : list jsstring)
  : outcome jsstring (list jsstring) :=
  match JSON_parse (extractJsonObject raw) with
  | None => Throw (js "AI did not return valid JSON for DOCX content.")
  | Some parsed =>
      match prop parsed "paragraphs" with
      | JArr arr =>
          if bool_decide (length arr <> length original)
          then Throw (js "AI returned full paragraph list but count mismatch: expected "
                      ++ js (pretty (length original)) ++ js ", got "
                      ++ js (pretty (length arr)) ++ js ".")
          else Return (map clean_paragraph arr)
      | _ =>
          match prop parsed "replacements" with
          | JArr items =>
              Return (foldl (fun ps item =>
                               set_paragraph (length original) ps
                                 (ToNumber (prop item "index"))
                                 (clean_paragraph (prop item "text")))
                            original items)
          | r =>
              let replacements := if truthy r then r else parsed in
              match entries_of replacements with
              | Some entries =>
                  Return (foldl (fun ps kv =>
                                   set_paragraph (length original) ps
                                     (parseInt kv.1) (clean_paragraph kv.2))
                                original entries)
              | None => Throw (js "AI JSON is not a valid replacements format.")
              end
          end
      end
  end.

(** *** The requests

    A prompt is a fixed text around the data it quotes; a request is known
    by which prompt it is and by that data. *)
Inductive request :=
  | Initial
  | ParseRepair (raw : jsstring)
  | PlaceholderRepair (cleaned : jsstring)
  | Refine (missing : list jsstring) (cleaned : jsstring).

Definition is_parse_repair (r : request) : bool :=
  match r with ParseRepair _ => true | _ => false end.

(** An exception: whether its name is AbortError, and its message. *)
Record exn := mkExn { aborted : bool; message : jsstring }.

Definition error (m : jsstring) : exn := mkExn false m.

Inductive reply :=
  | Reply (text : jsstring)
  | Failed (e : exn).

(** The model answers a request knowing the requests before it. *)
Variable llm : list request -> request -> reply.

(** The provider chosen in the settings ([settings.aiProvider ===
    'gemini']), and whether its API key is set. *)
Variable gemini : bool.
Variable api_key_present : bool.

(** The state is the list of the requests sent so far. *)
Abbreviation G := (eff exn (list request)).

Definition runOnce (p : request) : G jsstring :=
  if negb api_key_present
  then throw (error (if gemini then js "Gemini API key is missing"
                     else js "OpenAI API key is missing"))
  else fun sent => match llm sent p with
                   | Reply text => (Return text, sent ++ [p])
                   | Failed e => (Throw e, sent ++ [p])
                   end.

(** A pure step that may throw, as a computation. *)
Definition lift {A} (o : outcome jsstring A) : G A :=
  match o with
  | Return a => ret a
  | Throw m => throw (error m)
  end.

Section Run.

Variable original : option (list jsstring).
Variable resumeText : jsstring.
Variable jobDescription : jsstring.
Variable targetKeywords : list jsstring.

(** The answer to a prompt as resume text: the paragraphs merged and joined
    for a DOCX resume, the text without fences otherwise. *)
Definition merged (raw : jsstring) (ps : list jsstring) : G jsstring :=
  let! paragraphs := lift (mergeParagraphsJson raw ps) in
  ret (join_lines paragraphs).

Definition plain (raw : jsstring) : jsstring :=
  trim (remove_all N.eqb backticks raw).

(** From the first request to the first draft: a DOCX answer that does not
    parse is asked for again, once. *)
Definition first_draft : G jsstring :=
  let! raw := runOnce Initial in
  let raw := trim raw in
  match original with
  | Some ps =>
      try_catch (merged raw ps)
        (fun _ => let! raw2 := runOnce (ParseRepair raw) in
                  merged (trim raw2) ps)
  | None => ret (trim (remove_all N.eqb backticks (stripMarkdownArtifacts raw)))
  end.

Definition needs_email (cleaned : jsstring) : bool :=
  match extractEmail resumeText with
  | Some resumeEmail => bool_decide (resumeEmail <> []) && negb (includes resumeEmail cleaned)
  | None => false
  end.

(** From the first draft on: the repair of placeholders, the refinement
    pass, and the last checks. *)
Definition finish (cleaned : jsstring) : G jsstring :=
  (if bool_decide (cleaned = []) then throw (error (js "AI returned empty resume text"))
   else ret tt) ;;
  let needsRetry := containsPlaceholderTokens cleaned || needs_email cleaned in
  let! cleaned :=
    (if needsRetry
     then let! raw2 := runOnce (PlaceholderRepair cleaned) in
          match original with
          | Some ps => merged (trim raw2) ps
          | None => ret (plain raw2)
          end
     else ret cleaned) in
  let pass1Heuristic := Score.computeHeuristicScore toLowerCase cleaned jobDescription in
  let missingAfterPass1 := missingKeywordsFromText cleaned targetKeywords in
  let! cleaned :=
    (if (bool_decide (missingAfterPass1 <> []) || SFltb pass1Heuristic (of_Z 95))
        && bool_decide (targetKeywords <> [])
     then let! refinedRaw := runOnce (Refine missingAfterPass1 cleaned) in
          let refinedRaw := trim refinedRaw in
          match original with
          | Some ps =>
              try_catch
                (let! paragraphs := lift (mergeParagraphsJson refinedRaw ps) in
                 ret (if bool_decide (paragraphs <> []) then join_lines paragraphs
                      else cleaned))
                (fun _ => ret cleaned)
          | None =>
              let refined := plain refinedRaw in
              ret (if bool_decide (refined <> []) then refined else cleaned)
          end
     else ret cleaned) in
  if bool_decide (cleaned = []) then throw (error (js "AI returned empty resume text"))
  else if containsPlaceholderTokens cleaned
  then throw (error (js "Generated resume still contains placeholders. Please ensure your resume text includes your real details (name/email/phone) and try again."))
  else if needs_email cleaned
  then throw (error (js "Generated resume removed your email. Please try again."))
  else ret cleaned.

(** What the modal ends with. *)
Inductive rewrite_status :=
  | Shown (text : jsstring)
  | Cancelled
  | Errored (message : jsstring).

(** [generateOptimizedResume], from the first request on; [has_result] is
    whether an analysis is there ([if (!result) return]). The result is
    [None] when nothing was done. *)
Definition generateOptimizedResume (has_result : bool)
  : option rewrite_status * list request :=
  if negb has_result then (None, [])
  else match (let! cleaned := first_draft in finish cleaned) [] with
       | (Return cleaned, sent) => (Some (Shown cleaned), sent)
       | (Throw e, sent) =>
           (Some (if aborted e then Cancelled
                  else Errored (if bool_decide (message e <> []) then message e
                                else js "Failed to generate optimized resume")),
            sent)
       end.

End Run.

(** *** What is sent *)

(** [m] sends at most [n] requests, all of them in [P]. *)
Definition sends {A} (P : request -> Prop) (n : nat) (m : G A) : Prop :=
  forall sent, exists rest,
    (m sent).2 = sent ++ rest /\ Forall P rest /\ (length rest <= n)%nat.

Lemma sends_ret {A} P n (a : A) : sends P n (ret a).
Proof. intros sent. exists []. rewrite app_nil_r. repeat split; [done|simpl; lia]. Qed.

Lemma sends_throw {A} P n (e : exn) : sends P n (throw e : G A).
Proof. intros sent. exists []. rewrite app_nil_r. repeat split; [done|simpl; lia]. Qed.

Lemma sends_lift {A} P n (o : outcome jsstring A) : sends P n (lift o).
Proof. destruct o; [apply sends_ret|apply sends_throw]. Qed.

Lemma sends_bind {A B} P n k (m : G A) (f : A -> G B) :
  sends P n m -> (forall a, sends P k (f a)) -> sends P (n + k) (bind m f).
Proof.
  intros Hm Hf sent. unfold bind. destruct (Hm sent) as (r1 & H1 & HP1 & Hl1).
  destruct (m sent) as [[a|e] sent1]; cbn [snd] in *.
  - destruct (Hf a sent1) as (r2 & H2 & HP2 & Hl2).
    exists (r1 ++ r2). rewrite H2, H1, app_assoc, length_app.
    split; [done|]. split; [by apply Forall_app|lia].
  - exists r1. split; [done|]. split; [done|lia].
Qed.

Lemma sends_try_catch {A} P n k (m : G A) (h : exn -> G A) :
  sends P n m -> (forall e, sends P k (h e)) -> sends P (n + k) (try_catch m h).
Proof.
  intros Hm Hh sent. unfold try_catch. destruct (Hm sent) as (r1 & H1 & HP1 & Hl1).
  destruct (m sent) as [[a|e] sent1]; cbn [snd] in *.
  - exists r1. split; [done|]. split; [done|lia].
  - destruct (Hh e sent1) as (r2 & H2 & HP2 & Hl2).
    exists (r1 ++ r2). rewrite H2, H1, app_assoc, length_app.
    split; [done|]. split; [by apply Forall_app|lia].
Qed.

Lemma sends_runOnce (P : request -> Prop) p : P p -> sends P 1 (runOnce p).
Proof.
  intros Hp sent. unfold runOnce.
  destruct (negb api_key_present); [exists []; by rewrite app_nil_r; auto|].
  exists [p]. destruct (llm sent p); cbn [snd]; repeat split; auto.
Qed.

Lemma sends_merged P raw ps : sends P 0 (merged raw ps).
Proof.
  unfold merged. apply (sends_bind P 0 0); [apply sends_lift|].
  intros a. apply sends_ret.
Qed.

Definition after_draft (r : request) : Prop :=
  match r with
  | PlaceholderRepair _ | Refine _ _ => True
  | Initial | ParseRepair _ => False
  end.

(** After the first draft at most two requests are sent: one to repair
    placeholders, one to refine. *)
Lemma sends_finish original resumeText jobDescription targetKeywords cleaned :
  sends after_draft 2
    (finish original resumeText jobDescription targetKeywords cleaned).
Proof.
  unfold finish. cbv zeta.
  apply (sends_bind after_draft 0 2).
  { destruct (bool_decide _); [apply sends_throw|apply sends_ret]. }
  intros _. apply (sends_bind after_draft 1 1).
  { destruct (_ || _); [|apply sends_ret].
    apply (sends_bind after_draft 1 0); [by apply sends_runOnce|].
    intros raw2. destruct original; [apply sends_merged|apply sends_ret]. }
  intros cleaned1. apply (sends_bind after_draft 1 0).
  { destruct (_ && _); [|apply sends_ret].
    apply (sends_bind after_draft 1 0); [by apply sends_runOnce|].
    intros refinedRaw. destruct original; [|apply sends_ret].
    apply (sends_try_catch after_draft 0 0); [|intros; apply sends_ret].
    apply (sends_bind after_draft 0 0); [apply sends_lift|].
    intros; apply sends_ret. }
  intros cleaned2.
  destruct (bool_decide _); [apply sends_throw|].
  destruct (containsPlaceholderTokens _); [apply sends_throw|].
  destruct (needs_email _ _); [apply sends_throw|apply sends_ret].
Qed.

(** The first draft when the first answer does not parse. *)
Lemma first_draft_repair ps raw m :
  api_key_present = true ->
  llm [] Initial = Reply raw ->
  mergeParagraphsJson (trim raw) ps = Throw m ->
  first_draft (Some ps) []
  = match llm [Initial] (ParseRepair (trim raw)) with
    | Reply raw2 =>
        match mergeParagraphsJson (trim raw2) ps with
        | Return paragraphs =>
            (Return (join_lines paragraphs), [Initial; ParseRepair (trim raw)])
        | Throw m2 => (Throw (error m2), [Initial; ParseRepair (trim raw)])
        end
    | Failed e => (Throw e, [Initial; ParseRepair (trim raw)])
    end.
Proof.
  intros Hkey Hllm Hmerge.
  unfold first_draft, bind, try_catch, runOnce, merged, bind.
  rewrite Hkey. cbn [negb]. rewrite Hllm. cbn [app]. rewrite Hmerge. cbn [lift throw].
  destruct (llm [Initial] (ParseRepair (trim raw))) as [raw2|e]; [|done].
  by destruct (mergeParagraphsJson (trim raw2) ps).
Qed.

(** C2. When the answer to the first request of a DOCX resume does not
    parse as replacements, the second request is the repair of that answer
    and no later request is one: what follows is at most the repair of
    placeholders and the refinement. When the answer to the repair does not
    parse either, or the repair request fails, the generation ends there
    with the two requests sent, as an error in the first case. *)
Theorem parse_failure_is_repaired_once (resumeText jobDescription : jsstring)
    (targetKeywords ps : list jsstring) (raw m : jsstring) :
  api_key_present = true ->
  llm [] Initial = Reply raw ->
  mergeParagraphsJson (trim raw) ps = Throw m ->
  let run := generateOptimizedResume (Some ps) resumeText jobDescription
               targetKeywords true in
  (exists rest,
     run.2 = Initial :: ParseRepair (trim raw) :: rest
     /\ Forall after_draft rest /\ (length rest <= 2)%nat
     /\ length (filter (fun r => is_parse_repair r = true) run.2) = 1%nat)
  /\ (forall raw2 m2,
        llm [Initial] (ParseRepair (trim raw)) = Reply raw2 ->
        mergeParagraphsJson (trim raw2) ps = Throw m2 ->
        run = (Some (Errored (if bool_decide (m2 <> []) then m2
                              else js "Failed to generate optimized resume")),
               [Initial; ParseRepair (trim raw)]))
  /\ (forall e,
        llm [Initial] (ParseRepair (trim raw)) = Failed e ->
        run.2 = [Initial; ParseRepair (trim raw)]).
Proof.
  intros Hkey Hllm Hmerge run. subst run. unfold generateOptimizedResume.
  cbn [negb].
  assert (Hrun :
    (let! cleaned := first_draft (Some ps) in
     finish (Some ps) resumeText jobDescription targetKeywords cleaned) []
    = match llm [Initial] (ParseRepair (trim raw)) with
      | Reply raw2 =>
          match mergeParagraphsJson (trim raw2) ps with
          | Return paragraphs =>
              finish (Some ps) resumeText jobDescription targetKeywords
                (join_lines paragraphs) [Initial; ParseRepair (trim raw)]
          | Throw m2 => (Throw (error m2), [Initial; ParseRepair (trim raw)])
          end
      | Failed e => (Throw e, [Initial; ParseRepair (trim raw)])
      end).
  { unfold bind. rewrite (first_draft_repair ps raw m Hkey Hllm Hmerge).
    destruct (llm [Initial] (ParseRepair (trim raw))) as [raw2|e]; [|done].
    by destruct (mergeParagraphsJson (trim raw2) ps). }
  rewrite Hrun. clear Hrun.
  split; [|split].
  - assert (Hcount : forall rest, Forall after_draft rest ->
              length (filter (fun r => is_parse_repair r = true)
                        (Initial :: ParseRepair (trim raw) :: rest)) = 1%nat).
    { intros rest Hrest.
      rewrite filter_cons_False, filter_cons_True by done. cbn [length]. f_equal.
      rewrite Storage.filter_none; [done|].
      eapply Forall_impl; [exact Hrest|]. by intros [| | |]. }
    destruct (llm [Initial] (ParseRepair (trim raw))) as [raw2|e].
    + destruct (mergeParagraphsJson (trim raw2) ps) as [paragraphs|m2].
      * destruct (sends_finish (Some ps) resumeText jobDescription targetKeywords
                    (join_lines paragraphs) [Initial; ParseRepair (trim raw)])
          as (rest & Hrest & HP & Hlen).
        exists rest.
        destruct (finish _ _ _ _ _ _) as [[c|e] sent]; cbn [snd] in *;
          subst sent; repeat split; auto; try by apply (Hcount rest).
      * exists []. cbn [snd]. repeat split; auto; try by apply (Hcount []).
    + exists []. cbn [snd]. repeat split; auto; try by apply (Hcount []).
  - intros raw2 m2 -> ->. done.
  - intros e ->. done.
Qed.


End Flow.

(** A run with an engine that parses nothing but the empty object, and a
    model that answers every request with the same words. *)
Definition sample_parse (s : jsstring) : option json :=
  if bool_decide (s = js "{}") then Some (JObj []) else None.

Definition sample_run (answer : string) : option rewrite_status * list request :=
  generateOptimizedResume sample_parse (fun _ => []) (fun _ => NaN) (fun _ => NaN)
    Score.ascii_lower (fun s => s) (fun _ => false) (fun _ => None) (fun _ _ => [])
    (fun _ _ => Reply (js answer)) false true
    (Some [js "Jane Doe"; js "Python developer"]) (js "Jane Doe Python developer")
    (js "Senior Python developer") [] true.

Example run_parses :
  sample_run " {} " = (Some (Shown (js "Jane Doe" ++ 10%N :: js "Python developer")),
                       [Initial]).
Proof. vm_compute. reflexivity. Qed.

Lemma parse_failure_is_repaired_once_witness :
  sample_run "Sorry, I cannot." 
  = (Some (Errored (js "AI did not return valid JSON for DOCX content.")),
     [Initial; ParseRepair (js "Sorry, I cannot.")]).
Proof.
  destruct (parse_failure_is_repaired_once sample_parse (fun _ => []) (fun _ => NaN)
              (fun _ => NaN) Score.ascii_lower (fun s => s) (fun _ => false)
              (fun _ => None) (fun _ _ => [])
              (fun _ _ => Reply (js "Sorry, I cannot.")) false true
              (js "Jane Doe Python developer") (js "Senior Python developer") []
              [js "Jane Doe"; js "Python developer"] (js "Sorry, I cannot.")
              (js "AI did not return valid JSON for DOCX content.")
              eq_refl eq_refl eq_refl) as (_ & H & _).
  exact (H (js "Sorry, I cannot.")
           (js "AI did not return valid JSON for DOCX content.") eq_refl eq_refl).
Defined.

End Generate.

(** ** analyzeMatch, from the reply of the model on
    (src/src/popup/utils/download.ts) *)
Module Analyze.

Import Num Generate.

Section Reply.

(** The engine: [JSON.parse] ([None] when it throws), the number a string
    reads as ([StringToNumber] of ECMAScript), [String(v)] of an array or
    of an object, and [toLowerCase]. *)
Variable JSON_parse : jsstring -> option json.
Variable StringToNumber : jsstring -> number.
Variable ToString : json -> jsstring.
Variable toLowerCase : jsstring -> jsstring.

(** [Number(v)]: NaN for undefined, +0 for null and for false, 1 for true,
    a number as it is, a string as the number it reads as; an array or an
    object is turned into a string first. *)
Definition ToNumber (v : json) : number :=
  match v with
  | JUndefined => NaN
  | JNull => of_Z 0
  | JBool b => if b then of_Z 1 else of_Z 0
  | JNum n => n
  | JStr s => StringToNumber s
  | JArr _ | JObj _ => StringToNumber (ToString v)
  end.

(** [analyzeMatch] from [const jsonOnly = extractJsonObject(responseText)]
    on: the score of the result and the flag given to [setUsedHeuristic],
    or [None] when [JSON.parse] throws (the error is shown and no result is
    set). The heuristic score is that of the stored text of the resume. *)
Definition analyzeMatch (responseText resumeText jobText : jsstring)
  : option (number * bool) :=
  data ← JSON_parse (extractJsonObject responseText);
  let aiScore := ToNumber (prop data "score") in
  Some (Score.analyzeMatch_score toLowerCase aiScore resumeText jobText).

End Reply.

(** A reply whose score is null, and an engine that parses this reply and
    nothing else. *)
Definition null_reply : jsstring :=
  js "{" ++ [34]%N ++ js "score" ++ [34]%N ++ js ": null}".

Definition parse_null_reply (s : jsstring) : option json :=
  if bool_decide (s = null_reply) then Some (JObj [(js "score", JNull)]) else None.

Example null_reply_is_cut :
  extractJsonObject (js "Here you go: " ++ null_reply ++ js " ") = null_reply.
Proof. vm_compute. reflexivity. Qed.

Example number_of_null : forall S T, ToNumber S T JNull = of_Z 0.
Proof. reflexivity. Qed.

Example number_of_missing :
  forall S T, ToNumber S T (prop (JObj [(js "matchDetails", JStr (js "Good"))]) "score")
              = NaN.
Proof. reflexivity. Qed.

Section Facts.

Variable JSON_parse : jsstring -> option json.
Variable StringToNumber : jsstring -> number.
Variable ToString : json -> jsstring.
Variable toLowerCase : jsstring -> jsstring.

Lemma heuristic_is_rounded resumeText jobText :
  Math_round (Score.computeHeuristicScore toLowerCase resumeText jobText)
  = Score.computeHeuristicScore toLowerCase resumeText jobText.
Proof.
  pose proof (Score.computeHeuristicScore_cases toLowerCase resumeText jobText) as H.
  destruct (Score.tokenize toLowerCase jobText); [by rewrite H|].
  destruct (Score.tokenize toLowerCase resumeText); [by rewrite H|].
  destruct H as (z & -> & Hz). apply Score.Math_round_integer. lia.
Qed.

Lemma clamp_finite x :
  Number_isFinite x = true ->
  Number_isFinite (Score.clamp x (of_Z 0) (of_Z 100)) = true.
Proof.
  intros Hfin.
  destruct (Score.clamp_0_100 x Hfin) as [->|[->|(m & e & -> & -> & _)]]; done.
Qed.

(** C5, as it holds. When the reply parses, [analyzeMatch] sets a result
    whose score is an integer from 0 to 100. The reported score counts as
    the number [Number()] makes of it: when that number is not finite, or
    is 0 (after the clamp to 0..100) while the heuristic score is at least
    20, the result is the heuristic score; otherwise it is that number,
    clamped and rounded. A score that is missing gives NaN and so the
    heuristic score; a score that is null or false, like every score that
    [Number()] turns into 0, gives 0, which stands when the heuristic score
    is below 20. *)
Theorem analyzeMatch_fit_score (responseText resumeText jobText : jsstring)
    (data : json) :
  JSON_parse (extractJsonObject responseText) = Some data ->
  is_double (ToNumber StringToNumber ToString (prop data "score")) ->
  let aiScore := ToNumber StringToNumber ToString (prop data "score") in
  let safeScore := Score.clamp aiScore (of_Z 0) (of_Z 100) in
  let heuristic := Score.computeHeuristicScore toLowerCase resumeText jobText in
  exists result,
    analyzeMatch JSON_parse StringToNumber ToString toLowerCase
      responseText resumeText jobText = Some result
    /\ (exists z, result.1 = of_Z z /\ 0 <= z <= 100)
    /\ (Number_isFinite aiScore = false
        \/ (strict_eq aiScore (of_Z 0) = true \/ strict_eq safeScore (of_Z 0) = true)
           /\ ge heuristic (of_Z 20) = true ->
        result = (heuristic, true))
    /\ (Number_isFinite aiScore = true ->
        strict_eq safeScore (of_Z 0) = false \/ ge heuristic (of_Z 20) = false ->
        result = (Math_round safeScore, false))
    /\ (prop data "score" = JUndefined -> result = (heuristic, true))
    /\ (prop data "score" = JNull \/ prop data "score" = JBool false
        \/ aiScore = of_Z 0 ->
        result = if ge heuristic (of_Z 20) then (heuristic, true)
                 else (of_Z 0, false)).
Proof.
  intros Hparse Hd aiScore safeScore heuristic.
  unfold analyzeMatch. rewrite Hparse. cbn [mbind option_bind]. fold aiScore.
  eexists. split; [reflexivity|].
  destruct (Score.analyzeMatch_score_range toLowerCase aiScore resumeText jobText Hd)
    as [Hrange Hback]. fold heuristic in Hback.
  pose proof (heuristic_is_rounded resumeText jobText) as Hround.
  fold heuristic in Hround.
  assert (Hzero : Score.analyzeMatch_score toLowerCase (of_Z 0) resumeText jobText
                  = if ge heuristic (of_Z 20) then (heuristic, true)
                    else (of_Z 0, false)).
  { unfold Score.analyzeMatch_score. cbv zeta. fold heuristic.
    change (Score.clamp (of_Z 0) (of_Z 0) (of_Z 100)) with (of_Z 0).
    cbn [Number_isFinite of_Z]. rewrite Score.fallback_zero_cases.
    destruct (ge heuristic (of_Z 20)); [by rewrite Hround|done]. }
  split; [exact Hrange|]. split; [|split; [|split]].
  - intros [Hnan|[[H0|H0] Hge]]; [apply Hback; by left|apply Hback; by right|].
    destruct (Number_isFinite aiScore) eqn:Hfin; [|apply Hback; by left].
    unfold Score.analyzeMatch_score. cbv zeta. fold heuristic.
    rewrite Hfin. fold safeScore. rewrite H0, Hge, orb_true_r.
    by rewrite Hround.
  - intros Hfin Hno. unfold Score.analyzeMatch_score. cbv zeta. fold heuristic.
    rewrite Hfin. fold safeScore.
    assert (Hsafe : Number_isFinite safeScore = true) by by apply clamp_finite.
    rewrite Hsafe. cbn [negb orb].
    by destruct Hno as [-> | ->]; rewrite ?andb_false_r.
  - intros Hmissing. apply Hback. left. subst aiScore. by rewrite Hmissing.
  - intros Hnull.
    assert (Hai : aiScore = of_Z 0)
      by (destruct Hnull as [H | [H | H]]; [subst aiScore; by rewrite H..|done]).
    by rewrite Hai.
Qed.

End Facts.

Lemma analyzeMatch_fit_score_witness :
  analyzeMatch parse_null_reply (fun _ => NaN) (fun _ => []) Score.ascii_lower
    null_reply (js "Python developer with SQL")
    (js "Senior Python developer; Python and Java")
  = Some (of_Z 58, true).
Proof.
  destruct (analyzeMatch_fit_score parse_null_reply (fun _ => NaN) (fun _ => [])
              Score.ascii_lower null_reply (js "Python developer with SQL")
              (js "Senior Python developer; Python and Java")
              (JObj [(js "score", JNull)]) eq_refl eq_refl)
    as (result & Hrun & _ & _ & _ & _ & Hnull).
  rewrite Hrun, Hnull; [vm_compute; reflexivity|by left].
Defined.

(** C5 as stated fails on a reply whose score is null. null is not a finite
    number, and the heuristic score of this resume for this job is 15, yet
    the result is 0 and the heuristic flag is off: [Number(null)] is 0, a
    finite number, and a 0 stands when the heuristic score is below 20. *)
Lemma null_score_stands_as_zero :
  parse_null_reply (extractJsonObject null_reply) = Some (JObj [(js "score", JNull)])
  /\ prop (JObj [(js "score", JNull)]) "score" = JNull
  /\ Score.computeHeuristicScore Score.ascii_lower (js "Truck driver")
       (js "Senior Python developer") = of_Z 15
  /\ analyzeMatch parse_null_reply (fun _ => NaN) (fun _ => []) Score.ascii_lower
       null_reply (js "Truck driver") (js "Senior Python developer")
     = Some (of_Z 0, false)
  /\ (of_Z 0, false) <> (of_Z 15, true).
Proof.
  split; [vm_compute; reflexivity|]. split; [reflexivity|].
  split; [vm_compute; reflexivity|]. split; [vm_compute; reflexivity|].
  discriminate.
Qed.

End Analyze.

(** ** More on the DOCX patch: what it leaves as it is

    Properties of [distributeAcrossNodes] and of the loop of
    [patchDocxWithParagraphs] beyond what is read back. *)
Module DocxLaws.

Import Docx.

Local Open Scope nat_scope.

Lemma foldl_add_from (a : Z) (l : list Z) :
  foldl Z.add a l = (a + foldl Z.add 0 l)%Z.
Proof.
  revert a. induction l as [|x l IH]; intros a; cbn [foldl]; [lia|].
  rewrite (IH (a + x)%Z), (IH (0 + x)%Z). lia.
Qed.

Lemma total_length (nodes : list jsstring) :
  foldl Z.add 0%Z (map (fun n => Z.of_nat (length n)) nodes)
  = Z.of_nat (length (concat nodes)).
Proof.
  induction nodes as [|n r IH]; [done|].
  cbn [map foldl concat]. rewrite foldl_add_from, IH, length_app. lia.
Qed.

Lemma concat_empty_all (nodes : list jsstring) :
  length (concat nodes) = 0 -> map (fun _ => @nil N) nodes = nodes.
Proof.
  induction nodes as [|n r IH]; [done|]. cbn [concat map].
  rewrite length_app. intros H. destruct n; [|simpl in H; lia].
  f_equal. apply IH. simpl in H. lia.
Qed.

(** The loop at the start of node [n], the text being what the nodes held:
    every node is given back what it held. *)
Lemma distribute_loop_same (nodes : list jsstring) : forall pre : jsstring,
  distribute_loop (pre ++ concat nodes) (Z.of_nat (length pre))
    (map (fun n => Z.of_nat (length n)) nodes)
  = nodes.
Proof.
  induction nodes as [|n rest IH]; intros pre; [done|].
  cbn [map concat distribute_loop]. cbv zeta.
  set (text := pre ++ n ++ concat rest).
  assert (Hlen : Z.of_nat (length text)
                 = (Z.of_nat (length pre) + Z.of_nat (length n)
                    + Z.of_nat (length (concat rest)))%Z).
  { subst text. rewrite !length_app. lia. }
  set (tk := match map (fun n => Z.of_nat (length n)) rest with
             | [] => (Z.of_nat (length text) - Z.of_nat (length pre))%Z
             | _ => Z.min (Z.of_nat (length n))
                      (Z.of_nat (length text) - Z.of_nat (length pre))
             end).
  assert (Htk : tk = Z.of_nat (length n)).
  { subst tk. destruct rest as [|n' rest']; cbn [map]; [simpl in Hlen|]; lia. }
  rewrite Htk.
  assert (Hpart : (if (0 <? Z.of_nat (length n))%Z
                   then slice text (Z.of_nat (length pre))
                          (Z.of_nat (length pre) + Z.of_nat (length n))
                   else []) = n).
  { destruct (Z.ltb_spec 0 (Z.of_nat (length n))).
    - rewrite slice_take_drop by lia. rewrite !Nat2Z.id. subst text.
      rewrite drop_app_length. by rewrite take_app_length.
    - destruct n; [done|simpl in *; lia]. }
  rewrite Hpart.
  destruct (Z.leb_spec (Z.of_nat (length text))
              (Z.of_nat (length pre) + Z.max 0 (Z.of_nat (length n)))).
  - f_equal. unfold clear. rewrite map_map. apply concat_empty_all. lia.
  - f_equal. specialize (IH (pre ++ n)).
    rewrite length_app, <- app_assoc in IH. fold text in IH.
    etrans; [|exact IH]. f_equal. lia.
Qed.

Lemma distribute_same (nodes : list jsstring) :
  distributeAcrossNodes (concat nodes) nodes = nodes.
Proof.
  unfold distributeAcrossNodes. destruct nodes as [|n others]; [done|]. cbv zeta.
  rewrite total_length.
  destruct (Z.eqb_spec (Z.of_nat (length (concat (n :: others)))) 0) as [Hz|Hz].
  - assert (H0 : length (concat (n :: others)) = 0) by lia.
    pose proof (concat_empty_all (n :: others) H0) as Hall.
    cbn [map] in Hall. injection Hall as <- Hothers.
    rewrite Hothers. f_equal. cbn [concat] in H0. cbn [concat app].
    destruct (concat others); [done|simpl in H0; lia].
  - apply (distribute_loop_same (n :: others) []).
Qed.

Lemma list_inserts_same {A} (st : list A) (i n : nat) :
  list_inserts i (take n (drop i st)) st = st.
Proof.
  destruct (decide (i <= length st)) as [Hi|Hi].
  - rewrite list_inserts_split by (rewrite length_take, length_drop; lia).
    rewrite length_take, length_drop, <- drop_drop.
    etrans; [|apply (take_drop i st)]. f_equal.
    etrans; [|apply (take_drop n (drop i st))]. f_equal.
    destruct (decide (n <= length st - i)) as [Hn|Hn].
    + by rewrite Nat.min_l.
    + rewrite Nat.min_r by lia.
      rewrite !drop_ge; [done|rewrite length_drop; lia..].
  - rewrite drop_ge by lia. by rewrite take_nil.
Qed.

Lemma patchParagraph_same (st : list jsstring) (p : nat * nat) :
  patchParagraph st (p, concat (tNodes p st)) = st.
Proof.
  unfold patchParagraph. destruct (tNodes p st) as [|n ns] eqn:Hn; [done|].
  rewrite distribute_same, <- Hn. apply list_inserts_same.
Qed.

Lemma patch_same_store (ps : list (nat * nat)) (st : list jsstring) :
  foldl patchParagraph st (zip ps (map (fun p => concat (tNodes p st)) ps)) = st.
Proof.
  induction ps as [|p ps IH]; [done|].
  cbn [map zip zip_with foldl]. by rewrite patchParagraph_same.
Qed.

Lemma fill_list_tTexts ns : forall rest,
  Forall (fun n => forall rest, fill n (tTexts n ++ rest) = n) ns ->
  fill_list ns (tTexts_list ns ++ rest) = ns.
Proof.
  induction ns as [|c r IH]; intros rest Hall; [done|].
  apply Forall_cons_1 in Hall as [Hc Hr]. cbn [tTexts_list fill_list].
  rewrite <- app_assoc, Hc, drop_app_length. by rewrite IH.
Qed.

Lemma fill_tTexts_app n : forall rest, fill n (tTexts n ++ rest) = n.
Proof.
  induction n as [s|kids IH|kids IH] using node_ind; intros rest; [done| |].
  - change (P (fill_list kids (tTexts_list kids ++ rest)) = P kids).
    by rewrite fill_list_tTexts.
  - change (E (fill_list kids (tTexts_list kids ++ rest)) = E kids).
    by rewrite fill_list_tTexts.
Qed.

Lemma fill_tTexts n : fill n (tTexts n) = n.
Proof. rewrite <- (app_nil_r (tTexts n)) at 1. apply fill_tTexts_app. Qed.

Lemma normalize_full (ps : list jsstring) : normalize ps (length ps) = ps.
Proof.
  unfold normalize. rewrite firstn_all, Nat.sub_diag. apply app_nil_r.
Qed.

(** The paragraphs of a document, patched into it, give the document. *)
Lemma patch_extracted (doc : node) :
  patchParagraphs doc (extractParagraphs doc) = doc.
Proof.
  unfold patchParagraphs, patchStore.
  assert (Hex : extractParagraphs doc
                = map (fun p => concat (tNodes p (tTexts doc))) (pNodes 0 doc)).
  { rewrite <- (fill_tTexts doc) at 1. by apply extractParagraphs_fill. }
  replace (length (pNodes 0 doc)) with (length (extractParagraphs doc))
    by (by rewrite Hex, length_map).
  rewrite normalize_full, Hex, patch_same_store. apply fill_tTexts.
Qed.

(** X1. A DOCX patched with the paragraphs extracted from it holds the
    document it held: every [w:t] element is given back its own text, also
    in a paragraph that holds other paragraphs. *)
Theorem patch_with_extracted_paragraphs {archive : Type}
    (load : archive -> option node) (save : archive -> node -> archive)
    (original : archive) (paragraphs : list jsstring) :
  extractParagraphsFromDocxBase64 load original = Some paragraphs ->
  exists doc,
    load original = Some doc
    /\ patchDocxWithParagraphs load save original paragraphs
       = Some (save original doc).
Proof.
  unfold extractParagraphsFromDocxBase64, patchDocxWithParagraphs.
  destruct (load original) as [doc|]; [|done]. cbn [mbind option_bind].
  intros [= <-]. exists doc. by rewrite patch_extracted.
Qed.

Lemma patch_with_extracted_paragraphs_witness :
  patchDocxWithParagraphs Some (fun _ doc => doc) three_paragraphs
    [js "Junior dev"; js "Toronto"; []]
  = Some three_paragraphs.
Proof.
  destruct (patch_with_extracted_paragraphs Some (fun _ doc => doc) three_paragraphs
              [js "Junior dev"; js "Toronto"; []] eq_refl) as (doc & Hdoc & Hpatch).
  injection Hdoc as <-. exact Hpatch.
Defined.

(** *** The extent of the runs *)

Lemma length_slice_le (s : jsstring) (a b : Z) :
  (0 <= a)%Z -> (0 <= b)%Z ->
  (Z.of_nat (length (slice s a b)) <= Z.max (b - a) 0)%Z.
Proof.
  intros Ha Hb. unfold slice. cbv zeta. rewrite length_take, length_drop.
  destruct (Z.ltb_spec a 0); [lia|]. destruct (Z.ltb_spec b 0); lia.
Qed.

(** A node that is not the last one is given no more than it held. *)
Lemma distribute_loop_no_growth (text : jsstring) (lens : list Z) :
  forall (offset : Z) (i : nat) (part : jsstring) (l : Z),
  (0 <= offset)%Z -> S i < length lens -> Forall (fun l => (0 <= l)%Z) lens ->
  distribute_loop text offset lens !! i = Some part -> lens !! i = Some l ->
  (Z.of_nat (length part) <= l)%Z.
Proof.
  induction lens as [|l0 rest IH]; intros offset i part l Hoff Hi Hpos Hpart Hl;
    [done|].
  apply Forall_cons_1 in Hpos as [Hl0 Hpos].
  cbn [distribute_loop] in Hpart. cbv zeta in Hpart.
  set (len := Z.of_nat (length text)) in *.
  set (tk := match rest with
             | [] => (len - offset)%Z
             | _ => Z.min l0 (len - offset)
             end) in *.
  assert (Hfirst : (Z.of_nat (length (if (0 <? tk)%Z
                                      then slice text offset (offset + tk)
                                      else [])) <= l0)%Z).
  { destruct rest as [|l1 rest']; [simpl in Hi; lia|].
    destruct (Z.ltb_spec 0 tk); [|simpl; lia].
    pose proof (length_slice_le text offset (offset + tk) Hoff ltac:(lia)). lia. }
  destruct i as [|i].
  - injection Hl as <-.
    destruct (_ <=? _)%Z; injection Hpart as <-; exact Hfirst.
  - cbn [lookup list_lookup] in Hl. cbn [length] in Hi.
    destruct (_ <=? _)%Z.
    + cbn [lookup list_lookup] in Hpart. unfold clear in Hpart.
      apply list_lookup_fmap_Some in Hpart as (x & -> & _).
      eapply Forall_lookup_1 in Hpos; [|exact Hl]. simpl in *. lia.
    + cbn [lookup list_lookup] in Hpart.
      eapply (IH (offset + Z.max 0 tk)%Z i); eauto; lia.
Qed.

Lemma sum_nonnegative (l : list Z) :
  Forall (fun x => (0 <= x)%Z) l -> (0 <= foldl Z.add 0 l)%Z.
Proof.
  induction 1 as [|x r Hx _ IH]; [simpl; lia|].
  cbn [foldl]. rewrite foldl_add_from. lia.
Qed.

Lemma sum_zero (l : list Z) :
  Forall (fun x => (0 <= x)%Z) l -> foldl Z.add 0%Z l = 0%Z ->
  map (fun _ => 0%Z) l = l.
Proof.
  induction 1 as [|x r Hx Hr IH]; intros H0; [done|].
  cbn [foldl] in H0. rewrite foldl_add_from in H0.
  pose proof (sum_nonnegative r Hr).
  cbn [map]. f_equal; [lia|]. apply IH. lia.
Qed.

(** A text as long as the one the nodes held leaves every node its length. *)
Lemma distribute_loop_lengths (text : jsstring) (lens : list Z) :
  forall offset : Z,
  (0 <= offset)%Z -> Forall (fun l => (0 <= l)%Z) lens -> lens <> [] ->
  (Z.of_nat (length text) - offset = foldl Z.add 0 lens)%Z ->
  map (fun part => Z.of_nat (length part)) (distribute_loop text offset lens) = lens.
Proof.
  induction lens as [|l rest IH]; intros offset Hoff Hpos Hne Hsum; [done|].
  apply Forall_cons_1 in Hpos as [Hl Hpos].
  cbn [foldl] in Hsum. rewrite foldl_add_from in Hsum.
  pose proof (sum_nonnegative rest Hpos) as Hrest.
  cbn [distribute_loop]. cbv zeta.
  set (len := Z.of_nat (length text)) in *.
  set (tk := match rest with
             | [] => (len - offset)%Z
             | _ => Z.min l (len - offset)
             end).
  assert (Htk : tk = l).
  { subst tk. destruct rest; [simpl in Hsum|]; lia. }
  rewrite Htk.
  assert (Hpart : Z.of_nat (length (if (0 <? l)%Z
                                    then slice text offset (offset + l)
                                    else [])) = l).
  { destruct (Z.ltb_spec 0 l); [|simpl; lia].
    rewrite slice_take_drop by lia. rewrite length_take, length_drop. lia. }
  destruct (Z.leb_spec len (offset + Z.max 0 l)).
  - cbn [map]. rewrite Hpart. f_equal. unfold clear. rewrite map_map. cbn [length].
    apply sum_zero; [done|lia].
  - cbn [map]. rewrite Hpart. f_equal.
    destruct rest as [|l' rest']; [simpl in Hsum; lia|].
    apply IH; try done; lia.
Qed.

Lemma lengths_nonnegative (nodes : list jsstring) :
  Forall (fun l => (0 <= l)%Z) (map (fun n => Z.of_nat (length n)) nodes).
Proof. apply Forall_fmap, Forall_forall. intros n _. simpl. lia. Qed.

(** X2. When some node of the paragraph holds text, no node but the last
    one is given more code units than it held, so the text runs on inside
    the last run only; and a text as long as the old one leaves every node
    the length it had. *)
Theorem runs_keep_their_extent (text : jsstring) (nodes : list jsstring) :
  (concat nodes <> [] ->
   forall i part old,
     S i < length nodes ->
     distributeAcrossNodes text nodes !! i = Some part -> nodes !! i = Some old ->
     length part <= length old)
  /\ (length text = length (concat nodes) ->
      map length (distributeAcrossNodes text nodes) = map length nodes).
Proof.
  unfold distributeAcrossNodes.
  destruct nodes as [|n others]; [split; [done|done]|]. cbv zeta.
  rewrite total_length.
  destruct (Z.eqb_spec (Z.of_nat (length (concat (n :: others)))) 0) as [Hz|Hz].
  - split.
    + intros Hne. destruct (concat (n :: others)); [done|simpl in Hz; lia].
    + intros Htext.
      assert (H0 : length (concat (n :: others)) = 0) by lia.
      pose proof (concat_empty_all (n :: others) H0) as Hall.
      cbn [map] in Hall. injection Hall as <- Hothers. rewrite Hothers.
      cbn [map length]. f_equal. congruence.
  - split.
    + intros _ i part old Hi Hpart Hold.
      apply Nat2Z.inj_le.
      apply (distribute_loop_no_growth text
               (map (fun n => Z.of_nat (length n)) (n :: others)) 0%Z i part).
      * lia.
      * by rewrite length_map.
      * apply lengths_nonnegative.
      * exact Hpart.
      * change (map (fun n => Z.of_nat (length n)) (n :: others))
          with (fmap (M := list) (fun n => Z.of_nat (length n)) (n :: others)).
        by rewrite list_lookup_fmap, Hold.
    + intros Htext.
      pose proof (distribute_loop_lengths text
                    (map (fun n => Z.of_nat (length n)) (n :: others)) 0%Z
                    ltac:(lia) (lengths_nonnegative _) ltac:(done)) as H.
      rewrite total_length in H. specialize (H ltac:(lia)).
      apply (f_equal (map Z.to_nat)) in H. rewrite !map_map in H.
      etrans; [|etrans; [exact H|]]; apply map_ext; intros x; simpl; lia.
Qed.

(** *** Patching twice *)

Lemma normalize_twice (ps : list jsstring) (count : nat) :
  normalize (normalize ps count) count = normalize ps count.
Proof.
  pose proof (normalize_full (normalize ps count)) as H.
  by rewrite normalize_length in H.
Qed.

Lemma patchParagraphs_normalized (doc : node) (ps : list jsstring) :
  patchParagraphs doc (normalize ps (length (pElements doc)))
  = patchParagraphs doc ps.
Proof.
  unfold patchParagraphs, patchStore.
  by rewrite (length_pNodes doc 0), normalize_twice.
Qed.

(** X3. On a document without a paragraph inside another one, each
    paragraph with a [w:t] element, patching a second time with the same
    paragraphs changes nothing: the runs of the patched document already
    carve the text the way the second patch would. *)
Theorem patch_twice (doc : node) (updatedParagraphs : list jsstring) :
  flat doc = true ->
  Forall (fun p => tTexts p <> []) (pElements doc) ->
  patchParagraphs (patchParagraphs doc updatedParagraphs) updatedParagraphs
  = patchParagraphs doc updatedParagraphs.
Proof.
  intros Hflat Hall.
  set (doc' := patchParagraphs doc updatedParagraphs).
  assert (Hcount : length (pElements doc') = length (pElements doc)).
  { assert (Hs : shape doc' = shape doc) by apply shape_fill.
    apply (f_equal pElements) in Hs. rewrite !pElements_shape in Hs.
    apply (f_equal length) in Hs. by rewrite !length_map in Hs. }
  rewrite <- (patchParagraphs_normalized doc'), Hcount.
  rewrite <- (extract_patch_flat doc updatedParagraphs Hflat Hall).
  apply patch_extracted.
Qed.

Lemma patch_twice_witness :
  patchParagraphs
    (patchParagraphs two_paragraphs [js "Senior engineer"; js "Ottawa"; js "x"])
    [js "Senior engineer"; js "Ottawa"; js "x"]
  = patchParagraphs two_paragraphs [js "Senior engineer"; js "Ottawa"; js "x"].
Proof.
  apply (patch_twice two_paragraphs [js "Senior engineer"; js "Ottawa"; js "x"]).
  - reflexivity.
  - repeat constructor; discriminate.
Defined.

End DocxLaws.

(** ** The DOCX archive (the DOCX utilities of
    src/src/background/background.ts)

    [PizZip] opens the bytes as an archive of named entries; the code reads
    and replaces the entry word/document.xml and leaves the archive to
    [zip.generate]. The archive is the map from the names of its entries to
    their text; [DOMParser] and [XMLSerializer] belong to the browser. *)
Module DocxFile.

Import Docx Effect.

Abbreviation zip := (gmap string jsstring).

Definition document_xml : string := "word/document.xml".

(** [zip.file('word/document.xml')], then [file.asText()]. *)
Definition getDocXml (z : zip) : outcome jsstring jsstring :=
  match z !! document_xml with
  | Some xml => Return xml
  | None => Throw (js "Invalid DOCX: missing word/document.xml")
  end.

Section Dom.

(** [parser.parseFromString(xml, 'application/xml')]: [None] when the
    result holds a [parsererror] element. *)
Variable parseFromString : jsstring -> option node.
Variable serializeToString : node -> jsstring.

Definition parseXml (xml : jsstring) : outcome jsstring node :=
  match parseFromString xml with
  | Some doc => Return doc
  | None => Throw (js "Failed to parse DOCX XML")
  end.

Definition serializeXml (doc : node) : jsstring := serializeToString doc.

(** The document of an archive. *)
Definition open (z : zip) : outcome jsstring node :=
  match getDocXml z with
  | Return xml => parseXml xml
  | Throw e => Throw e
  end.

(** [{ paragraphs, text }] *)
Definition extractTextFromDocxArrayBuffer (z : zip)
  : outcome jsstring (list jsstring * jsstring) :=
  match open z with
  | Return doc =>
      let paragraphs := extractParagraphs doc in
      Return (paragraphs, Generate.join_lines paragraphs)
  | Throw e => Throw e
  end.

Definition extractParagraphsFromDocxBase64 (z : zip)
  : outcome jsstring (list jsstring) :=
  match open z with
  | Return doc => Return (extractParagraphs doc)
  | Throw e => Throw e
  end.

(** The archive handed to [zip.generate]. *)
Definition patchDocxWithParagraphs (z : zip) (updatedParagraphs : list jsstring)
  : outcome jsstring zip :=
  match open z with
  | Return doc =>
      Return (<[document_xml := serializeXml (patchParagraphs doc updatedParagraphs)]> z)
  | Throw e => Throw e
  end.

(** X4. [patchDocxWithParagraphs] fails on the archives on which
    [extractParagraphsFromDocxBase64] fails, with the same error (no entry
    word/document.xml, or XML that does not parse). Otherwise the archive
    it writes has the entries of the original one, and every entry but
    word/document.xml holds what it held. *)
Theorem patch_writes_document_xml_only (z : zip) (updatedParagraphs : list jsstring) :
  match extractParagraphsFromDocxBase64 z with
  | Throw e => patchDocxWithParagraphs z updatedParagraphs = Throw e
  | Return _ =>
      exists z',
        patchDocxWithParagraphs z updatedParagraphs = Return z'
        /\ dom z' = dom z
        /\ forall name, name <> document_xml -> z' !! name = z !! name
  end.
Proof.
  unfold extractParagraphsFromDocxBase64, patchDocxWithParagraphs.
  destruct (open z) as [doc|e] eqn:Hopen; [|done].
  eexists. split; [done|]. split.
  - rewrite dom_insert_L.
    assert (Hin : document_xml ∈ dom z).
    { apply elem_of_dom. unfold open, getDocXml in Hopen.
      by destruct (z !! document_xml). }
    apply set_eq. intros name. rewrite elem_of_union, elem_of_singleton.
    split; [by intros [->|?]|by right].
  - intros name Hname. by rewrite lookup_insert_ne.
Qed.

End Dom.

End DocxFile.

(** ** More on the keyword overlap: the words and the top terms *)
Module ScoreLaws.

Import Num Score.

Local Open Scope nat_scope.

(** *** The words of [tokenize] *)

Lemma split_spaces_from_pieces (ok : N -> Prop) (s : jsstring) :
  forall (cur : jsstring) (gap : bool),
  Forall ok cur ->
  Forall (fun c => is_space c = true \/ ok c) s ->
  Forall (Forall ok) (split_spaces_from cur gap s).
Proof.
  induction s as [|c r IH]; intros cur gap Hcur Hs; cbn [split_spaces_from].
  - by apply Forall_singleton.
  - apply Forall_cons_1 in Hs as [Hc Hr].
    destruct (is_space c) eqn:Hsp.
    + destruct gap; [by apply IH|]. apply Forall_cons. split; [done|by apply IH].
    + destruct Hc as [Hc|Hc]; [congruence|].
      apply IH; [|done]. apply Forall_app. split; [done|by apply Forall_singleton].
Qed.

(** X5. Whatever the case mapping of the engine does, every word that
    [tokenize] returns has at least three code units, all of them in
    [a-z0-9], and is no stop word. *)
Theorem tokenize_gives_words (toLowerCase : jsstring -> jsstring) (text : jsstring) :
  Forall (fun w => 3 <= length w
                   /\ Forall (fun c => is_alnum c = true) w
                   /\ w ∉ stopwords)
         (tokenize toLowerCase text).
Proof.
  unfold tokenize. cbv zeta. apply Forall_forall. intros w Hw.
  apply list_elem_of_filter in Hw as [Hstop Hw].
  apply list_elem_of_filter in Hw as [Hlong Hw].
  apply list_elem_of_filter in Hw as [_ Hw].
  split; [done|]. split; [|done]. clear Hstop Hlong.
  revert w Hw. apply Forall_forall. unfold split_spaces.
  apply split_spaces_from_pieces; [done|].
  apply Forall_fmap, Forall_forall. intros c _. simpl.
  destruct (is_alnum c) eqn:Ha; [by right|].
  destruct (is_space c) eqn:Hs; cbn [orb]; [by left|by left].
Qed.

(** *** The top job terms *)

(** How often a word occurs in a list of words. *)
Definition occ (w : jsstring) (ws : list jsstring) : Z :=
  Z.of_nat (length (filter (fun x => x = w) ws)).

Lemma occ_cons w x ws :
  occ w (x :: ws) = ((if decide (x = w) then 1 else 0) + occ w ws)%Z.
Proof.
  unfold occ. rewrite filter_cons. destruct (decide (x = w)); cbn [length]; lia.
Qed.

Lemma occ_positive w ws : w ∈ ws -> (0 < occ w ws)%Z.
Proof.
  induction ws as [|x r IH]; intros Hw; [by apply elem_of_nil in Hw|].
  rewrite occ_cons. apply elem_of_cons in Hw as [->|Hw].
  - rewrite decide_True by done. unfold occ. lia.
  - specialize (IH Hw). destruct (decide (x = w)); lia.
Qed.

Lemma occ_absent w ws : w ∉ ws -> occ w ws = 0%Z.
Proof.
  induction ws as [|x r IH]; intros Hw; [done|].
  rewrite occ_cons. apply not_elem_of_cons in Hw as [Hne Hw].
  rewrite decide_False by done. rewrite IH by done. lia.
Qed.

Lemma map_get_set m w v k :
  map_get (map_set m w v) k = if decide (w = k) then Some v else map_get m k.
Proof.
  induction m as [|[k0 v0] r IH]; cbn [map_set map_get].
  - by destruct (decide (w = k)).
  - destruct (decide (k0 = w)) as [->|Hne]; cbn [map_get].
    + by destruct (decide (w = k)).
    + rewrite IH. destruct (decide (k0 = k)) as [->|]; [|done].
      by rewrite decide_False.
Qed.

Lemma keys_map_set m w v :
  map fst (map_set m w v)
  = if decide (w ∈ map fst m) then map fst m else map fst m ++ [w].
Proof.
  induction m as [|[k0 v0] r IH]; cbn [map_set map fst].
  - rewrite decide_False; [done|]. apply not_elem_of_nil.
  - destruct (decide (k0 = w)) as [->|Hne]; cbn [map fst].
    + rewrite decide_True; [done|]. apply elem_of_cons. by left.
    + rewrite IH. destruct (decide (w ∈ map fst r)) as [Hin|Hin].
      * rewrite decide_True; [done|]. apply elem_of_cons. by right.
      * rewrite decide_False; [done|].
        intros [?|?]%elem_of_cons; [congruence|done].
Qed.

Lemma NoDup_keys_map_set m w v :
  NoDup (map fst m) -> NoDup (map fst (map_set m w v)).
Proof.
  intros Hnd. rewrite keys_map_set. destruct (decide (w ∈ map fst m)); [done|].
  apply NoDup_app. split; [done|]. split; [|apply NoDup_singleton].
  intros x Hx ->%list_elem_of_singleton. done.
Qed.

Lemma map_get_elem m k v :
  NoDup (map fst m) -> (k, v) ∈ m <-> map_get m k = Some v.
Proof.
  induction m as [|[k0 v0] r IH]; intros Hnd; cbn [map_get].
  - split; [by intros ?%elem_of_nil|done].
  - cbn [map fst] in Hnd. apply NoDup_cons in Hnd as [Hk0 Hnd].
    rewrite elem_of_cons. destruct (decide (k0 = k)) as [->|Hne].
    + split; [|by intros [= ->]; left].
      intros [[= ->]|Hin]; [done|]. destruct Hk0.
      change (map fst r) with (fmap (M := list) fst r).
      apply list_elem_of_fmap. by exists (k, v).
    + rewrite <- IH by done. split; [|by right]. by intros [[= ? ?]|?].
Qed.

(** [for (const w of jobWords) freq.set(w, (freq.get(w) || 0) + 1)] *)
Definition count_words (m : list (jsstring * Z)) (ws : list jsstring)
  : list (jsstring * Z) :=
  foldl (fun m w => map_set m w (default 0%Z (map_get m w) + 1)%Z) m ws.

Lemma count_words_get ws : forall m k,
  map_get (count_words m ws) k
  = match map_get m k with
    | Some v => Some (v + occ k ws)%Z
    | None => if decide (k ∈ ws) then Some (occ k ws) else None
    end.
Proof.
  induction ws as [|w r IH]; intros m k.
  - unfold count_words, occ. cbn [foldl].
    destruct (map_get m k); [f_equal; simpl; lia|].
    rewrite decide_False; [done|]. apply not_elem_of_nil.
  - unfold count_words in *. cbn [foldl]. rewrite IH, map_get_set, occ_cons.
    destruct (decide (w = k)) as [->|Hne].
    + destruct (map_get m k); simpl; [f_equal; lia|].
      rewrite decide_True by (apply elem_of_cons; by left). done.
    + destruct (map_get m k); [f_equal; lia|].
      destruct (decide (k ∈ r)) as [Hin|Hin].
      * by rewrite decide_True by (apply elem_of_cons; by right).
      * rewrite decide_False; [done|].
        intros [?|?]%elem_of_cons; [congruence|done].
Qed.

Lemma count_words_NoDup ws : forall m,
  NoDup (map fst m) -> NoDup (map fst (count_words m ws)).
Proof.
  induction ws as [|w r IH]; intros m Hnd; [done|].
  unfold count_words in *. cbn [foldl]. by apply IH, NoDup_keys_map_set.
Qed.

(** The entries of the frequency map: the words, each with its count. *)
Lemma count_words_entries ws k v :
  (k, v) ∈ count_words [] ws <-> k ∈ ws /\ v = occ k ws.
Proof.
  rewrite map_get_elem by (apply count_words_NoDup, NoDup_nil_2).
  rewrite count_words_get. cbn [map_get].
  destruct (decide (k ∈ ws)); [|by split; [|intros [? _]]].
  split; [by intros [= <-]|by intros [_ ->]].
Qed.

(** *** The sort *)

Lemma sort_insert_perm {A} (cmp : A -> A -> Z) x l : sort_insert cmp x l ≡ₚ x :: l.
Proof.
  induction l as [|y r IH]; [done|]. cbn [sort_insert].
  destruct (_ <=? _)%Z; [done|]. rewrite IH. apply Permutation_swap.
Qed.

Lemma sort_perm {A} (cmp : A -> A -> Z) l : sort cmp l ≡ₚ l.
Proof.
  induction l as [|x r IH]; [done|]. unfold sort in *. cbn [foldr].
  by rewrite sort_insert_perm, IH.
Qed.

(** Every entry counts at least as much as the entries after it. *)
Fixpoint descending (l : list (jsstring * Z)) : Prop :=
  match l with
  | [] => True
  | x :: r => Forall (fun y => (y.2 <= x.2)%Z) r /\ descending r
  end.

Definition by_count (a b : jsstring * Z) : Z := (b.2 - a.2)%Z.

Lemma sort_insert_descending x l :
  descending l -> descending (sort_insert by_count x l).
Proof.
  induction l as [|y r IH]; intros Hl; [done|]. cbn [sort_insert].
  destruct Hl as [Hy Hr]. unfold by_count at 1.
  destruct (Z.leb_spec (y.2 - x.2) 0).
  - cbn [descending]. split; [|done]. apply Forall_cons. split; [lia|].
    eapply Forall_impl; [exact Hy|]. intros z Hz. simpl in *. lia.
  - cbn [descending]. split; [|by apply IH].
    rewrite sort_insert_perm. apply Forall_cons. split; [lia|done].
Qed.

Lemma sort_descending l : descending (sort by_count l).
Proof.
  induction l as [|x r IH]; [done|]. unfold sort in *. cbn [foldr].
  by apply sort_insert_descending.
Qed.

Lemma descending_app l1 l2 a b :
  descending (l1 ++ l2) -> a ∈ l1 -> b ∈ l2 -> (b.2 <= a.2)%Z.
Proof.
  induction l1 as [|x r IH]; intros Hd Ha Hb; [by apply elem_of_nil in Ha|].
  destruct Hd as [Hx Hr]. apply elem_of_cons in Ha as [->|Ha]; [|by apply IH].
  apply Forall_app in Hx as [_ Hx]. by eapply Forall_forall in Hx.
Qed.

Lemma descending_lookup l : forall i j a b,
  descending l -> i < j -> l !! i = Some a -> l !! j = Some b -> (b.2 <= a.2)%Z.
Proof.
  induction l as [|x r IH]; intros i j a b Hd Hij Ha Hb; [done|].
  destruct Hd as [Hx Hr]. destruct j as [|j]; [lia|]. cbn in Hb.
  destruct i as [|i].
  - injection Ha as <-. eapply Forall_forall in Hx; [exact Hx|].
    by eapply list_elem_of_lookup_2.
  - cbn in Ha. eapply (IH i j); eauto. lia.
Qed.

Lemma descending_take n l : descending l -> descending (take n l).
Proof.
  intros Hd. rewrite <- (take_drop n l) in Hd.
  revert Hd. generalize (drop n l). induction (take n l) as [|x r IH];
    intros rest Hd; [done|].
  destruct Hd as [Hx Hr]. split; [|by eapply IH].
  by apply Forall_app in Hx as [Hx _].
Qed.

Lemma in_take {A} (x : A) n l : x ∈ take n l -> x ∈ l.
Proof. intros Hx. eapply elem_of_sublist; [exact Hx|apply sublist_take]. Qed.

Lemma top_term_is_word (jobWords : list jsstring) (w : jsstring) :
  w ∈ topJobTerms jobWords -> w ∈ jobWords.
Proof.
  unfold topJobTerms. cbv zeta.
  change (foldl _ [] jobWords) with (count_words [] jobWords).
  intros Hw. change (map fst) with (fmap (M := list) (@fst jsstring Z)) in Hw.
  apply list_elem_of_fmap in Hw as ([k v] & -> & Hin). cbn [fst].
  apply in_take in Hin. rewrite sort_perm in Hin.
  by apply count_words_entries in Hin as [Hin _].
Qed.

(** X6. The top job terms are distinct words of the job text, forty at the
    most, in the order of how often they occur, the most frequent first;
    and a word of the job text that is not among them occurs no more often
    than any that is. *)
Theorem topJobTerms_most_frequent (jobWords : list jsstring) :
  NoDup (topJobTerms jobWords)
  /\ length (topJobTerms jobWords) <= 40
  /\ (forall w, w ∈ topJobTerms jobWords -> w ∈ jobWords)
  /\ (forall i j a b,
        i < j -> topJobTerms jobWords !! i = Some a ->
        topJobTerms jobWords !! j = Some b ->
        (occ b jobWords <= occ a jobWords)%Z)
  /\ (forall a w,
        a ∈ topJobTerms jobWords -> w ∈ jobWords -> w ∉ topJobTerms jobWords ->
        (occ w jobWords <= occ a jobWords)%Z).
Proof.
  unfold topJobTerms. cbv zeta.
  change (fun a b : jsstring * Z => (b.2 - a.2)%Z) with by_count.
  change (foldl _ [] jobWords) with (count_words [] jobWords).
  set (freq := count_words [] jobWords).
  set (sorted := sort by_count freq).
  assert (Hperm : sorted ≡ₚ freq) by apply sort_perm.
  assert (Hentry : forall k v, (k, v) ∈ sorted <-> k ∈ jobWords /\ v = occ k jobWords).
  { intros k v. rewrite Hperm. apply count_words_entries. }
  assert (Hterm : forall n k, k ∈ map fst (take n sorted) ->
                              (k, occ k jobWords) ∈ take n sorted).
  { intros n k Hk. change (map fst) with (fmap (M := list) (@fst jsstring Z)) in Hk.
    apply list_elem_of_fmap in Hk as ([k' v] & -> & Hin). cbn [fst].
    assert (Hs : (k', v) ∈ sorted) by (by eapply in_take).
    apply Hentry in Hs as [_ ->]. done. }
  assert (Hsorted : descending sorted) by apply sort_descending.
  split; [|split; [|split; [|split]]].
  - assert (Hnd : NoDup (map fst sorted)).
    { change (map fst) with (fmap (M := list) (@fst jsstring Z)).
      rewrite Hperm. apply count_words_NoDup, NoDup_nil_2. }
    rewrite <- (take_drop 40 sorted), map_app in Hnd.
    by apply NoDup_app in Hnd as [Hnd _].
  - rewrite length_map, length_take. lia.
  - intros w Hw. apply Hterm in Hw.
    assert (Hs : (w, occ w jobWords) ∈ sorted) by (by eapply in_take).
    by apply Hentry in Hs as [Hs _].
  - intros i j a b Hij Ha Hb.
    change (map fst) with (fmap (M := list) (@fst jsstring Z)) in Ha, Hb.
    rewrite list_lookup_fmap in Ha, Hb.
    destruct (take 40 sorted !! i) as [[a' va]|] eqn:Hia; [|done].
    destruct (take 40 sorted !! j) as [[b' vb]|] eqn:Hjb; [|done].
    cbn in Ha, Hb. injection Ha as ->. injection Hb as ->.
    pose proof (descending_lookup _ i j _ _ (descending_take 40 _ Hsorted)
                  Hij Hia Hjb) as Hle. cbn [snd] in Hle.
    assert (Hsa : (a, va) ∈ sorted)
      by (eapply in_take, list_elem_of_lookup_2; eauto).
    assert (Hsb : (b, vb) ∈ sorted)
      by (eapply in_take, list_elem_of_lookup_2; eauto).
    apply Hentry in Hsa as [_ ->]. apply Hentry in Hsb as [_ ->]. done.
  - intros a w Ha Hw Hout. apply Hterm in Ha.
    assert (Hs : (w, occ w jobWords) ∈ sorted) by (by apply Hentry).
    rewrite <- (take_drop 40 sorted) in Hs. apply elem_of_app in Hs as [Hs|Hs].
    + destruct Hout.
      change (map fst) with (fmap (M := list) (@fst jsstring Z)).
      apply list_elem_of_fmap. by exists (w, occ w jobWords).
    + rewrite <- (take_drop 40 sorted) in Hsorted.
      apply (descending_app _ _ (a, occ a jobWords) (w, occ w jobWords) Hsorted Ha Hs).
Qed.

(** *** The shape of the score curve *)

#[local] Existing Instance spec_float_eq_dec.

(** The curve as an integer; 0 where it is none. *)
Definition curve_value (hit len : Z) : Z :=
  default 0%Z (Generate.to_integer (score_curve hit len)).

(** At [hit <= len]: the curve is the integer [curve_value], which is 15
    without a hit and 100 when every term is hit, and one more hit does not
    lower it. *)
Definition curve_shape (hit len : nat) : bool :=
  let v := curve_value (Z.of_nat hit) (Z.of_nat len) in
  bool_decide (score_curve (Z.of_nat hit) (Z.of_nat len) = of_Z v)
  && (if decide (hit = 0) then (v =? 15)%Z else true)
  && (if decide (hit = len) then (v =? 100)%Z
      else (v <=? curve_value (Z.of_nat (S hit)) (Z.of_nat len))%Z).

Lemma score_curve_shape : table curve_shape 40 = true.
Proof. vm_compute. reflexivity. Qed.

Lemma curve_shape_at (hit len : nat) :
  1 <= len <= 40 -> hit <= len ->
  score_curve (Z.of_nat hit) (Z.of_nat len)
  = of_Z (curve_value (Z.of_nat hit) (Z.of_nat len))
  /\ (hit = 0 -> curve_value (Z.of_nat hit) (Z.of_nat len) = 15%Z)
  /\ (hit = len -> curve_value (Z.of_nat hit) (Z.of_nat len) = 100%Z)
  /\ (hit < len ->
      (curve_value (Z.of_nat hit) (Z.of_nat len)
       <= curve_value (Z.of_nat (S hit)) (Z.of_nat len))%Z).
Proof.
  intros Hlen Hhit.
  pose proof (table_lookup curve_shape 40 score_curve_shape len hit Hlen Hhit) as H.
  unfold curve_shape in H. cbv zeta in H.
  apply andb_true_iff in H as [H Hup]. apply andb_true_iff in H as [Heq H0].
  apply bool_decide_eq_true in Heq.
  split; [done|]. split; [|split].
  - intros Hz. rewrite decide_True in H0 by done. lia.
  - intros Hl. rewrite decide_True in Hup by done. lia.
  - intros Hl. rewrite decide_False in Hup by lia. lia.
Qed.

Lemma curve_value_monotone (len : nat) : forall hit' hit : nat,
  1 <= len <= 40 -> hit <= hit' -> hit' <= len ->
  (curve_value (Z.of_nat hit) (Z.of_nat len)
   <= curve_value (Z.of_nat hit') (Z.of_nat len))%Z.
Proof.
  induction hit' as [|h IH]; intros hit Hlen Hle Hmax.
  - replace hit with 0 by lia. lia.
  - destruct (decide (hit = S h)) as [->|Hne]; [lia|].
    etrans; [apply (IH hit); lia|].
    apply (curve_shape_at h len); lia.
Qed.

(** *** The hits *)

Lemma count_hits_from (resumeSet : gset jsstring) (terms : list jsstring) (acc : Z) :
  foldl (fun hit w => if decide (w ∈ resumeSet) then hit + 1 else hit)%Z acc terms
  = (acc + count_hits resumeSet terms)%Z.
Proof.
  unfold count_hits. revert acc. induction terms as [|w r IH]; intros acc.
  - simpl. lia.
  - cbn [foldl]. rewrite IH, (IH (if decide (w ∈ resumeSet) then _ else _)).
    destruct (decide (w ∈ resumeSet)); lia.
Qed.

Lemma count_hits_cons (resumeSet : gset jsstring) w terms :
  count_hits resumeSet (w :: terms)
  = ((if decide (w ∈ resumeSet) then 1 else 0) + count_hits resumeSet terms)%Z.
Proof.
  unfold count_hits at 1. cbn [foldl]. rewrite count_hits_from.
  by destruct (decide (w ∈ resumeSet)).
Qed.

Lemma count_hits_all (resumeSet : gset jsstring) terms :
  (forall w, w ∈ terms -> w ∈ resumeSet) ->
  count_hits resumeSet terms = Z.of_nat (length terms).
Proof.
  induction terms as [|w r IH]; intros Hall; [done|].
  rewrite count_hits_cons, decide_True by (apply Hall, elem_of_cons; by left).
  rewrite IH; [cbn [length]; lia|].
  intros x Hx. apply Hall, elem_of_cons. by right.
Qed.

Lemma count_hits_none (resumeSet : gset jsstring) terms :
  (forall w, w ∈ terms -> w ∉ resumeSet) ->
  count_hits resumeSet terms = 0%Z.
Proof.
  induction terms as [|w r IH]; intros Hnone; [done|].
  rewrite count_hits_cons, decide_False by (apply Hnone, elem_of_cons; by left).
  rewrite IH; [done|].
  intros x Hx. apply Hnone, elem_of_cons. by right.
Qed.

Lemma count_hits_subseteq (small large : gset jsstring) terms :
  small ⊆ large -> (count_hits small terms <= count_hits large terms)%Z.
Proof.
  intros Hsub. induction terms as [|w r IH]; [done|].
  rewrite !count_hits_cons.
  destruct (decide (w ∈ small)) as [Hw|Hw].
  - rewrite decide_True by (by apply Hsub). lia.
  - destruct (decide (w ∈ large)); lia.
Qed.

(** The score of texts that both hold a word, through the curve. *)
Lemma computeHeuristicScore_curve (toLowerCase : jsstring -> jsstring)
    (resumeText jobText : jsstring) :
  tokenize toLowerCase jobText <> [] -> tokenize toLowerCase resumeText <> [] ->
  computeHeuristicScore toLowerCase resumeText jobText
  = score_curve
      (count_hits (list_to_set (tokenize toLowerCase resumeText))
         (topJobTerms (tokenize toLowerCase jobText)))
      (Z.of_nat (length (topJobTerms (tokenize toLowerCase jobText)))).
Proof.
  intros Hj Hr. unfold computeHeuristicScore. cbv zeta.
  destruct (tokenize toLowerCase jobText); [done|].
  by destruct (tokenize toLowerCase resumeText).
Qed.

(** X7. When both texts hold a word: a resume that holds every top term of
    the job scores 100, a resume that holds none of them scores 15; so a
    text scored against itself gets 100. *)
Theorem score_extremes (toLowerCase : jsstring -> jsstring)
    (resumeText jobText : jsstring) :
  tokenize toLowerCase jobText <> [] -> tokenize toLowerCase resumeText <> [] ->
  let terms := topJobTerms (tokenize toLowerCase jobText) in
  ((forall w, w ∈ terms -> w ∈ tokenize toLowerCase resumeText) ->
   computeHeuristicScore toLowerCase resumeText jobText = of_Z 100)
  /\ ((forall w, w ∈ terms -> w ∉ tokenize toLowerCase resumeText) ->
      computeHeuristicScore toLowerCase resumeText jobText = of_Z 15)
  /\ computeHeuristicScore toLowerCase jobText jobText = of_Z 100.
Proof.
  intros Hj Hr terms.
  pose proof (length_topJobTerms _ Hj) as Hlen. fold terms in Hlen.
  assert (Hfull : forall text,
            tokenize toLowerCase text <> [] ->
            (forall w, w ∈ terms -> w ∈ tokenize toLowerCase text) ->
            computeHeuristicScore toLowerCase text jobText = of_Z 100).
  { intros text Ht Hall. rewrite computeHeuristicScore_curve by done. fold terms.
    rewrite count_hits_all by (intros w Hw; by apply elem_of_list_to_set, Hall).
    destruct (curve_shape_at (length terms) (length terms)) as (-> & _ & -> & _); done. }
  split; [|split].
  - by apply Hfull.
  - intros Hnone. rewrite computeHeuristicScore_curve by done. fold terms.
    rewrite count_hits_none
      by (intros w Hw; rewrite elem_of_list_to_set; by apply Hnone).
    change 0%Z with (Z.of_nat 0).
    destruct (curve_shape_at 0 (length terms)) as (-> & -> & _); [done|lia|done..].
  - apply Hfull; [done|]. intros w Hw.
    by apply top_term_is_word.
Qed.

Lemma score_extremes_witness :
  computeHeuristicScore ascii_lower (js "Truck driver") (js "Senior Python developer")
  = of_Z 15
  /\ computeHeuristicScore ascii_lower (js "Senior Python developer")
       (js "Senior Python developer")
     = of_Z 100.
Proof.
  destruct (score_extremes ascii_lower (js "Truck driver")
              (js "Senior Python developer"))
    as (_ & Hnone & Hself); [by vm_compute..|].
  split; [|exact Hself]. apply Hnone.
  apply Forall_forall. refine (proj1 (bool_decide_eq_true _) _).
  vm_compute. reflexivity.
Defined.

(** X8. A resume that holds every word another resume holds scores no
    lower against the same job text. *)
Theorem richer_resume_scores_no_lower (toLowerCase : jsstring -> jsstring)
    (poorer richer jobText : jsstring) :
  (forall w, w ∈ tokenize toLowerCase poorer -> w ∈ tokenize toLowerCase richer) ->
  exists a b,
    computeHeuristicScore toLowerCase poorer jobText = of_Z a
    /\ computeHeuristicScore toLowerCase richer jobText = of_Z b
    /\ (0 <= a <= b)%Z.
Proof.
  intros Hsub.
  destruct (decide (tokenize toLowerCase jobText = [])) as [Hj|Hj].
  { exists 0%Z, 0%Z. unfold computeHeuristicScore. cbv zeta. rewrite Hj.
    split; [done|]. split; [done|lia]. }
  destruct (decide (tokenize toLowerCase poorer = [])) as [Hp|Hp].
  { exists 0%Z.
    pose proof (computeHeuristicScore_cases toLowerCase richer jobText) as H.
    assert (Hzero : computeHeuristicScore toLowerCase poorer jobText = of_Z 0).
    { unfold computeHeuristicScore. cbv zeta. rewrite Hp.
      by destruct (tokenize toLowerCase jobText). }
    destruct (tokenize toLowerCase jobText); [done|].
    destruct (tokenize toLowerCase richer).
    - exists 0%Z. split; [done|]. split; [done|lia].
    - destruct H as (b & Hb & Hr). exists b. split; [done|]. split; [done|lia]. }
  assert (Hr : tokenize toLowerCase richer <> []).
  { destruct (tokenize toLowerCase poorer) as [|w ws]; [done|].
    intros Hnil. specialize (Hsub w ltac:(apply elem_of_cons; by left)).
    rewrite Hnil in Hsub. by apply elem_of_nil in Hsub. }
  rewrite !computeHeuristicScore_curve by done.
  set (terms := topJobTerms (tokenize toLowerCase jobText)).
  pose proof (length_topJobTerms _ Hj) as Hlen. fold terms in Hlen.
  set (small := list_to_set (tokenize toLowerCase poorer) : gset jsstring).
  set (large := list_to_set (tokenize toLowerCase richer) : gset jsstring).
  pose proof (count_hits_bounds small terms) as Hs.
  pose proof (count_hits_bounds large terms) as Hl.
  assert (Hle : (count_hits small terms <= count_hits large terms)%Z).
  { apply count_hits_subseteq. intros w Hw. subst small large.
    apply elem_of_list_to_set. apply elem_of_list_to_set in Hw. by apply Hsub. }
  rewrite <- (Z2Nat.id (count_hits small terms)) by lia.
  rewrite <- (Z2Nat.id (count_hits large terms)) by lia.
  destruct (curve_shape_at (Z.to_nat (count_hits small terms)) (length terms))
    as (-> & _); [lia..|].
  destruct (curve_shape_at (Z.to_nat (count_hits large terms)) (length terms))
    as (-> & _); [lia..|].
  eexists _, _. split; [done|]. split; [done|].
  split.
  - etrans; [|apply (curve_value_monotone (length terms) _ 0); lia].
    destruct (curve_shape_at 0 (length terms)) as (_ & -> & _); [lia..|done|lia].
  - apply curve_value_monotone; lia.
Qed.

Lemma richer_resume_scores_no_lower_witness :
  exists a b,
    computeHeuristicScore ascii_lower (js "Python developer")
      (js "Senior Python developer; Python and Java") = of_Z a
    /\ computeHeuristicScore ascii_lower (js "Senior Python developer, Java")
         (js "Senior Python developer; Python and Java") = of_Z b
    /\ (0 <= a <= b)%Z.
Proof.
  apply (richer_resume_scores_no_lower ascii_lower (js "Python developer")
           (js "Senior Python developer, Java")).
  apply Forall_forall. refine (proj1 (bool_decide_eq_true _) _).
  vm_compute. reflexivity.
Defined.

End ScoreLaws.

(** ** More on the generation flow: what a merge and a run guarantee *)
Module GenerateLaws.

Import Num Effect Generate.

Local Open Scope nat_scope.

Section Merge.

Variable JSON_parse : jsstring -> option json.
Variable ToString : json -> jsstring.
Variable ToNumber : json -> number.
Variable parseInt : jsstring -> number.
Variable stripMarkdownArtifacts : jsstring -> jsstring.

(** A paragraph after a merge: the original one, or a text without line
    feed. *)
Definition kept_or_single_line (new old : jsstring) : Prop :=
  new = old \/ Docx.newline_free new.

Lemma clean_paragraph_single_line (v : json) :
  Docx.newline_free (clean_paragraph ToString stripMarkdownArtifacts v).
Proof.
  unfold clean_paragraph, Docx.newline_free. cbv zeta.
  intros Hin. by apply list_elem_of_filter in Hin as [Hne _].
Qed.

Lemma set_paragraph_kept (count : nat) (ps original : list jsstring)
    (idx : number) (text : jsstring) :
  Docx.newline_free text ->
  Forall2 kept_or_single_line ps original ->
  Forall2 kept_or_single_line (set_paragraph count ps idx text) original.
Proof.
  intros Htext Hps. unfold set_paragraph.
  destruct (_ && _); [|done]. destruct (to_integer idx) as [z|]; [|done].
  destruct (decide (Z.to_nat (z - 1) < length ps)) as [Hi|Hi].
  - destruct (lookup_lt_is_Some_2 original (Z.to_nat (z - 1))) as [old Hold].
    { by rewrite <- (Forall2_length _ _ _ Hps). }
    rewrite <- (list_insert_id original _ _ Hold).
    apply Forall2_insert; [done|by right].
  - rewrite list_insert_ge by lia. done.
Qed.

Lemma foldl_set_paragraph_kept {A} (count : nat) (index : A -> number)
    (text : A -> jsstring) (items : list A) : forall ps original,
  (forall item, Docx.newline_free (text item)) ->
  Forall2 kept_or_single_line ps original ->
  Forall2 kept_or_single_line
    (foldl (fun ps item => set_paragraph count ps (index item) (text item)) ps items)
    original.
Proof.
  induction items as [|item items IH]; intros ps original Htext Hps; [done|].
  cbn [foldl]. apply IH; [done|]. by apply set_paragraph_kept.
Qed.

Lemma kept_refl (ps : list jsstring) : Forall2 kept_or_single_line ps ps.
Proof. apply Forall2_same_length_lookup_2; [done|]. intros i x y ? ?. left. congruence. Qed.

(** X9. A merge that does not throw returns as many paragraphs as the
    original has, and each of them is the original paragraph at its place
    or a text without line feed: the model can neither add nor drop a
    paragraph of the DOCX, and a replacement never spans two lines. *)
Theorem merge_keeps_the_layout (raw : jsstring) (original merged : list jsstring) :
  mergeParagraphsJson JSON_parse ToString ToNumber parseInt stripMarkdownArtifacts
    raw original = Return merged ->
  length merged = length original
  /\ Forall2 kept_or_single_line merged original.
Proof.
  intros Hmerge.
  assert (H : Forall2 kept_or_single_line merged original);
    [|split; [by eapply Forall2_length|done]].
  unfold mergeParagraphsJson in Hmerge.
  destruct (JSON_parse _) as [parsed|]; [|done].
  destruct (prop parsed "paragraphs") as [| | | | |arr|] eqn:Hp.
  6: { destruct (bool_decide _) eqn:Hlen; [done|].
       apply bool_decide_eq_false in Hlen. injection Hmerge as <-.
       apply Forall2_same_length_lookup_2.
       { rewrite length_map. destruct (decide (length arr = length original)); tauto. }
       intros i x y Hx _. right.
       change (map ?f arr) with (fmap (M := list) f arr) in Hx.
       apply list_lookup_fmap_Some in Hx as (v & -> & _).
       apply clean_paragraph_single_line. }
  all: destruct (prop parsed "replacements") as [| | | | |items|] eqn:Hr.
  all: try (injection Hmerge as <-;
            apply foldl_set_paragraph_kept;
            [intros; apply clean_paragraph_single_line|apply kept_refl]).
  all: cbn [truthy] in Hmerge.
  all: repeat match type of Hmerge with
         | context [if ?b then _ else _] => destruct b
         end.
  all: destruct (entries_of _) as [kvs|]; try done.
  all: injection Hmerge as <-.
  all: apply (foldl_set_paragraph_kept _ (fun kv => parseInt kv.1)
                (fun kv => clean_paragraph ToString stripMarkdownArtifacts kv.2));
    [intros; apply clean_paragraph_single_line|apply kept_refl].
Qed.

End Merge.

(** An engine for the examples: one text parses, as the object
    [{ replacements: [{ index: 2, text: 'Ottawa' }] }]. *)
Definition sample_parse (s : jsstring) : option json :=
  if bool_decide (s = js "{replacements}")
  then Some (JObj [(js "replacements",
                    JArr [JObj [(js "index", JNum (of_Z 2));
                                (js "text", JStr (js "Ottawa"))]])])
  else None.

Definition sample_ToString (v : json) : jsstring :=
  match v with JStr s => s | _ => [] end.

Definition sample_ToNumber (v : json) : number :=
  match v with JNum n => n | _ => NaN end.

Example merge_second_paragraph :
  mergeParagraphsJson sample_parse sample_ToString sample_ToNumber (fun _ => NaN)
    (fun s => s) (js "```json {replacements} ```") [js "Jane Doe"; js "Toronto"]
  = Return [js "Jane Doe"; js "Ottawa"].
Proof. vm_compute. reflexivity. Qed.

Lemma merge_keeps_the_layout_witness :
  length [js "Jane Doe"; js "Ottawa"] = length [js "Jane Doe"; js "Toronto"]
  /\ Forall2 kept_or_single_line [js "Jane Doe"; js "Ottawa"]
       [js "Jane Doe"; js "Toronto"].
Proof.
  apply (merge_keeps_the_layout sample_parse sample_ToString sample_ToNumber
           (fun _ => NaN) (fun s => s) (js "```json {replacements} ```")).
  vm_compute. reflexivity.
Defined.

(** *** What a run shows *)

Abbreviation G := (eff exn (list request)).

Section Run.

Variable JSON_parse : jsstring -> option json.
Variable ToString : json -> jsstring.
Variable ToNumber : json -> number.
Variable parseInt : jsstring -> number.
Variable toLowerCase : jsstring -> jsstring.
Variable stripMarkdownArtifacts : jsstring -> jsstring.
Variable containsPlaceholderTokens : jsstring -> bool.
Variable extractEmail : jsstring -> option jsstring.
Variable missingKeywordsFromText : jsstring -> list jsstring -> list jsstring.
Variable llm : list request -> request -> reply.
Variable gemini : bool.
Variable api_key_present : bool.
Variable original : option (list jsstring).
Variable resumeText : jsstring.
Variable jobDescription : jsstring.
Variable targetKeywords : list jsstring.

Lemma sends_weaken {A} (P Q : request -> Prop) (n k : nat) (m : G A) :
  (forall r, P r -> Q r) -> n <= k -> sends P n m -> sends Q k m.
Proof.
  intros HPQ Hnk Hm sent. destruct (Hm sent) as (rest & Hrest & HP & Hlen).
  exists rest. split; [done|]. split; [by eapply Forall_impl|lia].
Qed.

Lemma sends_first_draft :
  sends (fun _ => True) 2
    (first_draft JSON_parse ToString ToNumber parseInt stripMarkdownArtifacts
       llm gemini api_key_present original).
Proof.
  unfold first_draft. apply (sends_bind _ 1 1); [by apply sends_runOnce|].
  intros raw. cbv zeta. destruct original as [ps|]; [|apply sends_ret].
  apply (sends_try_catch _ 0 1); [apply sends_merged|]. intros _.
  apply (sends_bind _ 1 0); [by apply sends_runOnce|].
  intros raw2. apply sends_merged.
Qed.

Lemma bind_returns {A B} (m : G A) (f : A -> G B) sent b sent' :
  bind m f sent = (Return b, sent') ->
  exists a sent1, m sent = (Return a, sent1) /\ f a sent1 = (Return b, sent').
Proof.
  unfold bind. destruct (m sent) as [[a|e] sent1]; [|done]. eauto.
Qed.

(** The text that [finish] returns has passed its last checks. *)
Lemma finish_checked (cleaned text : jsstring) (sent sent' : list request) :
  finish JSON_parse ToString ToNumber parseInt toLowerCase stripMarkdownArtifacts
    containsPlaceholderTokens extractEmail missingKeywordsFromText llm gemini
    api_key_present original resumeText jobDescription targetKeywords cleaned sent
  = (Return text, sent') ->
  text <> []
  /\ containsPlaceholderTokens text = false
  /\ needs_email extractEmail resumeText text = false.
Proof.
  unfold finish. cbv zeta. intros H.
  apply bind_returns in H as (_ & sent1 & _ & H).
  apply bind_returns in H as (cleaned1 & sent2 & _ & H).
  apply bind_returns in H as (cleaned2 & sent3 & _ & H).
  destruct (bool_decide (cleaned2 = [])) eqn:Hempty; [done|].
  destruct (containsPlaceholderTokens cleaned2) eqn:Hplace; [done|].
  destruct (needs_email extractEmail resumeText cleaned2) eqn:Hmail; [done|].
  injection H as <- _. by apply bool_decide_eq_false in Hempty.
Qed.

(** X10. A generation sends at most four requests to the model (the first
    one, the repair of its JSON, the repair of placeholders, the
    refinement), and a text it shows is not empty, holds no placeholder
    token, and holds the email address found in the resume, if one was. *)
Theorem shown_resume_passed_the_checks (has_result : bool) :
  length (generateOptimizedResume JSON_parse ToString ToNumber parseInt toLowerCase
            stripMarkdownArtifacts containsPlaceholderTokens extractEmail
            missingKeywordsFromText llm gemini api_key_present original resumeText
            jobDescription targetKeywords has_result).2 <= 4
  /\ forall text,
       (generateOptimizedResume JSON_parse ToString ToNumber parseInt toLowerCase
          stripMarkdownArtifacts containsPlaceholderTokens extractEmail
          missingKeywordsFromText llm gemini api_key_present original resumeText
          jobDescription targetKeywords has_result).1 = Some (Shown text) ->
       text <> []
       /\ containsPlaceholderTokens text = false
       /\ needs_email extractEmail resumeText text = false.
Proof.
  unfold generateOptimizedResume. destruct has_result; cbn [negb]; [|split; [simpl; lia|done]].
  set (run := bind _ _).
  assert (Hsends : sends (fun _ => True) 4 run).
  { apply (sends_bind _ 2 2); [apply sends_first_draft|].
    intros cleaned. eapply sends_weaken; [|reflexivity|apply sends_finish]. done. }
  destruct (Hsends []) as (rest & Hrest & _ & Hlen).
  destruct (run []) as [[cleaned|e] sent] eqn:Hrun; cbn [fst snd] in *.
  - split; [by rewrite Hrest|]. intros text [= <-].
    apply bind_returns in Hrun as (draft & sent1 & _ & Hfinish).
    by eapply finish_checked.
  - split; [by rewrite Hrest|]. intros text. by destruct (aborted e).
Qed.

End Run.

End GenerateLaws.

(** ** More of StorageManager (src/unnamed/part_001) *)
Module Manager.

Import Num Effect Storage.

Local Open Scope nat_scope.

(** [resumes.find(r => r.isDefault) || null] *)
Definition getDefaultResume (s : local) : option Resume.t :=
  snd <$> list_find (fun r => Resume.isDefault r = true) (resumes s).

(** [jobs.find(j => j.id === id) || null] *)
Definition getJob (id : jsstring) (s : local) : option JobPosting.t :=
  snd <$> list_find (fun j => JobPosting.id j = id) (jobs s).

Definition saveApplication (application : Application.t) (s : local) : local :=
  set_applications (applications s ++ [application]) s.

Definition set_status (status : jsstring) (a : Application.t) : Application.t :=
  Application.mk (Application.id a) (Application.jobId a) (Application.resumeId a)
    (Application.coverLetterId a) (Application.appliedDate a) status.

(** [const app = applications.find(a => a.id === id)], then
    [app.status = status] and the write, if there is one. *)
Definition updateApplicationStatus (id status : jsstring) (s : local) : local :=
  match list_find (fun a => Application.id a = id) (applications s) with
  | Some (i, app) => set_applications (<[i := set_status status app]> (applications s)) s
  | None => s
  end.

Definition saveCoverLetter (coverLetter : CoverLetter.t) (s : local) : local :=
  set_coverLetters (coverLetters s ++ [coverLetter]) s.

Definition saveOptimizedResume (resume : OptimizedResume.t) (s : local) : local :=
  set_optimizedResumes (optimizedResumes s ++ [resume]) s.

Lemma find_none_app {A} (Q : A -> Prop) `{forall x, Decision (Q x)} (l : list A) x :
  ~ Q x -> list_find Q (l ++ [x]) = list_find Q l.
Proof.
  intros Hx. destruct (list_find Q l) as [[i y]|] eqn:Hfind.
  - by apply list_find_app_l.
  - apply list_find_None in Hfind.
    apply list_find_None, Forall_app. split; [done|].
    by apply Forall_singleton.
Qed.

Lemma find_default_unset rs :
  list_find (fun r => Resume.isDefault r = true) (map (Resume.set_isDefault false) rs)
  = None.
Proof.
  apply list_find_None, Forall_forall. intros r Hr.
  change (map ?f rs) with (fmap (M := list) f rs) in Hr.
  apply list_elem_of_fmap in Hr as (r0 & -> & _). cbn. discriminate.
Qed.

(** X11. The default resume after a save: a resume saved as the default is
    the one [getDefaultResume] returns, whatever was stored; a resume saved
    without the flag leaves the answer as it was. *)
Theorem saved_default_is_found (resume : Resume.t) (s : local) :
  (Resume.isDefault resume = true ->
   getDefaultResume (saveResume resume s) = Some resume)
  /\ (Resume.isDefault resume = false ->
      getDefaultResume (saveResume resume s) = getDefaultResume s).
Proof.
  unfold getDefaultResume, saveResume. cbn [resumes set_resumes]. split; intros Hd.
  - rewrite Hd. rewrite (Storage.find_pushed _ _ resume (find_default_unset _) Hd).
    done.
  - rewrite Hd. rewrite find_none_app; [done|]. rewrite Hd. discriminate.
Qed.

Lemma filter_filter_same {A} (Q : A -> Prop) `{forall x, Decision (Q x)} (l : list A) :
  filter Q (filter Q l) = filter Q l.
Proof.
  induction l as [|x l IH]; [done|]. rewrite filter_cons.
  destruct (decide (Q x)); [|done]. by rewrite filter_cons_True, IH.
Qed.

Lemma filter_swap {A} (Q R : A -> Prop) `{forall x, Decision (Q x)}
    `{forall x, Decision (R x)} (l : list A) :
  filter Q (filter R l) = filter R (filter Q l).
Proof.
  induction l as [|x l IH]; [done|]. rewrite !(filter_cons _ x).
  destruct (decide (R x)), (decide (Q x));
    rewrite ?filter_cons_True, ?filter_cons_False by done; by rewrite ?IH.
Qed.

(** X12. [deleteResume] removes every resume of the id and keeps the
    others in their order; it keeps ids distinct and at most one default
    resume; deleting again changes nothing. The default resume stays the
    default when another resume is deleted, and when the default resume
    itself is deleted no other resume takes the flag. *)
Theorem deleteResume_removes (id : jsstring) (s : local) :
  (forall r, r ∈ resumes (deleteResume id s) <-> r ∈ resumes s /\ Resume.id r <> id)
  /\ resumes (deleteResume id s) `sublist_of` resumes s
  /\ (NoDup (Resume.id <$> resumes s) ->
      NoDup (Resume.id <$> resumes (deleteResume id s)))
  /\ (one_default (resumes s) -> one_default (resumes (deleteResume id s)))
  /\ deleteResume id (deleteResume id s) = deleteResume id s
  /\ (forall d, getDefaultResume s = Some d -> Resume.id d <> id ->
        getDefaultResume (deleteResume id s) = Some d)
  /\ (forall d, one_default (resumes s) -> getDefaultResume s = Some d ->
        Resume.id d = id -> getDefaultResume (deleteResume id s) = None).
Proof.
  unfold deleteResume, getDefaultResume, one_default. cbn [resumes set_resumes].
  set (rs := resumes s).
  split; [|split; [|split; [|split; [|split; [|split]]]]].
  - intros r. rewrite list_elem_of_filter. tauto.
  - apply sublist_filter.
  - intros Hnd. apply (sublist_NoDup _ (Resume.id <$> rs)); [done|].
    apply fmap_sublist, sublist_filter.
  - intros Hone. rewrite filter_swap.
    etrans; [apply length_filter|done].
  - unfold set_resumes. cbn [resumes jobs applications coverLetters optimizedResumes cloudSync].
    by rewrite filter_filter_same.
  - intros d Hd Hid.
    destruct (list_find _ rs) as [[i d']|] eqn:Hfind; [|done].
    injection Hd as ->. apply list_find_Some in Hfind as (Hi & Hdef & Hleast).
    rewrite <- (take_drop_middle rs i d Hi), filter_app, filter_cons_True by done.
    rewrite list_find_app_r.
    + cbn. rewrite decide_True by done. done.
    + apply list_find_None, Forall_forall. intros r Hr.
      apply list_elem_of_filter in Hr as [_ Hr].
      apply elem_of_take in Hr as (j & Hj & Hlt). by eapply Hleast.
  - intros d Hone Hd Hid.
    destruct (list_find _ rs) as [[i d']|] eqn:Hfind; [|done].
    injection Hd as ->. apply list_find_Some in Hfind as (Hi & Hdef & _).
    assert (Hall : filter (fun r => Resume.isDefault r = true) rs = [d]).
    { assert (Hin : d ∈ filter (fun r => Resume.isDefault r = true) rs).
      { apply list_elem_of_filter. split; [done|by eapply list_elem_of_lookup_2]. }
      destruct (filter _ rs) as [|x [|y l]]; [by apply elem_of_nil in Hin| |simpl in Hone; lia].
      by apply list_elem_of_singleton in Hin as ->. }
    cbn. apply fmap_None, list_find_None, Forall_forall. intros r Hr Hrd.
    apply list_elem_of_filter in Hr as [Hrid Hr].
    assert (Hrin : r ∈ filter (fun r => Resume.isDefault r = true) rs)
      by (by apply list_elem_of_filter).
    rewrite Hall in Hrin. apply list_elem_of_singleton in Hrin as ->. done.
Qed.

End Manager.

(** ** More on the cloud operations (src/src/firebase/sync.ts) *)
Module SyncLaws.

Import Num Effect Storage.

Local Open Scope nat_scope.

(** The five stored lists. *)
Definition stored (w : world)
  : list Resume.t * list JobPosting.t * list Application.t
    * list CoverLetter.t * list OptimizedResume.t :=
  (resumes (storage w), jobs (storage w), applications (storage w),
   coverLetters (storage w), optimizedResumes (storage w)).

(** What the cloud operations other than the pull have no hand in: the
    stored lists and the popup. *)
Definition local_side (w : world) := (stored w, popup w).

(** [m] leaves the world as it is. *)
Definition reads {A} (m : M A) : Prop := forall w, (m w).2 = w.

Lemma reads_steady {A T} (v : world -> T) (m : M A) : reads m -> steady v m.
Proof. intros Hm w. by rewrite Hm. Qed.

(** A computation that throws leaves the view as it was. *)
Definition steady_if_thrown {A T} (v : world -> T) (m : M A) : Prop :=
  forall w, match (m w).1 with
            | Throw _ => v (m w).2 = v w
            | Return _ => True
            end.

Lemma thrown_steady {A T} (v : world -> T) (m : M A) :
  steady v m -> steady_if_thrown v m.
Proof. intros Hm w. by destruct (m w).1. Qed.

Lemma thrown_bind {A B T} (v : world -> T) (m : M A) (k : A -> M B) :
  steady v m -> (forall a, steady_if_thrown v (k a)) ->
  steady_if_thrown v (bind m k).
Proof.
  intros Hm Hk w. unfold bind. specialize (Hm w).
  destruct (m w) as [[a|e] w1]; cbn [fst snd] in *; [|done].
  specialize (Hk a w1). destruct (k a w1) as [[b|e] w2]; cbn [fst snd] in *;
    [done|congruence].
Qed.

Section Sync.

Variable toLowerCase : jsstring -> jsstring.
Variable ToString : jsval -> jsstring.
Variable ToNumber : jsval -> number.
Variable cfg : config.
Variable now : number.

Lemma local_updateCloudSyncState patch :
  steady local_side (updateCloudSyncState toLowerCase cfg patch).
Proof. done. Qed.

Lemma local_ensureUser : steady local_side (ensureUser toLowerCase cfg).
Proof.
  unfold ensureUser. destruct (negb _); [apply steady_throw|].
  destruct (currentUser cfg) as [u|]; [|apply steady_throw].
  destruct (negb _); [apply steady_throw|].
  apply steady_bind; [done|]. intros _. apply steady_ret.
Qed.

Lemma local_setDoc p data : steady local_side (setDoc cfg p data).
Proof. intros w. unfold setDoc. by destruct (online cfg). Qed.

Lemma local_deleteDoc p : steady local_side (deleteDoc cfg p).
Proof. intros w. unfold deleteDoc. by destruct (online cfg). Qed.

Lemma reads_getDocs coll : reads (getDocs cfg coll).
Proof. intros w. unfold getDocs. by destruct (online cfg). Qed.

Lemma local_push message collection id data :
  steady local_side (push toLowerCase cfg now message collection id data).
Proof.
  unfold push. destruct (negb _); [apply steady_ret|].
  destruct (negb _); [apply steady_throw|].
  apply steady_bind; [apply local_ensureUser|]. intros u.
  apply steady_bind; [apply local_setDoc|]. intros _.
  apply local_updateCloudSyncState.
Qed.

Lemma local_cloud_delete collection id :
  steady local_side (cloud_delete toLowerCase cfg collection id).
Proof.
  unfold cloud_delete. destruct (negb _); [apply steady_ret|].
  destruct (negb _); [apply steady_ret|].
  apply steady_bind; [apply local_ensureUser|]. intros u. apply local_deleteDoc.
Qed.

Lemma reads_hydrate u count existing resume :
  reads (hydrate ToString ToNumber cfg u count existing resume).
Proof.
  intros w. unfold hydrate, try_catch, bind, ret. cbv zeta.
  destruct (nonempty _); [done|]. destruct (_ && _); [|done].
  pose proof (reads_getDocs (users u (js "resumes") (Resume.id resume)
                             ++ [js "pdfChunks"]) w) as H.
  by destruct (getDocs _ _ w) as [[docs|e] w'].
Qed.

Lemma reads_pull_resumes u docs : forall rs,
  reads (pull_resumes ToString ToNumber cfg now u docs rs).
Proof.
  induction docs as [|r rest IH]; intros rs w; [done|].
  cbn [pull_resumes]. cbv zeta. unfold bind.
  pose proof (reads_hydrate u (pdfChunkCount r)
                (snd <$> list_find
                   (fun x => Resume.id x
                             = Resume.id (pulled_resume ToString ToNumber now r)) rs)
                (pulled_resume ToString ToNumber now r) w) as H.
  destruct (hydrate _ _ _ _ _ _ _ w) as [[resume|e] w']; cbn [snd] in H; subst w';
    [apply IH|done].
Qed.

(** What the pull has no hand in: the cloud store and the popup. *)
Definition cloud_side (w : world) := (firestore w, popup w).

Lemma cloud_ensureUser : steady cloud_side (ensureUser toLowerCase cfg).
Proof.
  unfold ensureUser. destruct (negb _); [apply steady_throw|].
  destruct (currentUser cfg) as [u|]; [|apply steady_throw].
  destruct (negb _); [apply steady_throw|].
  apply steady_bind; [done|]. intros _. apply steady_ret.
Qed.

Lemma local_pushes_of_everything :
  steady local_side (tryCloudPushAllFromLocal toLowerCase cfg now).
Proof.
  unfold tryCloudPushAllFromLocal. destruct (negb _); [apply steady_ret|].
  apply steady_try_catch.
  2:{ intros e. apply steady_bind; [done|]. intros _. apply steady_throw. }
  apply steady_bind; [apply local_ensureUser|]. intros _.
  apply steady_bind; [done|]. intros s.
  repeat (apply steady_bind;
          [apply steady_for_each; intros x; apply local_push|intros _]).
  done.
Qed.

Lemma cloud_pull :
  steady cloud_side (tryCloudPullAllToLocal toLowerCase ToString ToNumber cfg now).
Proof.
  unfold tryCloudPullAllToLocal. destruct (negb _); [apply steady_ret|].
  destruct (negb _); [apply steady_throw|].
  apply steady_try_catch.
  2:{ intros e. apply steady_bind; [done|]. intros _. apply steady_throw. }
  apply steady_bind; [apply cloud_ensureUser|]. intros u.
  do 5 (apply steady_bind; [apply reads_steady, reads_getDocs|intros ?]).
  apply steady_bind; [done|]. intros s.
  apply steady_bind; [apply reads_steady, reads_pull_resumes|]. intros rs.
  apply steady_bind; [done|]. intros _. done.
Qed.

(** X13. The uploads never touch what is stored locally, and the download
    never touches the cloud: whatever their outcome, the five pushes, the
    three deletes and the push of everything leave the five stored lists
    and the popup as they were, and the pull leaves the cloud store and
    the popup as they were. *)
Theorem sync_is_one_way (w : world) :
  (forall resume,
     local_side (tryCloudSyncResume toLowerCase cfg now resume w).2 = local_side w)
  /\ (forall optimized,
        local_side (tryCloudSyncOptimizedResume toLowerCase cfg now optimized w).2
        = local_side w)
  /\ (forall letter,
        local_side (tryCloudSyncCoverLetter toLowerCase cfg now letter w).2
        = local_side w)
  /\ (forall job,
        local_side (tryCloudSyncJob toLowerCase cfg now job w).2 = local_side w)
  /\ (forall application,
        local_side (tryCloudSyncApplication toLowerCase cfg now application w).2
        = local_side w)
  /\ (forall id,
        local_side (tryCloudDeleteOptimizedResume toLowerCase cfg id w).2
        = local_side w)
  /\ (forall id,
        local_side (tryCloudDeleteCoverLetter toLowerCase cfg id w).2 = local_side w)
  /\ (forall id,
        local_side (tryCloudDeleteApplication toLowerCase cfg id w).2 = local_side w)
  /\ local_side (tryCloudPushAllFromLocal toLowerCase cfg now w).2 = local_side w
  /\ cloud_side (tryCloudPullAllToLocal toLowerCase ToString ToNumber cfg now w).2
     = cloud_side w.
Proof.
  repeat split; intros;
    first [apply local_push | apply local_cloud_delete
          | apply local_pushes_of_everything | apply cloud_pull].
Qed.

(** What holds of the world when [m] returns. *)
Definition when_returned {A} (Q : world -> Prop) (m : M A) : Prop :=
  forall w, match (m w).1 with
            | Return _ => Q (m w).2
            | Throw _ => True
            end.

Lemma returned_bind {A B} (Q : world -> Prop) (m : M A) (k : A -> M B) :
  (forall a, when_returned Q (k a)) -> when_returned Q (bind m k).
Proof.
  intros Hk w. unfold bind. destruct (m w) as [[a|e] w1]; [|done]. apply Hk.
Qed.

Definition status (w : world) : CloudSyncState := cloudSync (storage w).

(** The body of the pull, inside its [try]. *)
Lemma pull_body_thrown :
  steady_if_thrown local_side
    (let! u := ensureUser toLowerCase cfg in
     let! cloudResumes := getDocs cfg [js "users"; u; js "resumes"] in
     let! cloudOptimized := getDocs cfg [js "users"; u; js "optimizedResumes"] in
     let! cloudLetters := getDocs cfg [js "users"; u; js "coverLetters"] in
     let! cloudApps := getDocs cfg [js "users"; u; js "applications"] in
     let! cloudJobs := getDocs cfg [js "users"; u; js "jobs"] in
     let! local := get_storage in
     let! resumes := pull_resumes ToString ToNumber cfg now u cloudResumes
                       (resumes local) in
     put_storage (fun s =>
       mkLocal (enforce_default resumes)
         (foldl (upsertById JobPosting.id) (jobs local)
                (map (pulled_job ToString ToNumber now) cloudJobs))
         (foldl (upsertById Application.id) (applications local)
                (map (pulled_application ToString ToNumber now) cloudApps))
         (foldl (upsertById CoverLetter.id) (coverLetters local)
                (map (pulled_letter ToString ToNumber now) cloudLetters))
         (foldl (upsertById OptimizedResume.id) (optimizedResumes local)
                (map (pulled_optimized ToString ToNumber now) cloudOptimized))
         (cloudSync s)) ;;
     updateCloudSyncState toLowerCase cfg (patch_pulled now)).
Proof.
  apply thrown_bind; [apply local_ensureUser|]. intros u.
  do 5 (apply thrown_bind; [apply reads_steady, reads_getDocs|intros ?]).
  apply thrown_bind; [done|]. intros s.
  apply thrown_bind; [apply reads_steady, reads_pull_resumes|]. intros rs.
  by intros w.
Qed.

(** X14. A pull that fails changes no stored record, and the outcome of a
    pull is written in the sync status: with Firestore at hand, a failure
    leaves its message and the time in [lastError] and [lastErrorAt]; a
    pull that returns with Firebase enabled leaves the time in [lastPullAt]
    and clears [lastError]. *)
Theorem pull_outcome_is_recorded (w : world) :
  let r := tryCloudPullAllToLocal toLowerCase ToString ToNumber cfg now w in
  match r.1 with
  | Throw e =>
      local_side r.2 = local_side w
      /\ (getFirestore toLowerCase cfg = true ->
          lastError (status r.2) = Some e /\ lastErrorAt (status r.2) = Some now)
  | Return _ =>
      isFirebaseEnabled toLowerCase cfg = true ->
      lastPullAt (status r.2) = Some now /\ lastError (status r.2) = None
  end.
Proof.
  cbv zeta. unfold tryCloudPullAllToLocal.
  destruct (isFirebaseEnabled toLowerCase cfg) eqn:Hon; cbn [negb]; [|done].
  destruct (getFirestore toLowerCase cfg) eqn:Hfs; cbn [negb]; [|done].
  unfold try_catch.
  match goal with |- context [match ?body w with _ => _ end] =>
    pose proof (pull_body_thrown w) as Hthrown;
    assert (Hret : when_returned
              (fun w' => lastPullAt (status w') = Some now
                         /\ lastError (status w') = None) body);
    [|specialize (Hret w); destruct (body w) as [[[]|e] w1]]
  end.
  - apply returned_bind. intros u.
    do 5 (apply returned_bind; intros ?).
    apply returned_bind. intros s. apply returned_bind. intros rs.
    by intros w0.
  - cbn [fst snd] in *. by intros _.
  - cbn [fst snd] in *. split; [|done].
    etrans; [|exact Hthrown]. done.
Qed.

Lemma bind_get_storage {B} (k : local -> M B) w :
  bind get_storage k w = k (storage w) w.
Proof. done. Qed.

Lemma bind_returned {A B} (m : M A) (k : A -> M B) a w w' :
  m w = (Return a, w') -> bind m k w = k a w'.
Proof. intros H. unfold bind. by rewrite H. Qed.

(** Every resume of [rs] is in [rs'] at its place, under its id and, when
    it has file content, with that content. *)
Definition still_there (rs rs' : list Resume.t) : Prop :=
  forall i r, rs !! i = Some r ->
    exists r', rs' !! i = Some r' /\ Resume.id r' = Resume.id r
               /\ (Resume.content r <> [] -> Resume.content r' = Resume.content r).

Lemma still_there_refl rs : still_there rs rs.
Proof. intros i r Hi. by exists r. Qed.

Lemma still_there_trans rs1 rs2 rs3 :
  still_there rs1 rs2 -> still_there rs2 rs3 -> still_there rs1 rs3.
Proof.
  intros H12 H23 i r Hi.
  destruct (H12 i r Hi) as (r2 & Hi2 & Hid2 & Hc2).
  destruct (H23 i r2 Hi2) as (r3 & Hi3 & Hid3 & Hc3).
  exists r3. split; [done|]. split; [congruence|].
  intros Hne. rewrite Hc3; [by apply Hc2|]. by rewrite Hc2.
Qed.

Lemma still_there_enforce_default rs : still_there rs (enforce_default rs).
Proof.
  unfold enforce_default. destruct (list_find _ rs) as [[j d]|];
    [|apply still_there_refl].
  intros i r Hi. eexists. split; [|split; [|intros _]].
  - change (map ?f rs) with (f <$> rs). by rewrite list_lookup_fmap, Hi.
  - done.
  - done.
Qed.

Lemma still_there_upsert rs item :
  (forall x, snd <$> list_find (fun x => Resume.id x = Resume.id item) rs = Some x ->
             Resume.content x <> [] -> Resume.content item = Resume.content x) ->
  still_there rs (upsertById Resume.id rs item).
Proof.
  intros Hcontent. unfold upsertById.
  destruct (list_find _ rs) as [[idx x]|] eqn:Hfind.
  - pose proof Hfind as Hf. apply list_find_Some in Hf as (Hidx & Hx & _).
    intros i r Hi. destruct (decide (i = idx)) as [->|Hne].
    + assert (r = x) as -> by congruence. exists item.
      split; [apply list_lookup_insert_eq; by eapply lookup_lt_Some|].
      split; [done|]. intros Hc. by apply Hcontent.
    + exists r. by rewrite list_lookup_insert_ne.
  - intros i r Hi. exists r. split; [|done]. by apply lookup_app_l_Some.
Qed.

Lemma hydrate_kept u count existing resume w :
  exists r', (hydrate ToString ToNumber cfg u count existing resume w).1 = Return r'
             /\ Resume.id r' = Resume.id resume
             /\ (forall x, existing = Some x -> Resume.content x <> [] ->
                           Resume.content r' = Resume.content x).
Proof.
  unfold hydrate. cbv zeta.
  destruct (nonempty _) eqn:Hlocal.
  - eexists. split; [done|]. split; [done|]. by intros x ->.
  - assert (Hnone : forall x, existing = Some x -> Resume.content x <> [] ->
                              Resume.content resume = Resume.content x).
    { intros x -> Hne. unfold nonempty in Hlocal.
      by apply bool_decide_eq_false in Hlocal. }
    destruct (_ && _).
    + unfold try_catch, bind, getDocs. destruct (online cfg).
      * eexists. split; [done|]. split; [done|].
        intros x Hx Hne. unfold nonempty in Hlocal.
        apply bool_decide_eq_false in Hlocal. by subst existing.
      * by exists resume.
    + by exists resume.
Qed.

Lemma pull_resumes_kept u docs : forall rs w,
  exists rs', (pull_resumes ToString ToNumber cfg now u docs rs w).1 = Return rs'
              /\ still_there rs rs'.
Proof.
  induction docs as [|r rest IH]; intros rs w.
  { exists rs. split; [done|apply still_there_refl]. }
  cbn [pull_resumes]. cbv zeta. unfold bind.
  set (existing := snd <$> list_find _ rs).
  destruct (hydrate_kept u (pdfChunkCount r) existing
              (pulled_resume ToString ToNumber now r) w) as (r' & Hr' & Hid & Hc).
  pose proof (reads_hydrate u (pdfChunkCount r) existing
                (pulled_resume ToString ToNumber now r) w) as Hw.
  destruct (hydrate _ _ _ _ _ _ _ w) as [o w']. cbn [fst snd] in *. subst o w'.
  destruct (IH (upsertById Resume.id rs r') w) as (rs' & Hrs' & Hkept).
  exists rs'. split; [done|].
  eapply still_there_trans; [|exact Hkept].
  apply still_there_upsert. intros x Hx. apply Hc. subst existing.
  by rewrite <- Hid.
Qed.

Lemma upsert_ids_prefix {A} (id : A -> jsstring) (arr : list A) (item : A) :
  (id <$> arr) `prefix_of` (id <$> upsertById id arr item).
Proof.
  unfold upsertById. destruct (list_find _ arr) as [[idx x]|] eqn:Hfind.
  - apply list_find_Some in Hfind as (Hidx & Hx & _).
    rewrite list_fmap_insert, list_insert_id; [done|].
    rewrite list_lookup_fmap, Hidx. cbn. by rewrite Hx.
  - rewrite fmap_app. by apply prefix_app_r.
Qed.

Lemma upserts_ids_prefix {A} (id : A -> jsstring) (items : list A) : forall arr,
  (id <$> arr) `prefix_of` (id <$> foldl (upsertById id) arr items).
Proof.
  induction items as [|item rest IH]; intros arr; [done|].
  cbn [foldl]. etrans; [apply upsert_ids_prefix|apply IH].
Qed.

(** X15. A pull drops and moves no local record. Whatever its outcome,
    every stored resume is afterwards at the same place under the same id,
    with its file content when it had some, and the ids of the stored
    jobs, applications, cover letters and optimized resumes are the first
    ids, in the same order, of the lists stored afterwards. *)
Theorem pull_keeps_local_records (w : world) :
  let s := storage w in
  let s' := storage (tryCloudPullAllToLocal toLowerCase ToString ToNumber cfg now w).2 in
  (forall i r, resumes s !! i = Some r ->
     exists r', resumes s' !! i = Some r' /\ Resume.id r' = Resume.id r
                /\ (Resume.content r <> [] -> Resume.content r' = Resume.content r))
  /\ (JobPosting.id <$> jobs s) `prefix_of` (JobPosting.id <$> jobs s')
  /\ (Application.id <$> applications s) `prefix_of` (Application.id <$> applications s')
  /\ (CoverLetter.id <$> coverLetters s) `prefix_of` (CoverLetter.id <$> coverLetters s')
  /\ (OptimizedResume.id <$> optimizedResumes s)
       `prefix_of` (OptimizedResume.id <$> optimizedResumes s').
Proof.
  cbv zeta.
  pose (good := fun w' : world =>
    still_there (resumes (storage w)) (resumes (storage w'))
    /\ (JobPosting.id <$> jobs (storage w))
         `prefix_of` (JobPosting.id <$> jobs (storage w'))
    /\ (Application.id <$> applications (storage w))
         `prefix_of` (Application.id <$> applications (storage w'))
    /\ (CoverLetter.id <$> coverLetters (storage w))
         `prefix_of` (CoverLetter.id <$> coverLetters (storage w'))
    /\ (OptimizedResume.id <$> optimizedResumes (storage w))
         `prefix_of` (OptimizedResume.id <$> optimizedResumes (storage w'))).
  assert (Hsame : forall w', stored w' = stored w -> good w').
  { intros w' Hw'. unfold stored in Hw'. unfold good.
    injection Hw' as -> -> -> -> ->. split; [apply still_there_refl|done]. }
  change (good (tryCloudPullAllToLocal toLowerCase ToString ToNumber cfg now w).2).
  unfold tryCloudPullAllToLocal.
  destruct (negb _); [by apply Hsame|]. destruct (negb _); [by apply Hsame|].
  unfold try_catch.
  match goal with |- context [match ?body w with _ => _ end] =>
    pose proof (pull_body_thrown w) as Hthrown;
    assert (Hret : hoare (fun w0 => stored w0 = stored w) body
                     (fun o w' => match o with
                                  | Return _ => good w'
                                  | Throw _ => True
                                  end));
    [|specialize (Hret w eq_refl); destruct (body w) as [[[]|e] w1]]
  end.
  - assert (Hstep : forall A (m : M A) (k : A -> M unit),
              steady local_side m ->
              (forall a, hoare (fun w0 => stored w0 = stored w) (k a)
                           (fun o w' => match o with
                                        | Return _ => good w'
                                        | Throw _ => True
                                        end)) ->
              hoare (fun w0 => stored w0 = stored w) (bind m k)
                (fun o w' => match o with
                             | Return _ => good w'
                             | Throw _ => True
                             end)).
    { intros A m k Hm Hk w0 Hw0. unfold bind. specialize (Hm w0).
      destruct (m w0) as [[a|e] w1]; cbn [fst snd] in *; [|done].
      apply Hk. unfold local_side in Hm. congruence. }
    apply Hstep; [apply local_ensureUser|]. intros u.
    do 5 (apply Hstep; [apply reads_steady, reads_getDocs|intros ?]).
    intros w0 Hw0. rewrite bind_get_storage.
    destruct (pull_resumes_kept u a (resumes (storage w0)) w0) as (rs' & Hrs' & Hkept).
    pose proof (reads_pull_resumes u a (resumes (storage w0)) w0) as Hw1.
    rewrite (bind_returned _ _ rs' w0 w0).
    2:{ destruct (pull_resumes _ _ _ _ _ _ _ w0) as [o w1]. cbn [fst snd] in *.
        by subst o w1. }
    unfold good. cbn. unfold stored in Hw0.
    injection Hw0 as <- <- <- <- <-.
    split; [|repeat split; apply upserts_ids_prefix].
    eapply still_there_trans; [exact Hkept|apply still_there_enforce_default].
  - done.
  - cbn [fst snd] in *. apply Hsame. unfold local_side in Hthrown.
    cbn. unfold stored in *. cbn in *. congruence.
Qed.

(** X16. A push writes one document or none. When it throws, the cloud
    store is as before. When it returns with Firebase enabled, a user [u]
    is signed in and the store differs in the one document
    [users/u/<collection>/<id>], which holds the fields pushed and, of the
    fields it held before, those that are not pushed (the merge); the time
    is left in [lastPushAt] and the user in [uid]. The five pushes
    ([tryCloudSyncResume] to [tryCloudSyncApplication]) are [push] at their
    collection and fields. *)
Theorem push_writes_one_document (message collection id : jsstring)
    (data : document) (w : world) :
  let r := push toLowerCase cfg now message collection id data w in
  match r.1 with
  | Return _ =>
      isFirebaseEnabled toLowerCase cfg = true ->
      exists u, currentUser cfg = Some u
        /\ firestore r.2
           = <[users u collection id
               := data ∪ default ∅ (firestore w !! users u collection id)]>
               (firestore w)
        /\ lastPushAt (status r.2) = Some now
        /\ uid (status r.2) = Some u
  | Throw _ => firestore r.2 = firestore w
  end.
Proof.
  cbv zeta. unfold push.
  destruct (isFirebaseEnabled toLowerCase cfg) eqn:Hon; cbn [negb]; [|done].
  destruct (negb _); [done|].
  unfold ensureUser. destruct (negb _); [done|].
  destruct (currentUser cfg) as [u|]; [|done].
  destruct (negb _); [done|].
  unfold bind, setDoc. cbn. destruct (online cfg); cbn; [|done].
  intros _. by exists u.
Qed.

(** The cloud store has a document for the record [id] of [collection],
    under its id. *)
Definition has_doc (u collection id : jsstring) (w : world) : Prop :=
  exists d, firestore w !! users u collection id = Some d
            /\ d !! "id"%string = Some (VStr id).

Definition keeps {A} (P : world -> Prop) (m : M A) : Prop :=
  forall w, P w -> P (m w).2.

Lemma keeps_bind {A B} (P : world -> Prop) (m : M A) (k : A -> M B) :
  keeps P m -> (forall a, keeps P (k a)) -> keeps P (bind m k).
Proof.
  intros Hm Hk w Hw. unfold bind. specialize (Hm w Hw).
  destruct (m w) as [[a|e] w1]; cbn [snd] in *; [by apply Hk|done].
Qed.

Lemma keeps_for_each {A} (P : world -> Prop) (f : A -> M unit) xs :
  (forall x, keeps P (f x)) -> keeps P (for_each f xs).
Proof.
  intros Hf. induction xs as [|x r IH]; [by intros w|].
  cbn [for_each]. apply keeps_bind; auto.
Qed.

Lemma keeps_cloud {A} (P : world -> Prop) (m : M A) :
  (forall w w', firestore w' = firestore w -> P w -> P w') ->
  steady cloud_side m -> keeps P m.
Proof.
  intros HP Hm w Hw. eapply HP; [|exact Hw].
  specialize (Hm w). unfold cloud_side in Hm. congruence.
Qed.

Lemma has_doc_cloud u collection id w w' :
  firestore w' = firestore w -> has_doc u collection id w -> has_doc u collection id w'.
Proof. unfold has_doc. by intros ->. Qed.

Lemma push_keeps_doc u collection id message collection' id' data :
  data !! "id"%string = Some (VStr id') ->
  keeps (has_doc u collection id)
        (push toLowerCase cfg now message collection' id' data).
Proof.
  intros Hid w (d & Hd & Hd_id). unfold push.
  destruct (negb _); [by exists d|]. destruct (negb _); [by exists d|].
  unfold ensureUser. destruct (negb _); [by exists d|].
  destruct (currentUser cfg) as [u'|]; [|by exists d].
  destruct (negb _); [by exists d|].
  unfold bind, setDoc. cbn. destruct (online cfg); cbn; [|by exists d].
  unfold has_doc. cbn.
  destruct (decide (users u' collection' id' = users u collection id)) as [Heq|Hne].
  - rewrite Heq, lookup_insert_eq. eexists. split; [done|].
    apply lookup_union_Some_l. rewrite Hid. unfold users in Heq. congruence.
  - rewrite lookup_insert_ne by done. by exists d.
Qed.

Lemma push_adds_doc message collection id data w :
  isFirebaseEnabled toLowerCase cfg = true ->
  data !! "id"%string = Some (VStr id) ->
  (push toLowerCase cfg now message collection id data w).1 = Return tt ->
  forall u, currentUser cfg = Some u ->
  has_doc u collection id (push toLowerCase cfg now message collection id data w).2.
Proof.
  intros Hon Hid. unfold push. rewrite Hon. cbn [negb].
  destruct (negb _); [done|].
  unfold ensureUser. destruct (negb _); [done|].
  destruct (currentUser cfg) as [u'|]; [|done].
  destruct (negb _); [done|].
  unfold bind, setDoc. cbn. destruct (online cfg); cbn; [|done].
  intros _ u [= ->]. unfold has_doc. cbn. rewrite lookup_insert_eq.
  eexists. split; [done|]. by apply lookup_union_Some_l.
Qed.

Lemma for_each_uploads {A} (f : A -> M unit) (P : A -> world -> Prop) xs :
  (forall x y, keeps (P x) (f y)) ->
  (forall x w, (f x w).1 = Return tt -> P x (f x w).2) ->
  forall w, (for_each f xs w).1 = Return tt ->
  forall x, x ∈ xs -> P x (for_each f xs w).2.
Proof.
  intros Hkeeps Hadds. induction xs as [|y r IH]; intros w Hret x Hx.
  { by apply elem_of_nil in Hx. }
  cbn [for_each] in *. unfold bind in *.
  pose proof (Hadds y w) as Hy.
  destruct (f y w) as [[[]|e] w1]; cbn [fst snd] in *; [|done].
  apply elem_of_cons in Hx as [->|Hx].
  - apply (keeps_for_each (P y) f r (Hkeeps y)). by apply Hy.
  - by apply IH.
Qed.

Lemma bind_inv {A B} (m : M A) (k : A -> M B) w b :
  (bind m k w).1 = Return b ->
  exists a, (m w).1 = Return a /\ bind m k w = k a (m w).2.
Proof.
  unfold bind. destruct (m w) as [[a|e] w1]; [|done]. intros _. by exists a.
Qed.

Lemma id_of_resume_fields r rest :
  (list_to_map (resume_fields r ++ rest) : document) !! "id"%string
  = Some (VStr (Resume.id r)).
Proof. unfold resume_fields. cbn [app]. by rewrite list_to_map_cons, lookup_insert_eq. Qed.

Lemma ensureUser_returned w u :
  (ensureUser toLowerCase cfg w).1 = Return u -> currentUser cfg = Some u.
Proof.
  unfold ensureUser. destruct (negb _); [done|].
  destruct (currentUser cfg) as [u'|]; [|done].
  destruct (negb _); [done|]. by intros [= ->].
Qed.

Ltac id_field :=
  unfold resume_fields; cbn [app]; by rewrite list_to_map_cons, lookup_insert_eq.

Ltac pushes_keep_doc :=
  unfold tryCloudSyncResume, tryCloudSyncOptimizedResume, tryCloudSyncCoverLetter,
    tryCloudSyncApplication, tryCloudSyncJob;
  repeat (apply keeps_bind;
          [apply keeps_for_each; intros ?; apply push_keeps_doc; id_field|intros _]);
  apply keeps_cloud; [apply has_doc_cloud|done].

Ltac pushes_add_doc Hon Hu H :=
  apply (for_each_uploads _ (fun x => has_doc _ _ (_ x)));
  [intros ? ?; apply push_keeps_doc; id_field
  |intros ? ? Hpushed; apply (push_adds_doc _ _ _ _ _ Hon); [id_field|exact Hpushed|exact Hu]
  |exact H].

(** X17. When the push of everything returns with Firebase enabled, a user
    [u] is signed in and every stored resume, optimized resume, cover
    letter, application and job has a document under its id in its
    collection of [users/u]; the time is left in [lastPushAt] and
    [lastError] is cleared. *)
Theorem push_of_everything_uploads_every_record (w : world) :
  isFirebaseEnabled toLowerCase cfg = true ->
  (tryCloudPushAllFromLocal toLowerCase cfg now w).1 = Return tt ->
  let w' := (tryCloudPushAllFromLocal toLowerCase cfg now w).2 in
  exists u, currentUser cfg = Some u
    /\ (forall x, x ∈ resumes (storage w) ->
          has_doc u (js "resumes") (Resume.id x) w')
    /\ (forall x, x ∈ optimizedResumes (storage w) ->
          has_doc u (js "optimizedResumes") (OptimizedResume.id x) w')
    /\ (forall x, x ∈ coverLetters (storage w) ->
          has_doc u (js "coverLetters") (CoverLetter.id x) w')
    /\ (forall x, x ∈ applications (storage w) ->
          has_doc u (js "applications") (Application.id x) w')
    /\ (forall x, x ∈ jobs (storage w) -> has_doc u (js "jobs") (JobPosting.id x) w')
    /\ lastPushAt (status w') = Some now
    /\ lastError (status w') = None.
Proof.
  intros Hon. cbv zeta. unfold tryCloudPushAllFromLocal. rewrite Hon. cbn [negb].
  unfold try_catch.
  match goal with |- context [match ?body w with _ => _ end] =>
    destruct (body w) as [[[]|e] w'] eqn:Hbody; cbn [fst snd]; [|done]
  end.
  intros _.
  assert (Hret : forall A (m : M A) k w0,
            bind m k w0 = (Return tt, w') ->
            exists a, (m w0).1 = Return a /\ k a (m w0).2 = (Return tt, w')).
  { intros A m k w0 H. destruct (bind_inv m k w0 tt) as (a & Ha & Heq);
      [by rewrite H|]. exists a. split; [done|congruence]. }
  apply Hret in Hbody as (u & Hu & Hbody). apply ensureUser_returned in Hu.
  pose proof (local_ensureUser w) as Hlocal.
  set (w1 := (ensureUser toLowerCase cfg w).2) in *.
  rewrite bind_get_storage in Hbody.
  assert (Hstored : stored w1 = stored w) by (unfold local_side in Hlocal; congruence).
  unfold stored in Hstored. injection Hstored as <- <- <- <- <-.
  apply Hret in Hbody as ([] & H1 & Hbody).
  set (w2 := (for_each _ (resumes _) w1).2) in *.
  pose proof Hbody as Hrest2.
  apply Hret in Hbody as ([] & H2 & Hbody).
  set (w3 := (for_each _ (optimizedResumes _) w2).2) in *.
  pose proof Hbody as Hrest3.
  apply Hret in Hbody as ([] & H3 & Hbody).
  set (w4 := (for_each _ (coverLetters _) w3).2) in *.
  pose proof Hbody as Hrest4.
  apply Hret in Hbody as ([] & H4 & Hbody).
  set (w5 := (for_each _ (applications _) w4).2) in *.
  pose proof Hbody as Hrest5.
  apply Hret in Hbody as ([] & H5 & Hbody).
  set (w6 := (for_each _ (jobs _) w5).2) in *.
  exists u. split; [done|].
  assert (Htail : forall (P : world -> Prop) (m : M unit) w0,
            m w0 = (Return tt, w') -> keeps P m -> P w0 -> P w').
  { intros P m w0 Hm Hk Hw0. specialize (Hk w0 Hw0). by rewrite Hm in Hk. }
  repeat split.
  - intros x Hx. eapply Htail; [exact Hrest2|pushes_keep_doc|].
    revert x Hx. pushes_add_doc Hon Hu H1.
  - intros x Hx. eapply Htail; [exact Hrest3|pushes_keep_doc|].
    revert x Hx. pushes_add_doc Hon Hu H2.
  - intros x Hx. eapply Htail; [exact Hrest4|pushes_keep_doc|].
    revert x Hx. pushes_add_doc Hon Hu H3.
  - intros x Hx. eapply Htail; [exact Hrest5|pushes_keep_doc|].
    revert x Hx. pushes_add_doc Hon Hu H4.
  - intros x Hx. eapply Htail; [exact Hbody|apply keeps_cloud; [apply has_doc_cloud|done]|].
    revert x Hx. pushes_add_doc Hon Hu H5.
  - by injection Hbody as <-.
  - by injection Hbody as <-.
Qed.

Lemma saveResume_ids resume s :
  Resume.id <$> resumes (saveResume resume s)
  = (Resume.id <$> resumes s) ++ [Resume.id resume].
Proof.
  unfold saveResume. cbn [resumes set_resumes]. rewrite fmap_app. f_equal.
  destruct (Resume.isDefault resume); [|done].
  change (map ?f ?l) with (f <$> l). rewrite <- list_fmap_compose.
  by apply list_fmap_ext.
Qed.

(** X30. The default resume when the stored ids are distinct.
    [saveResume] of a resume whose id is not stored keeps the ids distinct;
    it keeps at most one default resume, and a default resume that is
    saved is the only default one afterwards. With distinct ids and at most
    one default resume stored, the pull leaves distinct ids and at most one
    default resume, whatever its outcome. When it throws, the stored resumes
    are as before. When it returns with Firebase enabled, what it stores is
    [enforce_default] of the list merged by [pull_resumes] from the
    documents of the signed-in user: exactly one default resume if a merged
    resume is marked default, and the merged list itself if none is. *)
Theorem default_resume_under_distinct_ids :
  (forall resume s,
     (one_default (resumes s) -> one_default (resumes (saveResume resume s)))
     /\ (Resume.isDefault resume = true ->
         filter (fun r => Resume.isDefault r = true) (resumes (saveResume resume s))
         = [resume])
     /\ (NoDup (Resume.id <$> resumes s) ->
         Resume.id resume ∉ (Resume.id <$> resumes s) ->
         NoDup (Resume.id <$> resumes (saveResume resume s))))
  /\ (forall w,
        NoDup (Resume.id <$> resumes (storage w)) ->
        one_default (resumes (storage w)) ->
        let r := tryCloudPullAllToLocal toLowerCase ToString ToNumber cfg now w in
        NoDup (Resume.id <$> resumes (storage r.2))
        /\ one_default (resumes (storage r.2))
        /\ match r.1 with
           | Return _ =>
               isFirebaseEnabled toLowerCase cfg = true ->
               let w1 := (ensureUser toLowerCase cfg w).2 in
               exists u docs merged,
                 (ensureUser toLowerCase cfg w).1 = Return u
                 /\ (getDocs cfg [js "users"; u; js "resumes"] w1).1 = Return docs
                 /\ (pull_resumes ToString ToNumber cfg now u docs
                       (resumes (storage w)) w1).1 = Return merged
                 /\ resumes (storage r.2) = enforce_default merged
                 /\ ((exists x, x ∈ merged /\ Resume.isDefault x = true) ->
                     length (filter (fun x => Resume.isDefault x = true)
                               (resumes (storage r.2))) = 1)
                 /\ ((forall x, x ∈ merged -> Resume.isDefault x = false) ->
                     resumes (storage r.2) = merged)
           | Throw _ => resumes (storage r.2) = resumes (storage w)
           end).
Proof.
  split.
  { intros resume s. destruct (saveResume_default resume s) as [Hone Honly].
    split; [exact Hone|]. split; [exact Honly|].
    intros Hnd Hfresh. rewrite saveResume_ids. apply NoDup_app.
    split; [done|]. split; [|apply NoDup_singleton].
    intros x Hx Hin. apply list_elem_of_singleton in Hin. by subst x. }
  intros w Hnd Hone. cbv zeta.
  destruct (pull_keeps_good_resumes toLowerCase ToString ToNumber cfg now
              (resumes (storage w)) (conj Hnd Hone) w eq_refl) as [Hnd' Hone'].
  split; [exact Hnd'|]. split; [exact Hone'|]. clear Hnd' Hone'.
  unfold tryCloudPullAllToLocal.
  destruct (isFirebaseEnabled toLowerCase cfg) eqn:Hon; cbn [negb];
    [|intros H; discriminate].
  destruct (negb _); [done|].
  unfold try_catch.
  match goal with |- context [match ?body w with _ => _ end] =>
    pose proof (pull_body_thrown w) as Hthrown;
    destruct (body w) as [[[]|e] w'] eqn:Hbody
  end; cbn [fst snd] in *; cycle 1.
  { unfold local_side, stored in Hthrown. cbn. congruence. }
  clear Hthrown. intros _.
  assert (Hret : forall A (m : M A) k w0,
            bind m k w0 = (Return tt, w') ->
            exists a, (m w0).1 = Return a /\ k a (m w0).2 = (Return tt, w')).
  { intros A m k w0 H. destruct (bind_inv m k w0 tt) as (a & Ha & Heq);
      [by rewrite H|]. exists a. split; [done|congruence]. }
  apply Hret in Hbody as (u & Hu & Hbody).
  pose proof (local_ensureUser w) as Hlocal.
  set (w1 := (ensureUser toLowerCase cfg w).2) in *.
  assert (Hrs : resumes (storage w1) = resumes (storage w))
    by (unfold local_side, stored in Hlocal; congruence).
  apply Hret in Hbody as (docs & Hdocs & Hbody). rewrite reads_getDocs in Hbody.
  do 4 (apply Hret in Hbody as (? & _ & Hbody); rewrite reads_getDocs in Hbody).
  rewrite bind_get_storage in Hbody.
  apply Hret in Hbody as (merged & Hmerged & Hbody).
  rewrite reads_pull_resumes in Hbody. rewrite Hrs in Hmerged.
  assert (Hstored : resumes (storage w') = enforce_default merged)
    by (injection Hbody as <-; reflexivity).
  assert (Hndm : NoDup (Resume.id <$> merged)).
  { pose proof (hoare_pull_resumes ToString ToNumber cfg now u docs
                  (resumes (storage w)) (resumes (storage w1)) Hnd w1 eq_refl) as H.
    rewrite Hmerged in H. apply H. }
  destruct (enforce_default_spec merged Hndm) as (Hnone & Hsome & _).
  exists u, docs, merged. rewrite Hstored.
  repeat split; try done.
  intros (r & Hr & Hd). by apply (Hsome r).
Qed.

End Sync.

Lemma push_of_everything_uploads_every_record_witness :
  has_doc (js "u1") (js "resumes") (js "r1")
    (tryCloudPushAllFromLocal Score.ascii_lower env_with_firebase
       (of_Z 1700000000001) sample_world).2.
Proof.
  destruct (push_of_everything_uploads_every_record Score.ascii_lower
              env_with_firebase (of_Z 1700000000001) sample_world)
    as (u & Hu & Hresumes & _); [vm_compute; reflexivity|vm_compute; reflexivity|].
  injection Hu as <-.
  apply (Hresumes (sample_resume "r1" true)).
  change (sample_resume "r1" true ∈ [sample_resume "r1" true]).
  by apply list_elem_of_singleton.
Defined.

Lemma default_resume_under_distinct_ids_witness :
  let pulled := tryCloudPullAllToLocal Score.ascii_lower sample_ToString (fun _ => NaN)
                  env_with_firebase (of_Z 1700000000001) sample_world in
  NoDup (Resume.id <$> resumes (storage pulled.2))
  /\ length (filter (fun x => Resume.isDefault x = true) (resumes (storage pulled.2)))
     = 1.
Proof.
  cbv zeta.
  destruct (default_resume_under_distinct_ids Score.ascii_lower sample_ToString
              (fun _ => NaN) env_with_firebase (of_Z 1700000000001)) as [_ Hpull].
  destruct (Hpull sample_world) as (Hnd & _ & Hreturned);
    [apply NoDup_singleton|vm_compute; lia|].
  split; [exact Hnd|].
  assert (Hr : (tryCloudPullAllToLocal Score.ascii_lower sample_ToString (fun _ => NaN)
                  env_with_firebase (of_Z 1700000000001) sample_world).1 = Return tt)
    by (vm_compute; reflexivity).
  rewrite Hr in Hreturned.
  destruct (Hreturned eq_refl) as (u & docs & merged & Hu & Hdocs & Hmerged & _ & Hone & _).
  apply Hone. exists (sample_resume "r1" true).
  vm_compute in Hu. injection Hu as <-.
  vm_compute in Hdocs. injection Hdocs as <-.
  vm_compute in Hmerged. injection Hmerged as <-.
  split; [apply list_elem_of_here|reflexivity].
Defined.

End SyncLaws.

(** ** The handlers of the dashboard and of the job analysis
    (src/src/popup/utils/download.ts)

    The world holds what the handlers read and write of the storage, of
    the cloud store and of the popup. The flags [syncing] and [saving] and
    the lists that [loadData] reloads from the storage are state of the
    components that no handler here reads. *)
Module Handlers.

Import Num Effect Storage SyncLaws.

Local Open Scope nat_scope.

Section Handlers.

Variable toLowerCase : jsstring -> jsstring.
Variable cfg : config.
Variable now : number.

(** *** The dashboard *)

(** [handleStatusChange]: the applications are read from the storage, the
    first one of the id gets the status, and the list is written back; an
    unknown id is an error, which the handler catches and shows. *)
Definition handleStatusChange (appId newStatus : jsstring) : M unit :=
  try_catch
    (let! s := get_storage in
     let apps := applications s in
     match list_find (fun a => Application.id a = appId) apps with
     | None => throw (js "Application not found")
     | Some (appIndex, app) =>
         put_storage
           (set_applications (<[appIndex := Manager.set_status newStatus app]> apps))
     end)
    (fun e => alert (error_mark ++ js "Status update failed: " ++ e)).

(** [handleDeleteDraftApplication]; [confirmed] is the answer to
    [confirm]. The inner [try] logs the error and throws it again. *)
Definition handleDeleteDraftApplication (confirmed : bool) (appId : jsstring)
  : M unit :=
  if negb confirmed then ret tt
  else try_catch
    (try_catch (tryCloudDeleteApplication toLowerCase cfg appId) (fun e => throw e) ;;
     let! s := get_storage in
     put_storage
       (set_applications
          (filter (fun a => Application.id a <> appId) (applications s))))
    (fun e => alert (error_mark ++ js "Delete failed: " ++ e)).

(** *** The job analysis *)

Definition clearCoverLetter : M unit :=
  put_popup (fun u => mkUi (optimizedResume u) None (applicationStatus u) (alerts u)).
Definition clearOptimizedResume : M unit :=
  put_popup (fun u => mkUi None (coverLetter u) (applicationStatus u) (alerts u)).

(** [handleDeleteCoverLetter] of the job analysis: its argument is not
    read; the cover letters of the job are deleted in the cloud, one after
    the other, and then in the storage. *)
Definition handleDeleteCoverLetter (confirmed : bool) (job : JobPosting.t)
    (letterId : jsstring) : M unit :=
  if negb confirmed then ret tt
  else try_catch
    (let! s := get_storage in
     let coverLetters := coverLetters s in
     let targetIds :=
       map CoverLetter.id
           (filter (fun l => CoverLetter.jobId l = JobPosting.id job) coverLetters) in
     for_each (fun id => try_catch (tryCloudDeleteCoverLetter toLowerCase cfg id)
                                   (fun e => throw e))
              targetIds ;;
     put_storage
       (set_coverLetters
          (filter (fun l => CoverLetter.jobId l <> JobPosting.id job) coverLetters)) ;;
     clearCoverLetter)
    (fun e => alert (error_mark ++ js "Delete failed: " ++ e)).

(** [handleDeleteOptimizedResume] of the job analysis, which starts with
    an alert. *)
Definition handleDeleteOptimizedResume (confirmed : bool) (job : JobPosting.t)
    (resumeId : jsstring) : M unit :=
  if negb confirmed then ret tt
  else
    alert (bin_mark ++ js "Deleting resume(s)..." ++ [10; 10]%N
           ++ js "Please wait. Check console (F12) for progress.") ;;
    try_catch
      (let! s := get_storage in
       let resumes := optimizedResumes s in
       let targetIds :=
         map OptimizedResume.id
             (filter (fun res => OptimizedResume.jobId res = JobPosting.id job)
                     resumes) in
       for_each (fun id => try_catch (tryCloudDeleteOptimizedResume toLowerCase cfg id)
                                     (fun e => throw e))
                targetIds ;;
       put_storage
         (set_optimizedResumes
            (filter (fun res => OptimizedResume.jobId res <> JobPosting.id job)
                    resumes)) ;;
       clearOptimizedResume)
      (fun e => alert (error_mark ++ js "Delete failed: " ++ e)).

(** [markApplied]; [clicked] is [Date.now()] at the click. *)
Definition markApplied (clicked : number) (job : JobPosting.t) (resume : Resume.t)
    (generatedId : jsstring) : M unit :=
  ensureApplication toLowerCase cfg now job resume generatedId
    (mkPatch (JobPosting.id job) None None (Some clicked) (Some (js "applied"))).

(** X18. A status change on the dashboard stays local and keeps the list
    in shape: the handler never throws; it writes what
    [updateApplicationStatus] of the storage manager writes (the first
    application of the id gets the status, nothing else changes, and an
    unknown id changes nothing); the ids of the applications and their
    order are as before; the cloud store is not touched; and an alert is
    shown exactly when no application has the id. *)
Theorem status_change_stays_local (appId newStatus : jsstring) (w : world) :
  let r := handleStatusChange appId newStatus w in
  r.1 = Return tt
  /\ storage r.2 = Manager.updateApplicationStatus appId newStatus (storage w)
  /\ Application.id <$> applications (storage r.2)
     = Application.id <$> applications (storage w)
  /\ firestore r.2 = firestore w
  /\ alerts (popup r.2)
     = alerts (popup w)
       ++ (if bool_decide (appId ∈ Application.id <$> applications (storage w))
           then []
           else [error_mark ++ js "Status update failed: Application not found"]).
Proof.
  cbv zeta. unfold handleStatusChange, Manager.updateApplicationStatus, try_catch.
  rewrite bind_get_storage. cbv zeta.
  destruct (list_find _ (applications (storage w))) as [[i app]|] eqn:Hfind.
  - apply list_find_Some in Hfind as (Hi & Hid & _).
    cbn. split; [done|]. split; [done|]. split; [|split; [done|]].
    + rewrite list_fmap_insert. apply list_insert_id.
      by rewrite list_lookup_fmap, Hi.
    + rewrite bool_decide_eq_true_2; [by rewrite app_nil_r|].
      apply list_elem_of_fmap. exists app. split; [done|].
      by eapply list_elem_of_lookup_2.
  - apply list_find_None in Hfind.
    cbn. split; [done|]. split; [by destruct (storage w)|]. split; [done|].
    split; [done|]. rewrite bool_decide_eq_false_2; [done|].
    intros Hin. apply list_elem_of_fmap in Hin as (a & -> & Ha).
    eapply Forall_forall in Hfind; [|exact Ha]. done.
Qed.

Lemma try_catch_rethrow {A} (m : M A) w : try_catch m (fun e => throw e) w = m w.
Proof. unfold try_catch, throw. by destruct (m w) as [[a|e] w']. Qed.

(** The document of a record is gone from the cloud store, when there is
    a cloud store. *)
Definition deleted (collection id : jsstring) (w : world) : Prop :=
  getFirestore toLowerCase cfg = true ->
  exists u, currentUser cfg = Some u /\ firestore w !! users u collection id = None.

Lemma cloud_delete_effect collection id w :
  let r := cloud_delete toLowerCase cfg collection id w in
  match r.1 with
  | Return _ =>
      if getFirestore toLowerCase cfg
      then exists u, currentUser cfg = Some u
                     /\ firestore r.2 = delete (users u collection id) (firestore w)
      else firestore r.2 = firestore w
  | Throw _ => firestore r.2 = firestore w
  end.
Proof.
  cbv zeta. unfold cloud_delete, getFirestore.
  destruct (isFirebaseEnabled toLowerCase cfg) eqn:Hon; cbn [negb andb]; [|done].
  destruct (sdk_ok cfg) eqn:Hsdk; cbn [negb]; [|done].
  unfold ensureUser, getFirebaseAuth. rewrite Hon, Hsdk. cbn [negb andb].
  destruct (currentUser cfg) as [u|]; [|done].
  destruct (negb _); [done|].
  unfold bind, deleteDoc. cbn. destruct (online cfg); cbn; [|done]. by exists u.
Qed.

Lemma cloud_delete_keeps_deleted collection id id' :
  keeps (deleted collection id) (cloud_delete toLowerCase cfg collection id').
Proof.
  intros w Hw Hfs. destruct (Hw Hfs) as (u & Hu & Hnone). exists u. split; [done|].
  pose proof (cloud_delete_effect collection id' w) as H. cbv zeta in H.
  destruct (cloud_delete _ _ _ _ w) as [[[]|e] w1]; cbn [fst snd] in *.
  - rewrite Hfs in H. destruct H as (u' & Hu' & ->).
    destruct (decide (users u' collection id' = users u collection id)) as [->|Hne].
    + apply lookup_delete_eq.
    + by rewrite lookup_delete_ne.
  - by rewrite H.
Qed.

Lemma cloud_delete_deletes collection id w :
  (cloud_delete toLowerCase cfg collection id w).1 = Return tt ->
  deleted collection id (cloud_delete toLowerCase cfg collection id w).2.
Proof.
  intros Hret Hfs. pose proof (cloud_delete_effect collection id w) as H.
  cbv zeta in H. rewrite Hret, Hfs in H. destruct H as (u & Hu & ->).
  exists u. split; [done|]. apply lookup_delete_eq.
Qed.

(** The deletes in the cloud of a list of ids: the stored lists and the
    popup stay, and when all return every document of the list is gone. *)
Lemma cloud_deletes_effect collection ids w :
  let f := fun id => try_catch (cloud_delete toLowerCase cfg collection id)
                               (fun e => throw e) in
  local_side (for_each f ids w).2 = local_side w
  /\ ((for_each f ids w).1 = Return tt ->
      forall id, id ∈ ids -> deleted collection id (for_each f ids w).2).
Proof.
  cbv zeta. split.
  - apply steady_for_each. intros id w0. rewrite try_catch_rethrow.
    apply local_cloud_delete.
  - apply (for_each_uploads _ (deleted collection)).
    + intros id id' w0. rewrite try_catch_rethrow. apply cloud_delete_keeps_deleted.
    + intros id w0. rewrite try_catch_rethrow. apply cloud_delete_deletes.
Qed.

(** X19. Deleting a draft application on the dashboard is cloud first:
    without the confirmation nothing happens; with it the handler never
    throws, and when the delete in the cloud throws, the stored lists and
    the cloud store are as before and the error is shown; when it returns,
    the applications of the id are removed from the storage, the others
    stay in their order, the other lists and the popup are as before, and
    with a cloud store the document of the application is deleted. *)
Theorem draft_delete_is_cloud_first (appId : jsstring) (w : world) :
  handleDeleteDraftApplication false appId w = (Return tt, w)
  /\ let r := handleDeleteDraftApplication true appId w in
     r.1 = Return tt
     /\ match (tryCloudDeleteApplication toLowerCase cfg appId w).1 with
        | Return _ =>
            stored r.2
            = (resumes (storage w), jobs (storage w),
               filter (fun a => Application.id a <> appId) (applications (storage w)),
               coverLetters (storage w), optimizedResumes (storage w))
            /\ popup r.2 = popup w
            /\ (getFirestore toLowerCase cfg = true ->
                exists u, currentUser cfg = Some u
                  /\ firestore r.2
                     = delete (users u (js "applications") appId) (firestore w))
        | Throw e =>
            stored r.2 = stored w
            /\ firestore r.2 = firestore w
            /\ alerts (popup r.2) = alerts (popup w) ++ [error_mark ++ js "Delete failed: " ++ e]
        end.
Proof.
  split; [done|]. cbv zeta. unfold handleDeleteDraftApplication. cbn [negb].
  unfold try_catch, bind, throw, tryCloudDeleteApplication.
  pose proof (cloud_delete_effect (js "applications") appId w) as Hcloud.
  pose proof (local_cloud_delete toLowerCase cfg (js "applications") appId w) as Hlocal.
  cbv zeta in Hcloud.
  destruct (cloud_delete _ _ _ _ w) as [[[]|e] w1]; cbn [fst snd] in *.
  - unfold local_side, stored in Hlocal. injection Hlocal as H1 H2 H3 H4 H5 H6.
    cbn. unfold stored. cbn. rewrite H1, H2, H3, H4, H5, H6.
    split; [done|]. split; [done|]. split; [done|].
    intros Hfs. by rewrite Hfs in Hcloud.
  - unfold local_side, stored in Hlocal. injection Hlocal as H1 H2 H3 H4 H5 H6.
    unfold alert, put_popup, stored. cbn [fst snd storage firestore popup alerts].
    by rewrite H1, H2, H3, H4, H5, H6.
Qed.

(** The two handlers of the job analysis, from the outcome of their
    deletes in the cloud. *)
Lemma handleDeleteCoverLetter_run job letterId w :
  let letters := coverLetters (storage w) in
  let cloud :=
    for_each (fun id => try_catch (cloud_delete toLowerCase cfg (js "coverLetters") id)
                                  (fun e => throw e))
      (map CoverLetter.id
           (filter (fun l => CoverLetter.jobId l = JobPosting.id job) letters)) w in
  handleDeleteCoverLetter true job letterId w
  = match cloud.1 with
    | Return _ =>
        (Return tt,
         mkWorld
           (set_coverLetters
              (filter (fun l => CoverLetter.jobId l <> JobPosting.id job) letters)
              (storage cloud.2))
           (firestore cloud.2)
           (mkUi (optimizedResume (popup cloud.2)) None
                 (applicationStatus (popup cloud.2)) (alerts (popup cloud.2))))
    | Throw e => alert (error_mark ++ js "Delete failed: " ++ e) cloud.2
    end.
Proof.
  cbv zeta. unfold handleDeleteCoverLetter, tryCloudDeleteCoverLetter. cbn [negb].
  unfold try_catch at 1. rewrite bind_get_storage. cbv zeta. unfold bind at 1.
  by destruct (for_each _ _ w) as [[[]|e] w1].
Qed.

Lemma handleDeleteOptimizedResume_run job resumeId w :
  let w0 := (alert (bin_mark ++ js "Deleting resume(s)..." ++ [10; 10]%N
                    ++ js "Please wait. Check console (F12) for progress.") w).2 in
  let versions := optimizedResumes (storage w) in
  let cloud :=
    for_each (fun id => try_catch
                          (cloud_delete toLowerCase cfg (js "optimizedResumes") id)
                          (fun e => throw e))
      (map OptimizedResume.id
           (filter (fun res => OptimizedResume.jobId res = JobPosting.id job)
                   versions)) w0 in
  handleDeleteOptimizedResume true job resumeId w
  = match cloud.1 with
    | Return _ =>
        (Return tt,
         mkWorld
           (set_optimizedResumes
              (filter (fun res => OptimizedResume.jobId res <> JobPosting.id job)
                      versions)
              (storage cloud.2))
           (firestore cloud.2)
           (mkUi None (coverLetter (popup cloud.2))
                 (applicationStatus (popup cloud.2)) (alerts (popup cloud.2))))
    | Throw e => alert (error_mark ++ js "Delete failed: " ++ e) cloud.2
    end.
Proof.
  cbv zeta. unfold handleDeleteOptimizedResume, tryCloudDeleteOptimizedResume.
  cbn [negb]. unfold bind at 1. unfold alert at 1, put_popup at 1.
  unfold try_catch at 1. rewrite bind_get_storage. cbv zeta. unfold bind at 1.
  cbn [storage].
  by destruct (for_each _ _ _) as [[[]|e] w1].
Qed.

(** X20. Deleting the cover letters, or the optimized resumes, of a job in
    the job analysis is all or nothing on the storage. The handler never
    throws and leaves the other stored lists as they were. Either the
    records of the job are removed from the storage, the others staying
    in their order, the shown document is cleared, no error is shown and,
    with a cloud store, the document of every removed record is gone from
    it; or a delete in the cloud failed, the stored list and the shown
    document are as before, and the error is shown. The id passed to the
    handler has no part in it. *)
Theorem job_delete_is_all_or_nothing (job : JobPosting.t) (id : jsstring)
    (w : world) :
  (let r := handleDeleteCoverLetter true job id w in
   r.1 = Return tt
   /\ (resumes (storage r.2), jobs (storage r.2), applications (storage r.2),
       optimizedResumes (storage r.2))
      = (resumes (storage w), jobs (storage w), applications (storage w),
         optimizedResumes (storage w))
   /\ ((coverLetters (storage r.2)
        = filter (fun l => CoverLetter.jobId l <> JobPosting.id job)
                 (coverLetters (storage w))
        /\ coverLetter (popup r.2) = None
        /\ alerts (popup r.2) = alerts (popup w)
        /\ forall l, l ∈ coverLetters (storage w) ->
             CoverLetter.jobId l = JobPosting.id job ->
             deleted (js "coverLetters") (CoverLetter.id l) r.2)
       \/ (coverLetters (storage r.2) = coverLetters (storage w)
           /\ coverLetter (popup r.2) = coverLetter (popup w)
           /\ exists e, alerts (popup r.2)
                        = alerts (popup w) ++ [error_mark ++ js "Delete failed: " ++ e])))
  /\ (let r := handleDeleteOptimizedResume true job id w in
      let started :=
        alerts (popup w)
        ++ [bin_mark ++ js "Deleting resume(s)..." ++ [10; 10]%N
            ++ js "Please wait. Check console (F12) for progress."] in
      r.1 = Return tt
      /\ (resumes (storage r.2), jobs (storage r.2), applications (storage r.2),
          coverLetters (storage r.2))
         = (resumes (storage w), jobs (storage w), applications (storage w),
            coverLetters (storage w))
      /\ ((optimizedResumes (storage r.2)
           = filter (fun res => OptimizedResume.jobId res <> JobPosting.id job)
                    (optimizedResumes (storage w))
           /\ optimizedResume (popup r.2) = None
           /\ alerts (popup r.2) = started
           /\ forall res, res ∈ optimizedResumes (storage w) ->
                OptimizedResume.jobId res = JobPosting.id job ->
                deleted (js "optimizedResumes") (OptimizedResume.id res) r.2)
          \/ (optimizedResumes (storage r.2) = optimizedResumes (storage w)
              /\ optimizedResume (popup r.2) = optimizedResume (popup w)
              /\ exists e, alerts (popup r.2)
                           = started ++ [error_mark ++ js "Delete failed: " ++ e]))).
Proof.
  split; cbv zeta.
  - rewrite handleDeleteCoverLetter_run. cbv zeta.
    match goal with |- context [for_each ?f ?ids w] =>
      destruct (cloud_deletes_effect (js "coverLetters") ids w) as [Hlocal Hgone];
      cbv zeta in Hlocal, Hgone;
      destruct (for_each f ids w) as [[[]|e] w1]
    end; cbn [fst snd] in *;
      unfold local_side, stored in Hlocal; injection Hlocal as H1 H2 H3 H4 H5 H6.
    + cbn [fst snd storage firestore popup set_coverLetters resumes jobs applications
           coverLetters optimizedResumes coverLetter alerts].
      split; [done|]. split; [congruence|]. left.
      split; [done|]. split; [done|]. split; [by rewrite H6|].
      intros l Hl Hjob Hfs. apply (Hgone eq_refl (CoverLetter.id l)); [|done].
      change (map ?f ?l) with (f <$> l). apply list_elem_of_fmap. exists l.
      split; [done|]. by apply list_elem_of_filter.
    + unfold alert, put_popup.
      cbn [fst snd storage firestore popup coverLetter alerts].
      split; [done|]. split; [congruence|]. right.
      split; [done|]. split; [by rewrite H6|]. exists e. by rewrite H6.
  - rewrite handleDeleteOptimizedResume_run. cbv zeta.
    match goal with |- context [for_each ?f ?ids ?w0] =>
      destruct (cloud_deletes_effect (js "optimizedResumes") ids w0) as [Hlocal Hgone];
      cbv zeta in Hlocal, Hgone;
      destruct (for_each f ids w0) as [[[]|e] w1]
    end; cbn [fst snd] in *;
      unfold local_side, stored, alert, put_popup in Hlocal;
      cbn [fst snd storage popup] in Hlocal;
      injection Hlocal as H1 H2 H3 H4 H5 H6.
    + cbn [fst snd storage firestore popup set_optimizedResumes resumes jobs
           applications coverLetters optimizedResumes optimizedResume alerts].
      split; [done|]. split; [congruence|]. left.
      split; [done|]. split; [done|]. split; [by rewrite H6|].
      intros res Hres Hjob Hfs.
      apply (Hgone eq_refl (OptimizedResume.id res)); [|done].
      change (map ?f ?l) with (f <$> l). apply list_elem_of_fmap. exists res.
      split; [done|]. by apply list_elem_of_filter.
    + unfold alert, put_popup.
      cbn [fst snd storage firestore popup optimizedResume alerts].
      split; [done|]. split; [congruence|]. right.
      split; [done|]. split; [by rewrite H6|]. exists e. by rewrite H6.
Qed.

(** [ensureApplication] returns; the stored lists and the status shown
    after it. *)
Lemma ensureApplication_local job resume generatedId patch w :
  let r := ensureApplication toLowerCase cfg now job resume generatedId patch w in
  let apps := ensured_applications now generatedId resume patch
                (applications (storage w)) in
  r.1 = Return tt
  /\ stored r.2
     = (resumes (storage w), ensured_jobs job (jobs (storage w)), apps,
        coverLetters (storage w), optimizedResumes (storage w))
  /\ applicationStatus (popup r.2)
     = match list_find (fun a => Application.jobId a = p_jobId patch) apps with
       | Some (_, a) => Application.status a
       | None => applicationStatus (popup w)
       end.
Proof.
  cbv zeta. unfold ensureApplication.
  rewrite bind_get_storage.
  assert (exists w1,
            match list_find (fun j => JobPosting.id j = JobPosting.id job)
                    (jobs (storage w)) with
            | Some _ => ret tt
            | None => put_storage (set_jobs (jobs (storage w) ++ [job])) ;;
                      catch_warn (tryCloudSyncJob toLowerCase cfg now job)
            end w = (Return tt, w1)
            /\ local_side w1
               = ((resumes (storage w), ensured_jobs job (jobs (storage w)),
                   applications (storage w), coverLetters (storage w),
                   optimizedResumes (storage w)), popup w))
    as (w1 & Hjob & H1).
  { unfold ensured_jobs. destruct (list_find _ (jobs (storage w))); [by exists w|].
    unfold bind, put_storage.
    edestruct (after_catch_warn local_side) as (w1 & -> & Hr); [apply local_push|].
    by exists w1. }
  rewrite (bind_returned _ _ tt w w1 Hjob). rewrite bind_get_storage.
  unfold local_side, stored in H1. injection H1 as Hr Hj Ha Hc Ho Hp.
  unfold ensured_applications. rewrite Ha.
  destruct (list_find _ (applications (storage w))) as [[i existing]|] eqn:Hfind.
  - rewrite (find_assigned _ _ i existing (assign_patch existing patch) Hfind)
      by (by destruct patch).
    unfold bind, put_storage, setApplicationStatus, put_popup.
    edestruct (after_catch_warn local_side) as (w2 & -> & Hw2); [apply local_push|].
    cbn [fst snd]. split; [done|].
    unfold local_side, stored in Hw2. cbn in Hw2. injection Hw2 as E1 E2 E3 E4 E5 E6.
    unfold stored. rewrite E1, E2, E3, E4, E5, E6. cbn [applicationStatus].
    by rewrite Hr, Hj, Hc, Ho.
  - rewrite (find_pushed _ _ (created_application now generatedId resume patch) Hfind)
      by (by destruct patch).
    unfold bind, put_storage, setApplicationStatus, put_popup.
    edestruct (after_catch_warn local_side) as (w2 & -> & Hw2); [apply local_push|].
    cbn [fst snd]. split; [done|].
    unfold local_side, stored in Hw2. cbn in Hw2. injection Hw2 as E1 E2 E3 E4 E5 E6.
    unfold stored. rewrite E1, E2, E3, E4, E5, E6. cbn [applicationStatus].
    by rewrite Hr, Hj, Hc, Ho.
Qed.

Lemma filter_insert_both {A} (Q : A -> Prop) `{forall x, Decision (Q x)}
    (l : list A) i x y :
  l !! i = Some x -> (Q x <-> Q y) ->
  length (filter Q (<[i := y]> l)) = length (filter Q l)
  /\ (~ Q x -> filter Q (<[i := y]> l) = filter Q l).
Proof.
  intros Hi Hxy. pose proof (take_drop_middle l i x Hi) as Hl.
  rewrite insert_take_drop by (by eapply lookup_lt_Some).
  clear Hi. revert Hl. generalize (take i l) (drop (S i) l). intros a b <-.
  rewrite !filter_app, !length_app, !(filter_cons _ x), !(filter_cons _ y).
  destruct (decide (Q x)) as [Hx|Hx], (decide (Q y)) as [Hy|Hy]; tauto.
Qed.

(** X21. Marking a job as applied leaves one application of the job to
    find, with the status applied. [markApplied] returns; afterwards the
    first application of the job has the status applied, which the popup
    shows, and the date of the click (when an application is created, a
    date that is 0 or NaN is replaced by the present time); the job has as
    many applications as before, and one when it had none; the
    applications of other jobs are as before; the job is stored, after the
    jobs stored before; the other lists are as before. *)
Theorem markApplied_keeps_one_application (clicked : number) (job : JobPosting.t)
    (resume : Resume.t) (generatedId : jsstring) (w : world) :
  let r := markApplied clicked job resume generatedId w in
  let before := applications (storage w) in
  let after := applications (storage r.2) in
  r.1 = Return tt
  /\ (exists i a,
        list_find (fun a => Application.jobId a = JobPosting.id job) after
        = Some (i, a)
        /\ Application.status a = js "applied"
        /\ (truthy (VNum clicked) = true -> Application.appliedDate a = clicked))
  /\ length (filter (fun a => Application.jobId a = JobPosting.id job) after)
     = Nat.max 1
         (length (filter (fun a => Application.jobId a = JobPosting.id job) before))
  /\ filter (fun a => Application.jobId a <> JobPosting.id job) after
     = filter (fun a => Application.jobId a <> JobPosting.id job) before
  /\ applicationStatus (popup r.2) = js "applied"
  /\ (exists j, j ∈ jobs (storage r.2) /\ JobPosting.id j = JobPosting.id job)
  /\ jobs (storage w) `prefix_of` jobs (storage r.2)
  /\ (resumes (storage r.2), coverLetters (storage r.2), optimizedResumes (storage r.2))
     = (resumes (storage w), coverLetters (storage w), optimizedResumes (storage w)).
Proof.
  cbv zeta. unfold markApplied.
  set (patch := mkPatch (JobPosting.id job) None None (Some clicked)
                        (Some (js "applied"))).
  destruct (ensureApplication_local job resume generatedId patch w)
    as (Hret & Hstored & Hstatus).
  unfold stored in Hstored. injection Hstored as -> -> -> -> ->.
  split; [done|].
  assert (Hjobs : (exists j, j ∈ ensured_jobs job (jobs (storage w))
                             /\ JobPosting.id j = JobPosting.id job)
                  /\ jobs (storage w) `prefix_of` ensured_jobs job (jobs (storage w))).
  { unfold ensured_jobs.
    destruct (list_find _ (jobs (storage w))) as [[i j]|] eqn:Hfind.
    - apply list_find_Some in Hfind as (Hi & Hid & _). split; [|done].
      exists j. split; [by eapply list_elem_of_lookup_2|done].
    - split; [|by apply prefix_app_r]. exists job. split; [|done].
      apply elem_of_app. right. by apply list_elem_of_singleton. }
  rewrite Hstatus. clear Hstatus Hret. unfold ensured_applications.
  change (p_jobId patch) with (JobPosting.id job).
  destruct (list_find _ (applications (storage w))) as [[i existing]|] eqn:Hfind.
  - rewrite (find_assigned _ _ i existing (assign_patch existing patch) Hfind)
      by done.
    pose proof Hfind as Hf. apply list_find_Some in Hf as (Hi & Hmine & _).
    destruct (filter_insert_both (fun a => Application.jobId a = JobPosting.id job)
                (applications (storage w)) i existing (assign_patch existing patch)
                Hi) as [Hlen _]; [done|].
    destruct (filter_insert_both (fun a => Application.jobId a <> JobPosting.id job)
                (applications (storage w)) i existing (assign_patch existing patch)
                Hi) as [_ Hothers]; [done|].
    split; [by exists i, (assign_patch existing patch)|].
    split.
    { rewrite Hlen.
      assert (Hin : existing ∈ filter (fun a => Application.jobId a = JobPosting.id job)
                                      (applications (storage w))).
      { apply list_elem_of_filter. split; [done|by eapply list_elem_of_lookup_2]. }
      destruct (filter _ (applications (storage w))) as [|x l];
        [by apply elem_of_nil in Hin|]. cbn [length]. lia. }
    split; [apply Hothers; by intros Hne|].
    split; [done|]. split; [apply Hjobs|]. split; [apply Hjobs|done].
  - rewrite (find_pushed _ _ (created_application now generatedId resume patch) Hfind)
      by done.
    apply list_find_None in Hfind.
    split.
    { eexists _, _. split; [done|]. split; [done|]. intros Htruthy.
      unfold created_application, patch. cbn [p_appliedDate Application.appliedDate].
      by rewrite Htruthy. }
    rewrite !filter_app, length_app.
    rewrite (filter_none (fun a => Application.jobId a = JobPosting.id job)
               (applications (storage w))) by done.
    rewrite filter_cons_True by done.
    rewrite (filter_cons_False (fun a => Application.jobId a <> JobPosting.id job))
      by (intros Hne; by apply Hne).
    split; [done|]. split; [by rewrite app_nil_r|].
    split; [done|]. split; [apply Hjobs|]. split; [apply Hjobs|done].
Qed.

End Handlers.

End Handlers.

(** ** Uploading a resume (src/src/popup/components/ResumeUpload.tsx) *)
Module Upload.

Import Num Effect Storage SyncLaws.

Local Open Scope nat_scope.

(** What the handler reads of a [File]. *)
Record File := mkFile {
  f_name : jsstring;
  f_type : jsstring;
  f_size : Z;
}.

(** The state of the upload component, and the resumes handed to
    [onResumeUploaded]. *)
Record upload_ui := mkUploadUi {
  uploading : bool;
  error : jsstring;
  uploaded : list Resume.t;
}.

(** A computation on the world and the component. *)
Abbreviation U := (eff jsstring (world * upload_ui)).

Definition lift {A} (m : M A) : U A :=
  fun s => let (o, w') := m s.1 in (o, (w', s.2)).
Definition setUploading (b : bool) : U unit :=
  fun s => (Return tt, (s.1, mkUploadUi b (error s.2) (uploaded s.2))).
Definition setError (e : jsstring) : U unit :=
  fun s => (Return tt, (s.1, mkUploadUi (uploading s.2) e (uploaded s.2))).
Definition onResumeUploaded (resume : Resume.t) : U unit :=
  fun s => (Return tt, (s.1, mkUploadUi (uploading s.2) (error s.2)
                                        (uploaded s.2 ++ [resume]))).

Section Upload.

Variable toLowerCase : jsstring -> jsstring.
Variable cfg : config.
Variable now : number.

(** [isDocxFile] of the docx utilities. *)
Definition isDocxFile (file : File) : bool :=
  let name := toLowerCase (f_name file) in
  if bool_decide (js ".docx" `suffix_of` name) then true
  else
    let type := toLowerCase (f_type file) in
    bool_decide
      (type = js "application/vnd.openxmlformats-officedocument.wordprocessingml.document").

(** [name.replace(/\.docx$/i, '')]: without the [u] flag a code unit
    matches a letter of the pattern when it is the letter in one of its
    two ASCII cases. *)
Definition strip_docx (name : jsstring) : jsstring :=
  let n := length name - 5 in
  match drop n name with
  | [dot; d; o; c; x] =>
      if bool_decide (dot = 46%N /\ (d = 100%N \/ d = 68%N) /\ (o = 111%N \/ o = 79%N)
                      /\ (c = 99%N \/ c = 67%N) /\ (x = 120%N \/ x = 88%N))
      then take n name else name
  | _ => name
  end.

(** [parseDocxText]; [parsed] is the outcome of
    [extractTextFromDocxArrayBuffer] on the file. *)
Definition parseDocxText (parsed : outcome jsstring jsstring) : jsstring :=
  match parsed with
  | Return text => text
  | Throw _ =>
      js "Resume uploaded, but DOCX text extraction failed. Please try a different .docx file."
  end.

(** [handleFileSelect]. [read] is the outcome of [readFileAsBase64] (a
    rejection with its message, empty when it has none), [parsed] the one
    of the text extraction, [cloud] the upload to Cloudinary, if it is
    enabled and succeeds, with its [secureUrl] and [publicId], and [id]
    what [generateId()] returns. The push to the cloud, which is not
    awaited and whose failure is only logged, runs to its end here. *)
Definition handleFileSelect (file : option File) (read : outcome jsstring jsstring)
    (parsed : outcome jsstring jsstring) (cloud : option (jsstring * jsstring))
    (id : jsstring) : U unit :=
  match file with
  | None => ret tt
  | Some file =>
      if negb (isDocxFile file) then setError (js "Please upload a .docx file")
      else if (10 * 1024 * 1024 <? f_size file)%Z
      then setError (js "File size must be less than 10MB")
      else
        setUploading true ;;
        setError [] ;;
        try_catch
          (let! fileContent := (fun s => (read, s)) in
           let parsedText := parseDocxText parsed in
           let resume :=
             Resume.mk id (strip_docx (f_name file)) fileContent parsedText now true
               (fst <$> cloud)
               (match cloud with Some _ => Some (js "cloudinary") | None => None end)
               (snd <$> cloud)
               (if nonempty (f_type file) then Some (f_type file) else None)
               (if nonempty (f_name file) then Some (f_name file) else None) in
           lift (put_storage (fun s =>
                   set_resumes (map (Resume.set_isDefault false) (resumes s) ++ [resume])
                               s)) ;;
           setUploading false ;;
           onResumeUploaded resume ;;
           lift (catch_warn (tryCloudSyncResume toLowerCase cfg now resume)))
          (fun err =>
             setError (if nonempty err then err else js "Failed to upload resume") ;;
             setUploading false)
  end.

(** X22. An upload either stores the resume as the only default one or
    writes nothing. The handler never throws. For a file that is a .docx
    of at most 10 MB and can be read, the storage gets what [saveResume]
    of the storage manager writes for the new resume: the resumes stored
    before, in their order and none of them the default, then the new
    one, which [getDefaultResume] returns; the resume is handed to
    [onResumeUploaded], no error is shown, and the other stored lists are
    as before. For any other file the world is as before, no resume is
    handed over, and an error is shown. *)
Theorem upload_sets_the_default (file : option File)
    (read parsed : outcome jsstring jsstring) (cloud : option (jsstring * jsstring))
    (id : jsstring) (w : world) (u : upload_ui) :
  let r := handleFileSelect file read parsed cloud id (w, u) in
  r.1 = Return tt
  /\ match file, read with
     | Some f, Return fileContent =>
         if isDocxFile f && negb (10 * 1024 * 1024 <? f_size f)%Z
         then exists resume,
           uploaded r.2.2 = uploaded u ++ [resume]
           /\ (Resume.id resume, Resume.content resume, Resume.isDefault resume)
              = (id, fileContent, true)
           /\ resumes (storage r.2.1) = resumes (saveResume resume (storage w))
           /\ resumes (storage r.2.1)
              = map (Resume.set_isDefault false) (resumes (storage w)) ++ [resume]
           /\ Manager.getDefaultResume (storage r.2.1) = Some resume
           /\ (jobs (storage r.2.1), applications (storage r.2.1),
               coverLetters (storage r.2.1), optimizedResumes (storage r.2.1))
              = (jobs (storage w), applications (storage w),
                 coverLetters (storage w), optimizedResumes (storage w))
           /\ (uploading r.2.2, error r.2.2) = (false, [])
         else r.2.1 = w /\ uploaded r.2.2 = uploaded u /\ error r.2.2 <> []
     | Some f, Throw _ =>
         r.2.1 = w /\ uploaded r.2.2 = uploaded u /\ error r.2.2 <> []
     | None, _ => r.2 = (w, u)
     end.
Proof.
  cbv zeta. unfold handleFileSelect.
  destruct file as [f|]; [|by destruct read].
  destruct (isDocxFile f); cbn [negb andb].
  2:{ split; [done|]. by destruct read. }
  destruct (10 * 1024 * 1024 <? f_size f)%Z; cbn [negb].
  { split; [done|]. by destruct read. }
  destruct read as [fileContent|e].
  2:{ split; [done|]. split; [done|]. split; [done|].
      unfold try_catch, bind, setError, setUploading. cbn.
      unfold nonempty. case_bool_decide; [done|]. discriminate. }
  unfold try_catch, bind, setError, setUploading, onResumeUploaded, lift, put_storage.
  cbn [fst snd].
  match goal with |- context [catch_warn (tryCloudSyncResume _ _ _ ?r) ?w1] =>
    destruct (after_catch_warn local_side (tryCloudSyncResume toLowerCase cfg now r) w1)
      as (w2 & Hsync & Hw2); [apply local_push|];
    set (resume := r) in *
  end.
  rewrite Hsync. cbn [fst snd uploaded uploading error].
  split; [done|]. exists resume.
  unfold local_side, stored in Hw2. cbn [storage popup set_resumes resumes jobs
    applications coverLetters optimizedResumes] in Hw2.
  injection Hw2 as H1 H2 H3 H4 H5 H6.
  split; [done|]. split; [done|]. split; [by rewrite H1|]. split; [done|].
  split; [|by rewrite H2, H3, H4, H5].
  unfold Manager.getDefaultResume. rewrite H1.
  by rewrite (find_pushed _ _ resume (Manager.find_default_unset _)).
Qed.

End Upload.

End Upload.

(** ** The popup and the job of the page (src/src/popup/components/Settings.tsx,
    the [Popup] component) *)
Module Popup.

Import Num Effect Storage.

Local Open Scope nat_scope.

(** What the popup does with the job that the content script extracted:
    [jobs.find((j) => j.url === extractedJob.url)], then either
    [setCurrentJob(existing)], or the push, the write and
    [setCurrentJob(extractedJob)]. The result is the storage and the
    current job; the storage of the model does not fail
    ([chrome.runtime.lastError] is never set). *)
Definition persistJob (extractedJob : JobPosting.t) (s : local)
  : local * JobPosting.t :=
  match list_find (fun j => JobPosting.url j = JobPosting.url extractedJob) (jobs s) with
  | Some (_, existing) => (s, existing)
  | None => (set_jobs (jobs s ++ [extractedJob]) s, extractedJob)
  end.

(** X23. The job of a page keeps its id across sessions. The current job
    that the popup sets is stored and has the URL of the extracted job; the
    jobs stored before stay first, in their order, and URLs that were
    distinct stay distinct; a later extraction of the same URL, whatever
    its id and fields, gives the same current job and the same storage;
    and [ensureApplication] for the current job stores no second job. *)
Theorem page_job_is_stable (extractedJob : JobPosting.t) (s : local) :
  let s' := (persistJob extractedJob s).1 in
  let current := (persistJob extractedJob s).2 in
  JobPosting.url current = JobPosting.url extractedJob
  /\ current ∈ jobs s'
  /\ jobs s `prefix_of` jobs s'
  /\ (NoDup (JobPosting.url <$> jobs s) -> NoDup (JobPosting.url <$> jobs s'))
  /\ (forall again, JobPosting.url again = JobPosting.url extractedJob ->
        persistJob again s' = (s', current))
  /\ ensured_jobs current (jobs s') = jobs s'
  /\ (resumes s', applications s', coverLetters s', optimizedResumes s', cloudSync s')
     = (resumes s, applications s, coverLetters s, optimizedResumes s, cloudSync s).
Proof.
  cbv zeta. pose proof (eq_refl (persistJob extractedJob s)) as Hp.
  unfold persistJob at 2 in Hp.
  destruct (list_find _ (jobs s)) as [[i existing]|] eqn:Hfind;
    rewrite Hp; clear Hp; cbn [fst snd].
  - pose proof Hfind as Hf. apply list_find_Some in Hf as (Hi & Hurl & _).
    split; [done|]. split; [by eapply list_elem_of_lookup_2|]. split; [done|].
    split; [done|]. split; [|split; [|done]].
    + intros again Hagain. unfold persistJob. by rewrite Hagain, Hfind.
    + unfold ensured_jobs.
      destruct (list_find (fun j => JobPosting.id j = JobPosting.id existing) (jobs s))
        as [[k j]|] eqn:Hid; [done|].
      apply list_find_None in Hid. apply list_elem_of_lookup_2 in Hi.
      eapply Forall_forall in Hid; [|exact Hi]. done.
  - pose proof Hfind as Hnone. apply list_find_None in Hnone.
    cbn [jobs set_jobs resumes applications coverLetters optimizedResumes cloudSync].
    split; [done|].
    split; [apply elem_of_app; right; by apply list_elem_of_singleton|].
    split; [by apply prefix_app_r|]. split; [|split; [|split; [|done]]].
    + intros Hnd. rewrite fmap_app. apply NoDup_app. split; [done|]. split.
      * intros u Hu Hin. apply list_elem_of_singleton in Hin as ->.
        apply list_elem_of_fmap in Hu as (j & Hj & Hin).
        eapply Forall_forall in Hnone; [|exact Hin]. done.
      * apply NoDup_singleton.
    + intros again Hagain. unfold persistJob.
      cbn [jobs set_jobs]. rewrite Hagain.
      by rewrite (find_pushed _ _ extractedJob Hfind).
    + unfold ensured_jobs.
      destruct (list_find _ (jobs s ++ [extractedJob])) as [[k j]|] eqn:Hid; [done|].
      apply list_find_None in Hid. apply Forall_app in Hid as [_ Hid].
      apply Forall_inv in Hid. by destruct Hid.
Qed.

End Popup.

(** ** The download that keeps the format
    (src/src/popup/utils/download.ts, [downloadOptimizedDocxPreservingFormat]) *)
Module Download.

Import Docx Effect Storage.

Local Open Scope nat_scope.

(** [s.split('\n')]: the pieces between the line feeds; [cur] is the piece
    being read. *)
Fixpoint split_lines_from (cur : jsstring) (s : jsstring) : list jsstring :=
  match s with
  | [] => [cur]
  | c :: r =>
      if (c =? 10)%N then cur :: split_lines_from [] r
      else split_lines_from (cur ++ [c]) r
  end.

Definition split_lines (s : jsstring) : list jsstring := split_lines_from [] s.

(** What the handler ends in: [downloadBlob(filename, blob)], or the
    message that it sets as the error and shows in the alert [Download
    Error: ...]. *)
Inductive download :=
  | Downloaded (filename : jsstring) (blob : DocxFile.zip)
  | Failed (msg : jsstring).

Definition layout_mismatch (expected got : nat) : jsstring :=
  js "This optimized text does not match your DOCX layout (expected "
  ++ js (pretty expected) ++ js " paragraphs, got " ++ js (pretty got)
  ++ js "). Please click " ++ [8218; 196; 250]%N ++ js "Remake Resume"
  ++ [8218; 196; 249]%N
  ++ js " again.".

Section Download.

Variable toLowerCase : jsstring -> jsstring.
Variable stripMarkdownArtifacts : jsstring -> jsstring.

(** [new PizZip(base64ToUint8Array(base64))], which throws on what is not
    an archive; the archive handed to [zip.generate] stands for the blob. *)
Variable unzip : jsstring -> outcome jsstring DocxFile.zip.
Variable parseFromString : jsstring -> option node.
Variable serializeToString : node -> jsstring.

Definition downloadOptimizedDocxPreservingFormat (resume : Resume.t)
    (job : JobPosting.t) (optimizedText : jsstring) : download :=
  let attempt : outcome jsstring (jsstring * DocxFile.zip) :=
    let originalName := toLowerCase (default [] (Resume.originalFileName resume)) in
    if negb (bool_decide (js ".docx" `suffix_of` originalName))
    then Throw (js "Format-preserving download requires a .docx resume upload.")
    else if negb (nonempty (Resume.content resume))
    then Throw (js "Original DOCX content is missing in local storage. Please re-upload your resume.")
    else
      match unzip (Resume.content resume) with
      | Throw e => Throw e
      | Return z =>
          match DocxFile.extractParagraphsFromDocxBase64 parseFromString z with
          | Throw e => Throw e
          | Return originalParagraphs =>
              let normalized := stripMarkdownArtifacts optimizedText in
              let updatedParagraphs := split_lines normalized in
              if negb (length updatedParagraphs =? length originalParagraphs)
              then Throw (layout_mismatch (length originalParagraphs)
                                          (length updatedParagraphs))
              else
                match DocxFile.patchDocxWithParagraphs parseFromString
                        serializeToString z updatedParagraphs with
                | Throw e => Throw e
                | Return blob =>
                    Return (Resume.name resume ++ js "-" ++ JobPosting.company job
                            ++ js "-" ++ JobPosting.title job ++ js "-resume.docx",
                            blob)
                end
          end
      end in
  match attempt with
  | Return (filename, blob) => Downloaded filename blob
  | Throw e => Failed (if nonempty e then e else js "Failed to create DOCX download")
  end.

Lemma split_lines_from_nonempty s : forall cur, split_lines_from cur s <> [].
Proof.
  induction s as [|c r IH]; intros cur; [done|].
  cbn [split_lines_from]. destruct (c =? 10)%N; [done|apply IH].
Qed.

Lemma join_split_lines_from s : forall cur,
  Generate.join_lines (split_lines_from cur s) = cur ++ s.
Proof.
  induction s as [|c r IH]; intros cur; [by rewrite app_nil_r|].
  cbn [split_lines_from]. destruct (c =? 10)%N eqn:Hc.
  - apply N.eqb_eq in Hc as ->.
    pose proof (split_lines_from_nonempty r []) as Hne.
    cbn [Generate.join_lines].
    destruct (split_lines_from [] r) as [|p rest] eqn:Hsplit; [done|].
    rewrite <- Hsplit, IH. done.
  - rewrite IH. by rewrite <- app_assoc.
Qed.

Lemma split_lines_from_newline_free s : forall cur,
  10%N ∉ cur -> Forall newline_free (split_lines_from cur s).
Proof.
  induction s as [|c r IH]; intros cur Hcur; [by apply Forall_singleton|].
  cbn [split_lines_from]. destruct (c =? 10)%N eqn:Hc.
  - apply Forall_cons. split; [done|]. apply IH. apply not_elem_of_nil.
  - apply IH. intros Hin. apply elem_of_app in Hin as [Hin|Hin]; [done|].
    apply list_elem_of_singleton in Hin. apply N.eqb_neq in Hc. done.
Qed.

(** X24. A download that keeps the format happens only when the text has
    the layout of the document, and then the document downloaded holds the
    text. When the handler downloads, the resume holds an archive whose
    document has as many paragraphs as the text, stripped of its markdown,
    has lines; the archive downloaded is the original one with the
    document patched with these lines; no line holds a line feed; and for a
    document with no paragraph inside another and a [w:t] in every
    paragraph, the paragraphs of the patched document are the lines, which
    joined by line feeds give the stripped text. Otherwise a message that
    is not empty is shown. *)
Theorem download_keeps_the_text (resume : Resume.t) (job : JobPosting.t)
    (optimizedText : jsstring) :
  match downloadOptimizedDocxPreservingFormat resume job optimizedText with
  | Downloaded filename blob =>
      let lines := split_lines (stripMarkdownArtifacts optimizedText) in
      exists z doc,
        unzip (Resume.content resume) = Return z
        /\ DocxFile.open parseFromString z = Return doc
        /\ length lines = length (pElements doc)
        /\ Forall newline_free lines
        /\ blob = <[DocxFile.document_xml
                    := serializeToString (patchParagraphs doc lines)]> z
        /\ (flat doc = true ->
            Forall (fun p => tTexts p <> []) (pElements doc) ->
            extractParagraphs (patchParagraphs doc lines) = lines
            /\ Generate.join_lines (extractParagraphs (patchParagraphs doc lines))
               = stripMarkdownArtifacts optimizedText)
  | Failed msg => msg <> []
  end.
Proof.
  unfold downloadOptimizedDocxPreservingFormat. cbv zeta.
  assert (Hmsg : forall e, (if nonempty e then e else js "Failed to create DOCX download")
                           <> []).
  { intros e. unfold nonempty. case_bool_decide; [done|discriminate]. }
  destruct (negb (bool_decide _)); [apply Hmsg|].
  destruct (negb (nonempty _)); [apply Hmsg|].
  destruct (unzip (Resume.content resume)) as [z|e] eqn:Hzip; [|apply Hmsg].
  unfold DocxFile.extractParagraphsFromDocxBase64, DocxFile.patchDocxWithParagraphs.
  destruct (DocxFile.open parseFromString z) as [doc|e] eqn:Hopen; [|apply Hmsg].
  destruct (length _ =? length _) eqn:Hlen; cbn [negb]; [|apply Hmsg].
  apply Nat.eqb_eq in Hlen. unfold extractParagraphs in Hlen.
  rewrite length_map in Hlen.
  exists z, doc. split; [done|]. split; [done|]. split; [done|].
  split; [apply split_lines_from_newline_free, not_elem_of_nil|]. split; [done|].
  intros Hflat Hall.
  rewrite (extract_patch_flat doc _ Hflat Hall), <- Hlen, DocxLaws.normalize_full.
  split; [done|]. apply (join_split_lines_from _ []).
Qed.

End Download.

End Download.

(** ** The Word download (src/src/popup/utils/download.ts, [downloadDoc]) *)
Module WordDoc.

Local Open Scope nat_scope.

(** [s.replace(/c/g, by)] for a pattern of one code unit. *)
Definition replace_unit (c : N) (by_ : jsstring) (s : jsstring) : jsstring :=
  flat_map (fun x => if (x =? c)%N then by_ else [x]) s.

Definition escape (text : jsstring) : jsstring :=
  replace_unit 62 (js "&gt;")
    (replace_unit 60 (js "&lt;")
       (replace_unit 38 (js "&amp;") text)).

Definition quote : jsstring := [34%N].
Definition nl : jsstring := [10%N].

Definition head_and_title (title : jsstring) : jsstring :=
  js "<!doctype html>" ++ nl
  ++ js "<html>" ++ nl
  ++ js "<head>" ++ nl
  ++ js "<meta charset=" ++ quote ++ js "utf-8" ++ quote ++ js " />" ++ nl
  ++ js "<title>" ++ title ++ js "</title>" ++ nl
  ++ js "<style>" ++ nl
  ++ js "  body { font-family: Calibri, Arial, sans-serif; padding: 24px; }" ++ nl
  ++ js "  h1 { font-size: 18px; margin: 0 0 12px 0; }" ++ nl
  ++ js "  pre { white-space: pre-wrap; word-wrap: break-word; font-family: Calibri, Arial, sans-serif; font-size: 12pt; line-height: 1.4; }" ++ nl
  ++ js "</style>" ++ nl
  ++ js "</head>" ++ nl
  ++ js "<body>" ++ nl
  ++ js "<h1>" ++ title ++ js "</h1>" ++ nl.

Definition before_text (title : jsstring) : jsstring :=
  head_and_title title ++ js "<pre>".

Definition after_text : jsstring :=
  js "</pre>" ++ nl ++ js "</body>" ++ nl ++ js "</html>".

(** The file name and the HTML of the blob that [downloadDoc] hands to
    [triggerDownload]. *)
Definition downloadDoc (filename title text : jsstring) : jsstring * jsstring :=
  (filename, before_text title ++ escape text ++ after_text).

(** The escape of one code unit. *)
Definition entity (x : N) : jsstring :=
  if (x =? 38)%N then js "&amp;"
  else if (x =? 60)%N then js "&lt;"
  else if (x =? 62)%N then js "&gt;"
  else [x].

Lemma flat_map_flat_map {A B C} (f : A -> list B) (g : B -> list C) (l : list A) :
  flat_map g (flat_map f l) = flat_map (fun x => flat_map g (f x)) l.
Proof.
  induction l as [|x l IH]; [done|]. cbn [flat_map].
  by rewrite flat_map_app, IH.
Qed.

Lemma escape_entities text : escape text = flat_map entity text.
Proof.
  unfold escape, replace_unit. rewrite !flat_map_flat_map.
  apply flat_map_ext. intros x. unfold entity.
  destruct (x =? 38)%N eqn:H38; [done|].
  cbn [flat_map app]. destruct (x =? 60)%N eqn:H60; [done|].
  cbn [flat_map app]. by destruct (x =? 62)%N.
Qed.

Lemma entity_cases x :
  (x = 38%N /\ entity x = [38; 97; 109; 112; 59]%N)
  \/ (x = 60%N /\ entity x = [38; 108; 116; 59]%N)
  \/ (x = 62%N /\ entity x = [38; 103; 116; 59]%N)
  \/ (x <> 38%N /\ x <> 60%N /\ x <> 62%N /\ entity x = [x]).
Proof.
  unfold entity.
  destruct (x =? 38)%N eqn:H38; [apply N.eqb_eq in H38; by left|].
  destruct (x =? 60)%N eqn:H60; [apply N.eqb_eq in H60; right; by left|].
  destruct (x =? 62)%N eqn:H62; [apply N.eqb_eq in H62; right; right; by left|].
  apply N.eqb_neq in H38, H60, H62. by repeat right.
Qed.

Lemma entities_injective : forall a b,
  flat_map entity a = flat_map entity b -> a = b.
Proof.
  induction a as [|x a IH]; intros [|y b] H.
  - done.
  - cbn [flat_map] in H.
    destruct (entity_cases y) as [[_ Hy]|[[_ Hy]|[[_ Hy]|(_ & _ & _ & Hy)]]];
      rewrite Hy in H; discriminate.
  - cbn [flat_map] in H.
    destruct (entity_cases x) as [[_ Hx]|[[_ Hx]|[[_ Hx]|(_ & _ & _ & Hx)]]];
      rewrite Hx in H; discriminate.
  - cbn [flat_map] in H.
    destruct (entity_cases x) as [[Hx Ex]|[[Hx Ex]|[[Hx Ex]|(Hx1 & Hx2 & Hx3 & Ex)]]],
             (entity_cases y) as [[Hy Ey]|[[Hy Ey]|[[Hy Ey]|(Hy1 & Hy2 & Hy3 & Ey)]]];
      rewrite Ex, Ey in H; cbn [app] in H; try discriminate;
      injection H; intros; subst; first [congruence|f_equal; by apply IH].
Qed.

Lemma entities_no_markup text c :
  (c = 60 \/ c = 62)%N -> c ∉ flat_map entity text.
Proof.
  intros Hc Hin. apply list_elem_of_In, in_flat_map in Hin as (x & _ & Hin).
  apply list_elem_of_In in Hin.
  destruct (entity_cases x) as [[_ Hx]|[[_ Hx]|[[_ Hx]|(H1 & H2 & H3 & Hx)]]];
    rewrite Hx in Hin;
    repeat (apply elem_of_cons in Hin as [Hin|Hin]; [lia|]);
    by apply elem_of_nil in Hin.
Qed.

Lemma ampersand_starts_entity text : forall i,
  flat_map entity text !! i = Some 38%N ->
  exists name, name ∈ [js "amp;"; js "lt;"; js "gt;"]
               /\ take (length name) (drop (S i) (flat_map entity text)) = name.
Proof.
  induction text as [|x text IH]; intros i Hi; [done|].
  cbn [flat_map] in *.
  destruct (entity_cases x) as [[_ Hx]|[[_ Hx]|[[_ Hx]|(H1 & _ & _ & Hx)]]];
    rewrite Hx in *; cbn [app] in *.
  - destruct i as [|[|[|[|[|i]]]]]; try discriminate.
    + exists (js "amp;"). split; [apply list_elem_of_here|reflexivity].
    + apply (IH i Hi).
  - destruct i as [|[|[|[|i]]]]; try discriminate.
    + exists (js "lt;"). split; [apply list_elem_of_further, list_elem_of_here|reflexivity].
    + apply (IH i Hi).
  - destruct i as [|[|[|[|i]]]]; try discriminate.
    + exists (js "gt;"). split; [|reflexivity].
      apply list_elem_of_further, list_elem_of_further, list_elem_of_here.
    + apply (IH i Hi).
  - destruct i as [|i]; [cbn in Hi; congruence|]. apply (IH i Hi).
Qed.

Lemma indexOf_first c (l r : jsstring) :
  c ∉ l -> Generate.indexOf c (l ++ c :: r) = Some (length l).
Proof.
  induction l as [|x l IH]; intros Hc.
  - cbn. by rewrite N.eqb_refl.
  - apply not_elem_of_cons in Hc as [Hx Hl]. cbn [app Generate.indexOf].
    rewrite (proj2 (N.eqb_neq x c)) by done. by rewrite IH.
Qed.

(** X25. The text of a Word download cannot write markup. The escaped
    text holds no [<] and no [>]; every [&] in it starts one of the
    entities [&amp;], [&lt;] and [&gt;]; two texts that escape to the same
    string are the same text; and in the HTML the escaped text follows
    [<pre>], and the first [<] after it is the one of the [</pre>] that
    closes the element. *)
Theorem doc_text_writes_no_markup (filename title text : jsstring) :
  (60%N ∉ escape text)
  /\ (62%N ∉ escape text)
  /\ (forall i, escape text !! i = Some 38%N ->
        exists name, name ∈ [js "amp;"; js "lt;"; js "gt;"]
                     /\ take (length name) (drop (S i) (escape text)) = name)
  /\ (forall other, escape other = escape text -> other = text)
  /\ (exists before rest,
        (downloadDoc filename title text).2
        = before ++ js "<pre>" ++ escape text ++ js "</pre>" ++ rest
        /\ Generate.indexOf 60 (escape text ++ js "</pre>" ++ rest)
           = Some (length (escape text))).
Proof.
  split; [rewrite escape_entities; apply entities_no_markup; lia|].
  split; [rewrite escape_entities; apply entities_no_markup; lia|].
  split; [rewrite escape_entities; apply ampersand_starts_entity|].
  split.
  { intros other. rewrite !escape_entities. apply entities_injective. }
  exists (head_and_title title), (nl ++ js "</body>" ++ nl ++ js "</html>"). split.
  - unfold downloadDoc, before_text, after_text. cbn [snd].
    by rewrite <- !app_assoc.
  - change (js "</pre>") with (60%N :: js "/pre>"). rewrite <- app_comm_cons.
    apply indexOf_first. rewrite escape_entities. apply entities_no_markup. lia.
Qed.

End WordDoc.

(** ** More on the strings of the generation
    (src/src/popup/utils/download.ts) *)
Module TextLaws.

Import Num Effect Generate.

Local Open Scope nat_scope.

(** [t] is a part of [s]: some code units of [s] in a row. *)
Definition part_of (t s : jsstring) : Prop := exists a b, s = a ++ t ++ b.

Lemma part_of_refl s : part_of s s.
Proof. exists [], []. by rewrite app_nil_r. Qed.

Lemma part_of_trans t s u : part_of t s -> part_of s u -> part_of t u.
Proof.
  intros (a & b & ->) (c & d & ->). exists (c ++ a), (b ++ d).
  by rewrite <- !app_assoc.
Qed.

Lemma part_of_sublist t s : part_of t s -> t `sublist_of` s.
Proof. intros (a & b & ->). by apply sublist_inserts_l, sublist_inserts_r. Qed.

Lemma part_of_take n s : part_of (take n s) s.
Proof. exists [], (drop n s). cbn. by rewrite take_drop. Qed.

Lemma part_of_drop n s : part_of (drop n s) s.
Proof. exists (take n s), []. by rewrite app_nil_r, take_drop. Qed.

Lemma part_of_reverse t s : part_of t s -> part_of (reverse t) (reverse s).
Proof.
  intros (a & b & ->). exists (reverse b), (reverse a).
  by rewrite !reverse_app, <- app_assoc.
Qed.

Lemma part_of_slice s from to : part_of (slice s from to) s.
Proof.
  unfold slice. cbv zeta. eapply part_of_trans; [apply part_of_take|apply part_of_drop].
Qed.

Lemma starts_with_prefix pat s :
  starts_with N.eqb pat s = true <-> exists b, s = pat ++ b.
Proof.
  revert s. induction pat as [|p pat IH]; intros s.
  - split; [by exists s|done].
  - destruct s as [|c s]; cbn [starts_with].
    + split; [done|]. by intros (b & Hb).
    + rewrite andb_true_iff, N.eqb_eq, IH. split.
      * intros [-> (b & ->)]. by exists b.
      * intros (b & Hb). injection Hb as -> ->. split; [done|by exists b].
Qed.

Lemma includes_part needle s : includes needle s = true <-> part_of needle s.
Proof.
  induction s as [|c s IH].
  - cbn [includes]. rewrite orb_false_r, starts_with_prefix. split.
    + intros (b & Hb). by exists [], b.
    + intros (a & b & Hab). destruct a; [by exists b|done].
  - cbn [includes]. rewrite orb_true_iff, starts_with_prefix, IH. split.
    + intros [(b & Hb)|(a & b & ->)]; [by exists [], b|by exists (c :: a), b].
    + intros ([|x a] & b & Hab).
      * left. by exists b.
      * right. injection Hab as -> ->. by exists a, b.
Qed.

Lemma excludes_part needle t s :
  part_of t s -> includes needle s = false -> includes needle t = false.
Proof.
  intros Hts Hs. destruct (includes needle t) eqn:Ht; [|done].
  apply includes_part in Ht.
  assert (Hin : includes needle s = true)
    by (apply includes_part; by eapply part_of_trans).
  congruence.
Qed.

Lemma drop_spaces_part s : part_of (drop_spaces s) s.
Proof.
  induction s as [|c s IH]; [apply part_of_refl|].
  cbn [drop_spaces]. destruct (Score.is_space c); [|apply part_of_refl].
  eapply part_of_trans; [exact IH|]. exists [c], []. by rewrite app_nil_r.
Qed.

Lemma trim_part s : part_of (trim s) s.
Proof.
  unfold trim. eapply part_of_trans; [|apply drop_spaces_part].
  rewrite <- (reverse_involutive (drop_spaces s)) at 2.
  apply part_of_reverse, drop_spaces_part.
Qed.

(** *** Removing the fences *)

Lemma remove_from_drop eqc pat k : forall s,
  remove_from eqc pat k s = remove_from eqc pat 0 (drop k s).
Proof.
  induction k as [|k IH]; intros s; [done|].
  destruct s as [|c r]; [done|]. cbn [remove_from drop]. apply IH.
Qed.

Lemma remove_all_cons eqc pat c r :
  remove_all eqc pat (c :: r)
  = if starts_with eqc pat (c :: r)
    then remove_all eqc pat (drop (length pat - 1) r)
    else c :: remove_all eqc pat r.
Proof.
  unfold remove_all. cbn [remove_from].
  destruct (starts_with eqc pat (c :: r)); [apply remove_from_drop|done].
Qed.

Lemma remove_all_sublist eqc pat s : remove_all eqc pat s `sublist_of` s.
Proof.
  unfold remove_all. generalize 0. revert s.
  induction s as [|c r IH]; intros k; [done|].
  cbn [remove_from]. destruct k as [|k]; [|by apply sublist_cons].
  destruct (starts_with eqc pat (c :: r)); [by apply sublist_cons|by apply sublist_skip].
Qed.

(** A string in which the pattern starts nowhere is left as it is. *)
Lemma remove_all_nothing eqc pat s :
  (forall a t, s = a ++ t -> starts_with eqc pat t = false) ->
  remove_all eqc pat s = s.
Proof.
  induction s as [|c r IH]; intros Hno; [done|].
  rewrite remove_all_cons, (Hno [] (c :: r) eq_refl). f_equal. apply IH.
  intros a t ->. by apply (Hno (c :: a) t).
Qed.

Lemma two_ticks_stay r :
  starts_with N.eqb [96; 96]%N r = false ->
  starts_with N.eqb [96; 96]%N (remove_all N.eqb backticks r) = false.
Proof.
  intros Hr. destruct r as [|x r']; [done|].
  rewrite remove_all_cons.
  assert (Hst : starts_with N.eqb backticks (x :: r') = false).
  { change backticks with [96; 96; 96]%N. cbn [starts_with] in *.
    destruct (96 =? x)%N; [|done]. cbn [andb] in *.
    destruct r' as [|y r'']; [done|]. destruct (96 =? y)%N; [done|done]. }
  rewrite Hst. cbn [starts_with] in *. destruct (96 =? x)%N; [|done]. cbn [andb] in *.
  destruct r' as [|y r'']; [done|]. rewrite remove_all_cons.
  cbn [starts_with] in Hr. destruct (96 =? y)%N eqn:Hy; [done|].
  change backticks with [96; 96; 96]%N. cbn [starts_with]. rewrite Hy. cbn [andb].
  cbn [starts_with]. by rewrite Hy.
Qed.

Lemma remove_leaves_no_fence n : forall s,
  length s <= n -> includes backticks (remove_all N.eqb backticks s) = false.
Proof.
  induction n as [|n IH]; intros s Hn.
  { destruct s; [done|cbn in Hn; lia]. }
  destruct s as [|c r]; [done|]. cbn [length] in Hn. rewrite remove_all_cons.
  destruct (starts_with N.eqb backticks (c :: r)) eqn:Hst.
  - apply IH. rewrite length_drop. lia.
  - cbn [includes]. rewrite (IH r) by lia. rewrite orb_false_r.
    change backticks with [96; 96; 96]%N in Hst |- *.
    cbn [starts_with] in *. destruct (96 =? c)%N; [|done]. cbn [andb] in *.
    change (?a && (?b && true)) with (starts_with N.eqb [96; 96]%N
                                        (remove_all N.eqb [96; 96; 96]%N r)).
    by apply two_ticks_stay.
Qed.

Lemma no_fence_left s : includes backticks (remove_all N.eqb backticks s) = false.
Proof. by apply (remove_leaves_no_fence (length s)). Qed.

(** *** Trimmed strings *)

(** No white space at the start. *)
Definition starts_clean (s : jsstring) : Prop :=
  match s with
  | [] => True
  | c :: _ => Score.is_space c = false
  end.

(** No white space at either end. *)
Definition trimmed (s : jsstring) : Prop := starts_clean s /\ starts_clean (reverse s).

Lemma drop_spaces_clean s : starts_clean (drop_spaces s).
Proof.
  induction s as [|c r IH]; [done|]. cbn [drop_spaces].
  by destruct (Score.is_space c) eqn:Hc.
Qed.

Lemma drop_spaces_id s : starts_clean s -> drop_spaces s = s.
Proof. destruct s as [|c r]; [done|]. cbn. by intros ->. Qed.

Lemma drop_spaces_suffix s : exists a, s = a ++ drop_spaces s.
Proof.
  induction s as [|c r [a IH]]; [by exists []|]. cbn [drop_spaces].
  destruct (Score.is_space c); [|by exists []].
  exists (c :: a). cbn. by rewrite <- IH.
Qed.

Lemma trim_trimmed s : trimmed (trim s).
Proof.
  unfold trimmed, trim. rewrite reverse_involutive.
  split; [|apply drop_spaces_clean].
  pose proof (drop_spaces_clean s) as Hx.
  destruct (drop_spaces_suffix (reverse (drop_spaces s))) as [a Ha].
  destruct (drop_spaces (reverse (drop_spaces s))) as [|y l] eqn:Hy; [done|].
  apply (f_equal reverse) in Ha. rewrite reverse_involutive, reverse_app in Ha.
  rewrite Ha in Hx. destruct (reverse (y :: l)) as [|z t] eqn:Hz; [|done].
  apply (f_equal length) in Hz. rewrite length_reverse in Hz. done.
Qed.

Lemma trim_id s : trimmed s -> trim s = s.
Proof.
  intros [Hs Hr]. unfold trim.
  by rewrite (drop_spaces_id s), (drop_spaces_id (reverse s)), reverse_involutive.
Qed.

(** *** The first and the last brace *)

Lemma indexOf_lookup c s i : indexOf c s = Some i -> s !! i = Some c.
Proof.
  revert i. induction s as [|x r IH]; intros i; [done|]. cbn [indexOf].
  destruct (x =? c)%N eqn:Hx.
  - intros [= <-]. apply N.eqb_eq in Hx. by subst.
  - destruct (indexOf c r) as [j|]; [|done]. intros [= <-]. by apply IH.
Qed.

Lemma lastIndexOf_lookup c s j :
  lastIndexOf c s = Some j -> s !! j = Some c /\ j < length s.
Proof.
  unfold lastIndexOf. destruct (indexOf c (reverse s)) as [i|] eqn:Hi; [|done].
  intros [= <-]. apply indexOf_lookup in Hi.
  pose proof (lookup_lt_Some _ _ _ Hi) as Hlt. rewrite length_reverse in Hlt.
  rewrite reverse_lookup in Hi by done.
  replace (length s - 1 - i) with (length s - S i) by lia. split; [done|lia].
Qed.

Lemma indexOf_head c r : indexOf c (c :: r) = Some 0.
Proof. cbn. by rewrite N.eqb_refl. Qed.

Lemma lastIndexOf_last c s : lastIndexOf c (s ++ [c]) = Some (length s).
Proof.
  unfold lastIndexOf. rewrite reverse_app. cbn [reverse rev_append app].
  change (reverse [c]) with [c]. cbn [app]. rewrite indexOf_head. cbn.
  rewrite length_app. cbn. f_equal. lia.
Qed.

(** *** extractJsonObject *)

Lemma tick_ignoring_case x : eq_ignoring_case 96 x = true -> x = 96%N.
Proof.
  unfold eq_ignoring_case. cbv zeta.
  change (if (97 <=? 96)%N && (96 <=? 122)%N then (96 - 32)%N else 96%N) with 96%N.
  destruct ((97 <=? x) && (x <=? 122))%N eqn:Hx; intros H; apply N.eqb_eq in H.
  - apply andb_true_iff in Hx as [H1 H2]. apply N.leb_le in H1, H2. lia.
  - done.
Qed.

Lemma fence_starts_with_ticks t :
  starts_with eq_ignoring_case (js "```json") t = true ->
  starts_with N.eqb backticks t = true.
Proof.
  change (js "```json") with [96; 96; 96; 106; 115; 111; 110]%N.
  change backticks with [96; 96; 96]%N.
  destruct t as [|a [|b [|c t]]]; cbn [starts_with]; rewrite ?andb_false_r; try done.
  intros H. apply andb_true_iff in H as [Ha H]. apply andb_true_iff in H as [Hb H].
  apply andb_true_iff in H as [Hc _].
  apply tick_ignoring_case in Ha, Hb, Hc. by subst.
Qed.

Lemma no_fence_starts r a t :
  includes backticks r = false -> r = a ++ t -> starts_with N.eqb backticks t = false.
Proof.
  intros Hr ->. destruct (starts_with N.eqb backticks t) eqn:Hst; [|done].
  apply starts_with_prefix in Hst as (b & ->).
  assert (includes backticks (a ++ backticks ++ b) = true)
    by (apply includes_part; by exists a, b).
  congruence.
Qed.

(** On a trimmed string without fences [extractJsonObject] only cuts. *)
Lemma extractJsonObject_clean r :
  includes backticks r = false -> trimmed r ->
  extractJsonObject r
  = match indexOf 123 r, lastIndexOf 125 r with
    | Some start, Some end_ =>
        if (end_ <=? start)%nat then r
        else slice r (Z.of_nat start) (Z.of_nat end_ + 1)
    | _, _ => r
    end.
Proof.
  intros Hfence Htrim. unfold extractJsonObject. cbv zeta.
  rewrite (remove_all_nothing eq_ignoring_case).
  2:{ intros a t Hat. destruct (starts_with eq_ignoring_case _ t) eqn:Hst; [|done].
      apply fence_starts_with_ticks in Hst.
      by rewrite (no_fence_starts r a t Hfence Hat) in Hst. }
  rewrite (remove_all_nothing N.eqb) by (intros a t; by apply no_fence_starts).
  by rewrite (trim_id r Htrim).
Qed.

Lemma is_space_brace : Score.is_space 123 = false /\ Score.is_space 125 = false.
Proof. done. Qed.

(** X26. What [extractJsonObject] returns is the text without its fences,
    cut to its braces. The result is made of code units of the text, in
    their order; it holds no fence of three backticks and has no white
    space at its ends; when its first [{] comes before its last [}], it
    starts with the one and ends with the other; and extracting again
    changes nothing. *)
Theorem extractJsonObject_cuts_to_the_object (text : jsstring) :
  let r := extractJsonObject text in
  r `sublist_of` text
  /\ includes backticks r = false
  /\ trim r = r
  /\ (forall i j, indexOf 123 r = Some i -> lastIndexOf 125 r = Some j -> i < j ->
        head r = Some 123%N /\ last r = Some 125%N)
  /\ extractJsonObject r = r.
Proof.
  cbv zeta.
  pose (cleaned := trim (remove_all N.eqb backticks
                           (remove_all eq_ignoring_case (js "```json") text))).
  assert (Hsub : cleaned `sublist_of` text).
  { unfold cleaned. etrans; [apply part_of_sublist, trim_part|].
    etrans; apply remove_all_sublist. }
  assert (Hfence : includes backticks cleaned = false).
  { eapply excludes_part; [apply trim_part|apply no_fence_left]. }
  assert (Htrim : trimmed cleaned) by apply trim_trimmed.
  assert (Hr : extractJsonObject text
               = match indexOf 123 cleaned, lastIndexOf 125 cleaned with
                 | Some start, Some end_ =>
                     if (end_ <=? start)%nat then cleaned
                     else slice cleaned (Z.of_nat start) (Z.of_nat end_ + 1)
                 | _, _ => cleaned
                 end) by done.
  assert (Hsame : extractJsonObject cleaned = extractJsonObject text).
  { by rewrite Hr, (extractJsonObject_clean cleaned Hfence Htrim). }
  destruct (indexOf 123 cleaned) as [start|] eqn:Hstart.
  2:{ rewrite Hr in *. rewrite (trim_id cleaned Htrim).
      split; [done|]. split; [done|]. split; [done|]. split; [|done].
      intros i j Hi. congruence. }
  destruct (lastIndexOf 125 cleaned) as [end_|] eqn:Hend.
  2:{ rewrite Hr in *. rewrite (trim_id cleaned Htrim).
      split; [done|]. split; [done|]. split; [done|]. split; [|done].
      intros i j Hi Hj. congruence. }
  destruct (Nat.leb_spec end_ start) as [Hle|Hlt].
  { rewrite Hr in *. rewrite (trim_id cleaned Htrim).
    split; [done|]. split; [done|]. split; [done|]. split; [|done].
    intros i j Hi Hj Hij.
    assert (i = start) by congruence. assert (j = end_) by congruence. lia. }
  rewrite Hr. clear Hr Hsame.
  apply indexOf_lookup in Hstart. apply lastIndexOf_lookup in Hend as [Hend Hlen].
  replace (Z.of_nat end_ + 1)%Z
    with (Z.of_nat start + Z.of_nat (end_ + 1 - start))%Z by lia.
  rewrite (slice_take_drop cleaned (Z.of_nat start) (Z.of_nat (end_ + 1 - start)))
    by lia.
  rewrite !Nat2Z.id.
  set (r := take (end_ + 1 - start) (drop start cleaned)).
  assert (Hpart : part_of r cleaned).
  { eapply part_of_trans; [apply part_of_take|apply part_of_drop]. }
  assert (Hlength : length r = end_ + 1 - start).
  { unfold r. rewrite length_take, length_drop. lia. }
  assert (Hhead : head r = Some 123%N).
  { rewrite head_lookup. unfold r. rewrite lookup_take_lt by lia.
    rewrite lookup_drop. by rewrite Nat.add_0_r. }
  assert (Hlast : last r = Some 125%N).
  { rewrite last_lookup, Hlength. unfold r. rewrite lookup_take_lt by lia.
    rewrite lookup_drop. by replace (start + pred (end_ + 1 - start)) with end_ by lia. }
  assert (Hfence_r : includes backticks r = false) by (by eapply excludes_part).
  assert (Htrim_r : trimmed r).
  { split.
    - destruct r as [|c r']; [done|]. by injection Hhead as ->.
    - apply last_Some in Hlast as (l & Hl). rewrite Hl, reverse_app. done. }
  split.
  { etrans; [by apply part_of_sublist|exact Hsub]. }
  split; [done|]. split; [by apply trim_id|]. split; [done|].
  rewrite (extractJsonObject_clean r Hfence_r Htrim_r).
  pose proof Hlast as Hl. apply last_Some in Hl as (l & Hl).
  destruct r as [|c r'] eqn:Hr'; [done|]. injection Hhead as ->.
  rewrite indexOf_head. rewrite Hl, lastIndexOf_last.
  destruct (Nat.leb_spec (length l) 0) as [Hzero|Hpos]; [done|].
  replace (Z.of_nat (length l) + 1)%Z with (0 + Z.of_nat (length (l ++ [125%N])))%Z
    by (rewrite length_app; cbn; lia).
  rewrite slice_take_drop by lia. rewrite Nat2Z.id. cbn [drop Z.to_nat].
  by rewrite firstn_all.
Qed.

End TextLaws.

(** ** Generating a cover letter
    (src/src/popup/utils/download.ts, [generateCoverLetter]) *)
Module CoverLetterFlow.

Import Num Effect Storage Generate TextLaws.

Local Open Scope nat_scope.

(** [/\[[^\]]{2,}\]/.test(s)]: a [[] with two code units or more before
    the next []]. *)
Fixpoint has_bracket_token (s : jsstring) : bool :=
  match s with
  | [] => false
  | c :: r =>
      (c =? 91)%N && match indexOf 93 r with
                     | Some n => 2 <=? n
                     | None => false
                     end
      || has_bracket_token r
  end.

(** The two prompts of a cover letter; the repair quotes the letter it is
    to fix. *)
Inductive cover_request :=
  | CoverInitial
  | CoverRepair (cleaned : jsstring).

(** What the modal ends with: the letter in the typewriter; the letter
    kept back because the handler saw an error text; the cancellation; an
    error, with the text set as the error and the one set as the error of
    the modal. *)
Inductive cover_status :=
  | LetterShown (text : jsstring)
  | LetterKeptBack (text : jsstring)
  | LetterCancelled
  | LetterErrored (error rewriteError : jsstring).

Section Cover.

Variable toLowerCase : jsstring -> jsstring.
Variable stripMarkdownArtifacts : jsstring -> jsstring.

(** The model answers a request knowing the requests before it. *)
Variable llm : list cover_request -> cover_request -> reply.

(** The provider of the settings, and whether its API key is set. *)
Variable gemini : bool.
Variable api_key_present : bool.

Definition containsPlaceholderTokens (text : jsstring) : bool :=
  if negb (nonempty text) then false
  else
    let lower := toLowerCase text in
    if includes (js "[your name]") lower then true
    else if includes (js "[name]") lower then true
    else if includes (js "[city") lower then true
    else if includes (js "[phone") lower then true
    else if includes (js "[email") lower then true
    else if includes (js "[linkedin") lower then true
    else if includes (js "[github") lower then true
    else if has_bracket_token text then true
    else false.

Abbreviation C := (eff exn (list cover_request)).

Definition runOnce (p : cover_request) : C jsstring :=
  if negb api_key_present
  then throw (error (if gemini then js "Gemini API key is missing"
                     else js "OpenAI API key is missing"))
  else fun sent => match llm sent p with
                   | Reply text => (Return text, sent ++ [p])
                   | Failed e => (Throw e, sent ++ [p])
                   end.

(** The requests and the checks, inside the [try]. *)
Definition letter : C jsstring :=
  let! cleaned := runOnce CoverInitial in
  let cleaned := trim (remove_all N.eqb backticks (stripMarkdownArtifacts cleaned)) in
  (if negb (nonempty cleaned) then throw (error (js "AI returned empty cover letter"))
   else ret tt) ;;
  let! cleaned :=
    (if containsPlaceholderTokens cleaned
     then let! repaired := runOnce (CoverRepair cleaned) in
          ret (trim (remove_all N.eqb backticks repaired))
     else ret cleaned) in
  if negb (nonempty cleaned) then throw (error (js "AI returned empty cover letter"))
  else if containsPlaceholderTokens cleaned
  then throw (error (js "Generated cover letter still contains placeholders. Please try again."))
  else ret cleaned.

(** [generateCoverLetter]. [has_result] is whether an analysis is there,
    [rewriteError] the error text of the modal that the handler closed
    over, [stored] the cover letters of the storage. The result is what
    the modal ends with, the document given to [setCoverLetter], and the
    requests sent. *)
Definition generateCoverLetter (has_result : bool) (rewriteError : jsstring)
    (job : JobPosting.t) (stored : list CoverLetter.t)
  : option cover_status * option GeneratedDocState * list cover_request :=
  if negb has_result then (None, None, [])
  else match letter [] with
       | (Return cleaned, sent) =>
           let status := if negb (nonempty rewriteError) then LetterShown cleaned
                         else LetterKeptBack cleaned in
           match list_find (fun cl => CoverLetter.jobId cl = JobPosting.id job
                                      /\ CoverLetter.content cl = cleaned) stored with
           | Some (_, existingDuplicate) =>
               (Some status,
                Some (mkGenerated (CoverLetter.id existingDuplicate) cleaned
                                  (CoverLetter.createdDate existingDuplicate)),
                sent)
           | None => (Some status, None, sent)
           end
       | (Throw e, sent) =>
           (Some (if aborted e then LetterCancelled
                  else LetterErrored
                         (if nonempty (message e) then message e
                          else js "Failed to generate cover letter")
                         (message e)),
            None, sent)
       end.

Lemma bracket_token_found a token b :
  93%N ∉ token -> 2 <= length token ->
  has_bracket_token (a ++ 91%N :: token ++ 93%N :: b) = true.
Proof.
  intros Hno Hlen. induction a as [|x a IH]; cbn [app has_bracket_token].
  - rewrite (WordDoc.indexOf_first 93 token b Hno).
    by rewrite (proj2 (Nat.leb_le 2 (length token))), N.eqb_refl.
  - by rewrite IH, orb_true_r.
Qed.

(** A text that passes [containsPlaceholderTokens] holds no bracket with
    two code units or more inside. *)
Lemma passes_without_token text :
  containsPlaceholderTokens text = false ->
  forall a token b, text = a ++ 91%N :: token ++ 93%N :: b -> 93%N ∉ token ->
                    length token < 2.
Proof.
  unfold containsPlaceholderTokens. intros Hpass a token b -> Hno.
  destruct (negb (nonempty _)) eqn:Hempty.
  { unfold nonempty in Hempty. apply negb_true_iff, bool_decide_eq_false in Hempty.
    destruct Hempty. by destruct a. }
  cbv zeta in Hpass.
  repeat match type of Hpass with
         | (if ?c then true else _) = false => destruct c eqn:?; [done|]
         end.
  destruct (decide (length token < 2)) as [|Hlong]; [done|].
  rewrite bracket_token_found in *; [done|done|lia].
Qed.

(** The letter that the requests and checks return, and the requests sent. *)
Lemma letter_checked :
  let sent := (letter []).2 in
  (sent = [] \/ sent = [CoverInitial]
   \/ exists first, sent = [CoverInitial; CoverRepair first]
                    /\ containsPlaceholderTokens first = true)
  /\ forall text, (letter []).1 = Return text ->
       text <> [] /\ trim text = text /\ includes backticks text = false
       /\ containsPlaceholderTokens text = false.
Proof.
  cbv zeta. unfold letter, runOnce, bind, ret, throw.
  destruct api_key_present; cbn [negb]; [|split; [by left|done]].
  destruct (llm [] CoverInitial) as [raw|e]; cbn [app]; [|split; [by right; left|done]].
  set (first := trim (remove_all N.eqb backticks (stripMarkdownArtifacts raw))).
  assert (Hfirst : trim first = first /\ includes backticks first = false).
  { split; [apply trim_id, trim_trimmed|].
    eapply excludes_part; [apply trim_part|apply no_fence_left]. }
  destruct (nonempty first) eqn:Hne; cbn [negb]; [|split; [by right; left|done]].
  destruct (containsPlaceholderTokens first) eqn:Hplace.
  - destruct (llm [CoverInitial] (CoverRepair first)) as [raw2|e]; cbn [app].
    2:{ split; [|done]. right; right. by exists first. }
    set (second := trim (remove_all N.eqb backticks raw2)).
    destruct (nonempty second) eqn:Hne2; cbn [negb];
      [destruct (containsPlaceholderTokens second) eqn:Hplace2|];
      (split; [right; right; by exists first|]); [done| |done].
    intros text [= <-]. split.
    { unfold nonempty in Hne2. by apply bool_decide_eq_true in Hne2. }
    split; [apply trim_id, trim_trimmed|]. split; [|done].
    eapply excludes_part; [apply trim_part|apply no_fence_left].
  - rewrite Hne. cbn [negb]. rewrite Hplace. split; [by right; left|].
    intros text [= <-]. split; [|by destruct Hfirst].
    unfold nonempty in Hne. by apply bool_decide_eq_true in Hne.
Qed.

(** X27. A cover letter that comes out has passed the checks, after two
    requests at most. The requests sent are none, the first one, or the
    first one and one repair, which quotes a first letter that held a
    placeholder. A letter that is shown, or kept back because the handler
    saw an error text, is not empty, has no white space at its ends, holds
    no fence of three backticks, passes [containsPlaceholderTokens], and so
    holds no bracket with two code units or more inside. The letter is
    shown only when the handler saw no error text; and a document given to
    [setCoverLetter] is a stored letter of the job with this very text. *)
Theorem shown_letter_passed_the_checks (has_result : bool) (rewriteError : jsstring)
    (job : JobPosting.t) (stored : list CoverLetter.t) :
  let run := generateCoverLetter has_result rewriteError job stored in
  let status := run.1.1 in
  let linked := run.1.2 in
  let sent := run.2 in
  (sent = [] \/ sent = [CoverInitial]
   \/ exists first, sent = [CoverInitial; CoverRepair first]
                    /\ containsPlaceholderTokens first = true)
  /\ (forall text,
        status = Some (LetterShown text) \/ status = Some (LetterKeptBack text) ->
        text <> [] /\ trim text = text /\ includes backticks text = false
        /\ containsPlaceholderTokens text = false
        /\ (forall a token b, text = a ++ 91%N :: token ++ 93%N :: b ->
                              93%N ∉ token -> length token < 2))
  /\ (forall text, status = Some (LetterShown text) -> rewriteError = [])
  /\ (forall g, linked = Some g ->
        (status = Some (LetterShown (g_text g))
         \/ status = Some (LetterKeptBack (g_text g)))
        /\ exists cl, cl ∈ stored
             /\ CoverLetter.jobId cl = JobPosting.id job
             /\ CoverLetter.content cl = g_text g
             /\ CoverLetter.id cl = g_id g).
Proof.
  cbv zeta. unfold generateCoverLetter.
  destruct has_result; cbn [negb].
  2:{ cbn. split; [by left|]. split; [intros text [[=]|[=]]|].
      split; [intros text [=]|intros g [=]]. }
  destruct letter_checked as [Hsent Htext].
  destruct (letter []) as [[cleaned|e] sent]; cbn [fst snd] in *.
  - specialize (Htext cleaned eq_refl). destruct Htext as (H1 & H2 & H3 & H4).
    assert (Hchecked : forall text,
              (if negb (nonempty rewriteError) then LetterShown cleaned
               else LetterKeptBack cleaned) = LetterShown text
              \/ (if negb (nonempty rewriteError) then LetterShown cleaned
                  else LetterKeptBack cleaned) = LetterKeptBack text ->
              text = cleaned).
    { intros text. destruct (negb (nonempty rewriteError)); intros [[=]|[=]]; done. }
    assert (Hshown : forall text,
              (if negb (nonempty rewriteError) then LetterShown cleaned
               else LetterKeptBack cleaned) = LetterShown text ->
              rewriteError = []).
    { intros text. unfold nonempty. case_bool_decide as Herr; cbn [negb]; [done|].
      intros _. destruct (decide (rewriteError = [])); [done|]. by destruct Herr. }
    destruct (list_find _ stored) as [[i dup]|] eqn:Hfind; cbn [fst snd].
    + apply list_find_Some in Hfind as (Hi & [Hjob Hcontent] & _).
      split; [done|]. split; [|split].
      * intros text Hst.
        assert (text = cleaned) as -> by (apply Hchecked; destruct Hst as [[=]|[=]]; auto).
        split; [done|]. split; [done|]. split; [done|]. split; [done|].
        by apply passes_without_token.
      * intros text [= Hst]. by eapply Hshown.
      * intros g [= <-]. cbn [g_text g_id]. split.
        { destruct (negb (nonempty rewriteError)); auto. }
        exists dup. split; [by eapply list_elem_of_lookup_2|done].
    + split; [done|]. split; [|split; [|done]].
      * intros text Hst.
        assert (text = cleaned) as -> by (apply Hchecked; destruct Hst as [[=]|[=]]; auto).
        split; [done|]. split; [done|]. split; [done|]. split; [done|].
        by apply passes_without_token.
      * intros text [= Hst]. by eapply Hshown.
  - split; [done|]. split; [|split; [|done]].
    + intros text. destruct (aborted e); intros [[=]|[=]].
    + intros text. destruct (aborted e); intros [=].
Qed.

End Cover.

End CoverLetterFlow.

(** ** The typewriter of the modal
    (src/src/popup/utils/download.ts, [startTypewriter]) *)
Module Typewriter.

Local Open Scope nat_scope.

Inductive status := Typing | Done.

(** The counter of the closure, the text displayed, the status of the
    modal, and whether the interval timer is set. *)
Record state := mkState {
  i : nat;
  displayed : jsstring;
  rewriteStatus : status;
  timer : bool;
}.

Definition chunkSize : nat := 18.

(** [startTypewriter(text)], up to the first turn of the timer. *)
Definition startTypewriter (text : jsstring) : state := mkState 0 [] Typing true.

(** One turn of the interval timer; a timer that was cleared does not
    turn. *)
Definition tick (text : jsstring) (st : state) : state :=
  if timer st
  then
    let i := Nat.min (length text) (i st + chunkSize) in
    let displayed := slice text 0 (Z.of_nat i) in
    if length text <=? i then mkState i displayed Done false
    else mkState i displayed (rewriteStatus st) (timer st)
  else st.

(** The state after [n] turns. *)
Fixpoint ticks (text : jsstring) (n : nat) : state :=
  match n with
  | O => startTypewriter text
  | S k => tick text (ticks text k)
  end.

Lemma slice_prefix (text : jsstring) (n : nat) :
  slice text 0 (Z.of_nat n) = take n text.
Proof.
  destruct (decide (n <= length text)) as [Hle|Hgt].
  - pose proof (slice_take_drop text 0 (Z.of_nat n)) as H.
    change (0 + Z.of_nat n)%Z with (Z.of_nat n) in H.
    rewrite H by lia. by rewrite Nat2Z.id.
  - unfold slice. cbv zeta.
    destruct (Z.ltb_spec 0 0); [lia|]. destruct (Z.ltb_spec (Z.of_nat n) 0); [lia|].
    replace (Z.to_nat (0 `min` Z.of_nat (length text))) with 0 by lia.
    cbn [drop]. rewrite (take_ge text n) by lia. apply take_ge. lia.
Qed.

(** The state after [n] turns, in full. *)
Lemma ticks_state (text : jsstring) (n : nat) :
  ticks text n
  = mkState (Nat.min (length text) (chunkSize * n))
            (take (chunkSize * n) text)
            (if (1 <=? n) && (length text <=? chunkSize * n) then Done else Typing)
            (negb ((1 <=? n) && (length text <=? chunkSize * n))).
Proof.
  unfold chunkSize. induction n as [|n IH].
  { cbn. by rewrite Nat.min_0_r, take_0. }
  cbn [ticks]. rewrite IH. unfold tick, chunkSize. cbn [timer i rewriteStatus].
  destruct ((1 <=? n) && (length text <=? 18 * n)) eqn:Hdone; cbn [negb].
  - apply andb_true_iff in Hdone as [H1 H2]. apply Nat.leb_le in H1, H2.
    rewrite (proj2 (Nat.leb_le 1 (S n))) by lia.
    rewrite (proj2 (Nat.leb_le (length text) (18 * S n))) by lia. cbn [andb negb].
    f_equal; [lia|]. rewrite !take_ge by lia. done.
  - rewrite slice_prefix.
    assert (Hmin : Nat.min (length text) (Nat.min (length text) (18 * n) + 18)
                   = Nat.min (length text) (18 * S n)) by lia.
    rewrite Hmin. cbn [Nat.leb]. cbn [andb].
    destruct (Nat.leb_spec (length text) (Nat.min (length text) (18 * S n)))
      as [Hle|Hlt].
    + rewrite (proj2 (Nat.leb_le (length text) (18 * S n))) by lia. cbn [negb].
      f_equal. rewrite !take_ge by lia. done.
    + rewrite (proj2 (Nat.leb_gt (length text) (18 * S n))) by lia. cbn [negb].
      by rewrite Nat.min_r by lia.
Qed.

(** X28. The typewriter ends with the whole text. After [n] turns of the
    timer the modal displays the first [18 * n] code units of the text;
    the status is done exactly from the first turn on at which these are
    the whole text (the first turn for an empty text); then the timer is
    cleared and nothing changes any more; and this turn comes, at the
    latest after [length text / 18 + 1] turns. *)
Theorem typewriter_ends_with_the_text (text : jsstring) :
  (forall n, displayed (ticks text n) = take (18 * n) text
             /\ displayed (ticks text n) `prefix_of` text)
  /\ (forall n, rewriteStatus (ticks text n) = Done <-> 1 <= n /\ length text <= 18 * n)
  /\ (forall n, rewriteStatus (ticks text n) = Done ->
        displayed (ticks text n) = text
        /\ timer (ticks text n) = false
        /\ forall m, n <= m -> ticks text m = ticks text n)
  /\ rewriteStatus (ticks text (length text / 18 + 1)) = Done.
Proof.
  assert (Hdone : forall n, rewriteStatus (ticks text n) = Done
                            <-> 1 <= n /\ length text <= 18 * n).
  { intros n. rewrite ticks_state. cbn [rewriteStatus]. unfold chunkSize.
    destruct ((1 <=? n) && (length text <=? 18 * n)) eqn:Hn.
    - apply andb_true_iff in Hn as [H1 H2]. apply Nat.leb_le in H1, H2. done.
    - split; [done|]. intros [H1 H2].
      apply andb_false_iff in Hn as [Hn|Hn]; apply Nat.leb_gt in Hn; lia. }
  split; [|split; [exact Hdone|split]].
  - intros n. rewrite ticks_state. cbn [displayed]. split; [done|].
    exists (drop (chunkSize * n) text). by rewrite take_drop.
  - intros n Hn. apply Hdone in Hn as [H1 H2].
    assert (Hflag : forall m, n <= m ->
              (1 <=? m) && (length text <=? chunkSize * m) = true).
    { intros m Hm. unfold chunkSize. apply andb_true_iff.
      split; apply Nat.leb_le; lia. }
    rewrite ticks_state. cbn [displayed timer]. rewrite (Hflag n) by done.
    split; [apply take_ge; unfold chunkSize; lia|]. split; [done|].
    intros m Hm. rewrite (ticks_state text m), (Hflag m Hm).
    unfold chunkSize. f_equal; [lia|]. rewrite !take_ge by lia. done.
  - apply Hdone. split; [lia|].
    pose proof (Nat.div_mod_eq (length text) 18) as Hdiv.
    pose proof (Nat.mod_upper_bound (length text) 18) as Hmod. lia.
Qed.

End Typewriter.

(** ** Bytes and base64 (the DOCX utilities that follow
    src/src/background/background.ts) *)
Module Base64.

Local Open Scope nat_scope.

(** [0x8000] *)
Definition chunk : nat := 2 ^ 15.

(** The loop of [uint8ArrayToBase64]: [binary] so far, the next chunk
    starting at [i]; [bytes.subarray(i, i + chunk)] is
    [take chunk (drop i bytes)], and [String.fromCharCode] of bytes gives
    the code units of the same values. [None]: the turns allowed are
    used up. *)
Fixpoint build (turns i : nat) (bytes : list N) (binary : jsstring)
  : option jsstring :=
  match turns with
  | O => None
  | S turns =>
      if i <? length bytes
      then build turns (i + chunk) bytes (binary ++ take chunk (drop i bytes))
      else Some binary
  end.

Section Browser.

(** [btoa], and [atob], which throws on what is not base64. *)
Variable btoa : jsstring -> jsstring.
Variable atob : jsstring -> option jsstring.

Definition uint8ArrayToBase64 (turns : nat) (bytes : list N) : option jsstring :=
  btoa <$> build turns 0 bytes [].

(** A [Uint8Array] keeps the values modulo 256. *)
Definition base64ToUint8Array (base64 : jsstring) : option (list N) :=
  map (fun c => c mod 256)%N <$> atob base64.

Lemma build_all (bytes : list N) : forall turns i,
  length bytes - i < turns ->
  build turns i bytes (take i bytes) = Some bytes.
Proof.
  induction turns as [|turns IH]; intros i Hi; [lia|].
  cbn [build]. destruct (Nat.ltb_spec i (length bytes)) as [Hlt|Hge].
  - rewrite take_take_drop. apply IH.
    assert (chunk <> 0) by (by apply Nat.pow_nonzero). lia.
  - by rewrite take_ge.
Qed.

Lemma bytes_mod (bytes : list N) :
  Forall (fun b => (b < 256)%N) bytes -> map (fun c => c mod 256)%N bytes = bytes.
Proof.
  induction 1 as [|b r Hb _ IH]; [done|]. cbn [map].
  by rewrite IH, N.mod_small.
Qed.

(** X29. Bytes survive the way through base64. For a browser whose [atob]
    gives back the binary strings that [btoa] encodes, and for bytes below
    256, [uint8ArrayToBase64] encodes the bytes themselves, whatever their
    number and the chunks they are read in, once the loop is given more
    turns than there are bytes; and [base64ToUint8Array] gives the bytes
    back. *)
Theorem base64_round_trip (bytes : list N) (turns : nat) :
  (forall binary, Forall (fun b => (b < 256)%N) binary -> atob (btoa binary) = Some binary) ->
  Forall (fun b => (b < 256)%N) bytes ->
  length bytes < turns ->
  uint8ArrayToBase64 turns bytes = Some (btoa bytes)
  /\ (uint8ArrayToBase64 turns bytes ≫= base64ToUint8Array) = Some bytes.
Proof.
  intros Hbrowser Hbytes Hturns. unfold uint8ArrayToBase64, base64ToUint8Array.
  pose proof (build_all bytes turns 0) as Hbuild. rewrite take_0 in Hbuild.
  rewrite Hbuild by lia. cbn [fmap option_fmap option_map].
  split; [done|]. cbn [mbind option_bind]. rewrite (Hbrowser bytes Hbytes).
  cbn [fmap option_fmap option_map]. by rewrite bytes_mod.
Qed.

End Browser.

Lemma base64_round_trip_witness :
  (uint8ArrayToBase64 (fun s => s) 4 [80; 75; 3]%N
   ≫= base64ToUint8Array Some) = Some [80; 75; 3]%N.
Proof.
  apply (base64_round_trip (fun s => s) Some [80; 75; 3]%N 4).
  - done.
  - repeat constructor.
  - cbn. lia.
Defined.

End Base64.
